(** * Tuner Lab: the tuning-mathematics engine of [src/App.tsx]

    A shallow embedding of the engine (cents/ratio conversion, circular
    distance, the four nearest-neighbour projectors, the pitch parser and the
    rows of the interval comparator) together with the properties stated for
    it.

    Number model.  A JavaScript [number] is modelled as a real number:
    [+], [-], [*], [/] are the field operations, [Math.log] is [ln],
    [Math.pow] is [Rpower] (every base in the program is a positive
    constant), [Math.floor] is [Zfloor], [Math.round] is rounding half
    towards plus infinity and [%] is the truncated remainder.  Rounding of
    IEEE doubles and arithmetic on NaN and the infinities are outside this
    model; where a search relies on [Infinity] or on [null] the value is an
    [option].  Numbers that the program only ever holds as integers (results
    of [Math.round], [Math.floor], [parseInt], table entries) are kept in [Z].

    Where a value that is no real enters.  [Number(s)] reads the literal
    [Infinity], so the parser can return a frequency that is no real: its
    result holds a [number], which is a real or one of [Infinity],
    [-Infinity] and [NaN].  The comparator computes with the frequencies it
    parses; for a target of infinite frequency its row holds NaN, which this
    model does not compute: the rows are an [option], [None] when such a
    target is met.

    Where the digits of a number are printed.  [x.toFixed(d)] prints the
    binary number that the program holds, in exponent notation from 1e21
    on; these digits are not determined by the real [x], so a text keeps a
    reference to [x] and [d] in their place.

    Strings.  A character is a code unit below 256, so a string of the
    model is a JavaScript string of Latin-1 characters. *)

From Stdlib Require Import Reals Lra Lia ZArith List Sorted Permutation.
From Stdlib Require Import String Ascii DecimalString.
From Stdlib Require DecimalPos.
From Equations Require Import Equations.
From stdpp Require Import gmap.
Import ListNotations.

#[local] Open Scope R_scope.

(** ** JavaScript built-ins used by the engine *)

Module JS.

(** [Math.round]: the nearest integer, a tie going to the larger one. *)
Definition Math_round (x : R) : Z := Zfloor (x + 1 / 2).

(** [Math.floor]. *)
Definition Math_floor (x : R) : Z := Zfloor x.

(** [Math.trunc], the quotient used by [%]. *)
Definition trunc (x : R) : Z :=
  if Rle_dec 0 x then Zfloor x else Zceil x.

(** [x % m]: the remainder has the sign of the dividend. *)
Definition rem (x m : R) : R := x - m * IZR (trunc (x / m)).

Definition Math_abs (x : R) : R := Rabs x.
Definition Math_log (x : R) : R := ln x.
Definition Math_pow (x y : R) : R := Rpower x y.

(** Boolean test for [<] on numbers ([x > y] is [ltb y x]). *)
Definition ltb (x y : R) : bool := if Rlt_dec x y then true else false.

(** Decimal digits of an integer, as a template literal prints it. *)
Definition string_of_Z (z : Z) : string := NilZero.string_of_int (Z.to_int z).

(** [String(x)] for a number that holds an integer (the only numbers the
    program prints this way are [100 * n] and exact fraction parts). *)
Definition toString (x : R) : string := string_of_Z (trunc x).

(** [x | 0]: [ToInt32], truncation followed by wrap-around to 32 bits. *)
Definition ToInt32 (x : R) : Z :=
  ((trunc x + 2147483648) mod 4294967296 - 2147483648)%Z.

(** A number that may be no real: [Number(s)] yields [NaN] for a string
    that is no numeric literal and an infinity for the literal [Infinity]. *)
Inductive number := Num (x : R) | PosInf | NegInf | NaN.

Definition isNaN (v : number) : bool :=
  match v with
  | NaN => true
  | _ => false
  end.

(** [v > 0]. *)
Definition gt_zero (v : number) : bool :=
  match v with
  | Num x => ltb 0 x
  | PosInf => true
  | NegInf | NaN => false
  end.

(** The text that a template literal builds: literal characters and results
    of [x.toFixed(d)].  Those digits are the ones of the binary number that
    the program holds for [x], in exponent notation from 1e21 on; the number
    model does not determine them, so the text keeps [x] and [d]. *)
Inductive piece := Chars (s : string) | Fixed (x : R) (d : nat).

Definition text := list piece.

(** [v.toFixed(d)]; a number that is not finite prints as [String(v)]. *)
Definition toFixed (v : number) (d : nat) : text :=
  match v with
  | Num x => [Fixed x d]
  | PosInf => [Chars "Infinity"]
  | NegInf => [Chars "-Infinity"]
  | NaN => [Chars "NaN"]
  end.

(** [!s] for a text: only the empty string is falsy, and [toFixed] never
    returns it. *)
Definition text_empty (s : text) : bool :=
  forallb (fun p => match p with
                    | Chars c => String.eqb c ""
                    | Fixed _ _ => false
                    end) s.

(** *** Strings *)

(** White space, as [trim], [Number] and [parseInt] strip it: of the
    characters with codes below 256 these are the codes 9 to 13, 32 and 160
    (the no-break space). *)
Definition is_space (c : ascii) : bool :=
  let n := nat_of_ascii c in
  ((n =? 32) || ((9 <=? n) && (n <=? 13)) || (n =? 160))%nat.

Fixpoint trim_left (s : list ascii) : list ascii :=
  match s with
  | c :: s' => if is_space c then trim_left s' else s
  | [] => []
  end.

(** [s.trim()]. *)
Definition trim (s : list ascii) : list ascii :=
  rev (trim_left (rev (trim_left s))).

(** [s.replace(",", ".")]: the first comma only. *)
Fixpoint replace_comma (s : list ascii) : list ascii :=
  match s with
  | c :: s' => if Ascii.eqb c "," then "."%char :: s' else c :: replace_comma s'
  | [] => []
  end.

Definition is_digit (c : ascii) : bool :=
  let n := nat_of_ascii c in ((48 <=? n) && (n <=? 57))%nat.

Definition digit_val (c : ascii) : Z := Z.of_nat (nat_of_ascii c) - 48.

(** Value of a digit in a radix up to 16, when it is one. *)
Definition xdigit_val (radix : Z) (c : ascii) : option Z :=
  let n := Z.of_nat (nat_of_ascii c) in
  let v := if ((48 <=? n) && (n <=? 57))%Z then Some (n - 48)%Z
           else if ((97 <=? n) && (n <=? 102))%Z then Some (n - 87)%Z
           else if ((65 <=? n) && (n <=? 70))%Z then Some (n - 55)%Z
           else None in
  match v with
  | Some d => if (d <? radix)%Z then Some d else None
  | None => None
  end.

Fixpoint span_digits (s : list ascii) : list ascii * list ascii :=
  match s with
  | c :: s' => if is_digit c then let (ds, r) := span_digits s' in (c :: ds, r)
               else ([], s)
  | [] => ([], [])
  end.

Definition digits_val (ds : list ascii) : Z :=
  fold_left (fun acc c => (acc * 10 + digit_val c)%Z) ds 0%Z.

Fixpoint radix_val (radix : Z) (s : list ascii) (acc : Z) : option Z :=
  match s with
  | [] => Some acc
  | c :: s' => match xdigit_val radix c with
               | Some d => radix_val radix s' (acc * radix + d)%Z
               | None => None
               end
  end.

(** Optional sign: [(negative, rest)]. *)
Definition take_sign (s : list ascii) : bool * list ascii :=
  match s with
  | c :: s' => if Ascii.eqb c "-" then (true, s')
               else if Ascii.eqb c "+" then (false, s') else (false, s)
  | [] => (false, [])
  end.

(** [ExponentPart_opt] followed by the end of the string. *)
Definition parse_exponent (s : list ascii) : option Z :=
  match s with
  | [] => Some 0%Z
  | c :: s' =>
      if (Ascii.eqb c "e" || Ascii.eqb c "E")%bool then
        let (neg, s1) := take_sign s' in
        let (ds, r) := span_digits s1 in
        match ds, r with
        | _ :: _, [] => Some (if neg then - digits_val ds else digits_val ds)%Z
        | _, _ => None
        end
      else None
  end.

(** [StrUnsignedDecimalLiteral]: digits, optional fraction, optional
    exponent; the result [(m, e)] stands for [m * 10^e]. *)
Definition parse_unsigned_decimal (s : list ascii) : option (Z * Z) :=
  let (ip, r) := span_digits s in
  let '(dot, fp, r') :=
    match r with
    | c :: r1 => if Ascii.eqb c "." then let (fp, r2) := span_digits r1 in (true, fp, r2)
                 else (false, [], r)
    | [] => (false, [], [])
    end in
  match ip, fp with
  | [], [] => None
  | _, _ =>
      match parse_exponent r' with
      | Some e => Some (digits_val (ip ++ fp), (e - Z.of_nat (List.length fp))%Z)
      | None => None
      end
  end.

(** [0x], [0o] and [0b] integer literals (no sign). *)
Definition parse_non_decimal (s : list ascii) : option (Z * Z) :=
  match s with
  | z :: p :: (_ :: _) as ds =>
      if Ascii.eqb z "0" then
        let radix :=
          if (Ascii.eqb p "x" || Ascii.eqb p "X")%bool then Some 16%Z
          else if (Ascii.eqb p "o" || Ascii.eqb p "O")%bool then Some 8%Z
          else if (Ascii.eqb p "b" || Ascii.eqb p "B")%bool then Some 2%Z
          else None in
        match radix with
        | Some rx => match radix_val rx ds 0%Z with
                     | Some v => Some (v, 0%Z)
                     | None => None
                     end
        | None => None
        end
      else None
  | _ => None
  end.

(** What a numeric literal denotes: [m * 10^e], or an infinity with its
    sign. *)
Inductive numeric := Decimal (m e : Z) | Infinite (neg : bool).

(** The numeric literal grammar of [Number(s)]: white space around a
    literal that is empty, a [0x], [0o] or [0b] integer, or an optional sign
    before [Infinity] or a decimal; [None] is [NaN]. *)
Definition parse_numeric (s : list ascii) : option numeric :=
  let s := trim s in
  match s with
  | [] => Some (Decimal 0 0)
  | _ =>
      match parse_non_decimal s with
      | Some (m, e) => Some (Decimal m e)
      | None =>
          let (neg, s1) := take_sign s in
          if String.eqb (string_of_list_ascii s1) "Infinity" then Some (Infinite neg)
          else match parse_unsigned_decimal s1 with
               | Some (m, e) => Some (Decimal (if neg then - m else m) e)
               | None => None
               end
      end
  end.

(** [Number(s)].  A decimal literal is read as the real that it denotes;
    that the program reads a literal beyond the range of its binary numbers
    as an infinity, and one below that range as zero, is not modelled. *)
Definition Number (s : list ascii) : number :=
  match parse_numeric s with
  | Some (Decimal m e) => Num (IZR m * powerRZ 10 e)
  | Some (Infinite false) => PosInf
  | Some (Infinite true) => NegInf
  | None => NaN
  end.

(** [parseInt(s, 10)]: white space, sign, then the longest digit prefix. *)
Definition parseInt (s : list ascii) : option Z :=
  let (neg, s1) := take_sign (trim_left s) in
  let (ds, _) := span_digits s1 in
  match ds with
  | [] => None
  | _ => Some (if neg then - digits_val ds else digits_val ds)%Z
  end.

(** [s.split("/")]. *)
Fixpoint split_slash (s : list ascii) : list (list ascii) :=
  match s with
  | [] => [[]]
  | c :: s' =>
      if Ascii.eqb c "/" then [] :: split_slash s'
      else match split_slash s' with
           | w :: ws => (c :: w) :: ws
           | [] => [[c]]
           end
  end.

End JS.

Import JS.

(** ** Utilidades generales *)

Definition LOG2 : R := Math_log 2.
Definition toCents (ratio : R) : R := 1200 * Math_log ratio / LOG2.
Definition fromCents (cents : R) : R := Math_pow 2 (cents / 1200).
Definition log2 (x : R) : R := Math_log x / LOG2.

Definition signedDelta (refCents targetCents : R) : R :=
  let d := targetCents - refCents in
  rem (rem (d + 600) 1200 + 1200) 1200 - 600.


Definition clamp (x a b : R) : R := Rmin b (Rmax a x).

(** The loop of [gcdInt]: [while (b) { t = b; b = a % b; a = t }]. *)
Equations? gcd_loop (a b : Z) : Z by wf (Z.abs_nat b) lt :=
  gcd_loop a b with Z.eq_dec b 0%Z => {
    | left _ := a;
    | right _ := gcd_loop b (Z.rem a b) }.
Proof. pose proof (Z.rem_bound_abs a b). lia. Qed.

(** [gcdInt]; the callers pass integers, on which [Math.round] is the
    identity; [a || 1] replaces a zero result by one. *)
Definition gcdInt (a b : Z) : Z :=
  let a := Z.abs a in
  let b := Z.abs b in
  let g := gcd_loop a b in
  if (g =? 0)%Z then 1%Z else g.

(** [reduceFraction]: both quotients are exact, [g] divides both parts. *)
Definition reduceFraction (numer denom : Z) : Z * Z :=
  let g := gcdInt numer denom in
  ((numer / g)%Z, (denom / g)%Z).

Definition formatRatio (numer denom : Z) : string :=
  if (denom =? 1)%Z then (string_of_Z numer ++ "/1")%string
  else (string_of_Z numer ++ "/" ++ string_of_Z denom)%string.

(** Coloreado por desviacion *)
Definition devColor (c : R) : string :=
  let a := Math_abs c in
  if ltb a 5 then "text-emerald-300"%string
  else if ltb a 15 then "text-amber-300"%string
  else "text-rose-300"%string.

(** ** Conversion nota - frecuencia *)

Definition NOTE_INDEX : list (string * Z) :=
  [ ("C", 0); ("C#", 1); ("Db", 1); ("D", 2); ("D#", 3); ("Eb", 3); ("E", 4);
    ("F", 5); ("F#", 6); ("Gb", 6); ("G", 7); ("G#", 8); ("Ab", 8); ("A", 9);
    ("A#", 10); ("Bb", 10); ("B", 11) ]%Z%string.

Fixpoint lookup_name (name : string) (table : list (string * Z)) : option Z :=
  match table with
  | [] => None
  | (k, v) :: table' => if String.eqb k name then Some v else lookup_name name table'
  end.

Definition PC_NAMES : list string :=
  [ "C"; "C#/Db"; "D"; "D#/Eb"; "E"; "F"; "F#/Gb"; "G"; "G#/Ab"; "A"; "A#/Bb"; "B" ]%string.

Record Parsed := mkParsed {
  freq : option number;
  label : text;
  midi : option Z;
  pc : option Z }.

Definition is_note_letter (c : ascii) : bool :=
  let n := nat_of_ascii c in
  (((65 <=? n) && (n <=? 71)) || ((97 <=? n) && (n <=? 103)))%nat.

Definition toUpperCase (c : ascii) : ascii :=
  let n := nat_of_ascii c in
  if ((97 <=? n) && (n <=? 122))%nat then ascii_of_nat (n - 32) else c.

(** The match of [/^([A-Ga-g])([#b]?)(-?\d+)$/]: the groups [(L, acc, octStr)]. *)
Definition match_note (s : list ascii) : option (ascii * list ascii * list ascii) :=
  match s with
  | L :: r =>
      if is_note_letter L then
        let (acc, r1) :=
          match r with
          | c :: r' => if (Ascii.eqb c "#" || Ascii.eqb c "b")%bool then ([c], r') else ([], r)
          | [] => ([], [])
          end in
        let (sign, r2) :=
          match r1 with
          | c :: r' => if Ascii.eqb c "-" then ([c], r') else ([], r1)
          | [] => ([], [])
          end in
        let (ds, rest) := span_digits r2 in
        match ds, rest with
        | _ :: _, [] => Some (L, acc, sign ++ ds)
        | _, _ => None
        end
      else None
  | [] => None
  end.

(** The result for a string that is no pitch; its label is the empty
    string. *)
Definition null_parse : Parsed :=
  {| freq := None; label := []; midi := None; pc := None |}.

Definition parseNoteOrHz (input : string) (a4 : R) : Parsed :=
  let s := trim (list_ascii_of_string input) in
  (* Intento 1: frecuencia en Hz *)
  let asNum := Number (replace_comma s) in
  if (negb (isNaN asNum) && gt_zero asNum)%bool then
    {| freq := Some asNum; label := toFixed asNum 6 ++ [Chars " Hz"];
       midi := None; pc := None |}
  else
      (* Intento 2: nota tipo C4, F#3, Bb2 *)
      match match_note s with
      | None => null_parse
      | Some (L, acc, octStr) =>
          let letter := toUpperCase L in
          let name := string_of_list_ascii (letter :: acc) in
          match lookup_name name NOTE_INDEX with
          | None => null_parse
          | Some idx =>
              match parseInt octStr with
              | None => null_parse
              | Some octave =>
                  let midi := ((octave + 1) * 12 + idx)%Z in
                  let freq := a4 * Math_pow 2 (IZR (midi - 69) / 12) in
                  {| freq := Some (Num freq);
                     label := [Chars (name ++ string_of_Z octave)];
                     midi := Some midi;
                     pc := Some (Z.rem (Z.rem midi 12 + 12) 12) |}
              end
          end
      end.

(** [!x] for a frequency that is a number or [null]: [null], zero and
    [NaN] are falsy. *)
Definition falsy (f : option number) : bool :=
  match f with
  | None => true
  | Some (Num x) => if Req_dec_T x 0 then true else false
  | Some NaN => true
  | Some PosInf | Some NegInf => false
  end.

(** ** Temperamento igual *)

Record EqualResult := mkEqual { eq_cents : R; eq_ratio : R; eq_steps : Z }.

Definition equalTempNearest (centsJust : R) : EqualResult :=
  let n := Math_round (centsJust / 100) in
  let cents := IZR n * 100 in
  let ratio := fromCents cents in
  {| eq_cents := cents; eq_ratio := ratio; eq_steps := n |}.

(** ** Pitagorico (3-limit), con memo *)

Record PythBest := mkPythBest {
  pb_b : Z; pb_a : Z; pb_cents : R; pb_ratio : R;
  pb_err : option R (* [None] is [Infinity] *) }.

Record PythResult := mkPyth { py_cents : R; py_ratio : R; py_fraction : string }.

(** [err < best.err], where [best.err] may be [Infinity]. *)
Definition below (err : R) (bound : option R) : bool :=
  match bound with
  | None => true
  | Some e => ltb err e
  end.

Definition pyth_init : PythBest :=
  {| pb_b := 0; pb_a := 0; pb_cents := 0; pb_ratio := 1; pb_err := None |}.

(** One iteration of [for (let b = -11; b <= 11; b++)]. *)
Definition pyth_step (centsTarget : R) (best : PythBest) (b : Z) : PythBest :=
  let pow3 := Math_pow 3 (IZR b) in
  let a := Math_floor (log2 pow3) in
  let r := pow3 / Math_pow 2 (IZR a) in
  let c := toCents r in
  let c := rem (rem c 1200 + 1200) 1200 in
  let err := Math_abs (signedDelta centsTarget c) in
  if below err (pb_err best)
  then {| pb_b := b; pb_a := a; pb_cents := c; pb_ratio := r; pb_err := Some err |}
  else best.

Definition pyth_exponents : list Z := seqZ (-11) 23.

Definition pyth_best (centsTarget : R) : PythBest :=
  fold_left (pyth_step centsTarget) pyth_exponents pyth_init.

(** Construye fraccion exacta con enteros positivos. *)
Definition pyth_fraction (best : PythBest) : string :=
  let b := pb_b best in
  let a := pb_a best in
  let '(numer, denom) :=
    if ((0 <=? b) && (0 <=? a))%Z then (Math_pow 3 (IZR b), Math_pow 2 (IZR a))
    else if ((0 <=? b) && (a <? 0))%Z then (Math_pow 3 (IZR b) * Math_pow 2 (- IZR a), 1)
    else if ((b <? 0) && (0 <=? a))%Z then (1, Math_pow 3 (- IZR b) * Math_pow 2 (IZR a))
    else (Math_pow 2 (- IZR a), Math_pow 3 (- IZR b)) in
  let '(rn, rd) := reduceFraction (Math_round numer) (Math_round denom) in
  formatRatio rn rd.

(** The body of [nearestPythagorean] after a cache miss. *)
Definition pyth_search (centsTarget : R) : PythResult :=
  let best := pyth_best centsTarget in
  {| py_cents := pb_cents best; py_ratio := pb_ratio best;
     py_fraction := pyth_fraction best |}.

Definition nearestPythagorean (centsTarget : R) (cache : gmap Z PythResult)
  : PythResult * gmap Z PythResult :=
  let key := Math_round (centsTarget * 1000) in
  match cache !! key with
  | Some hit => (hit, cache)
  | None =>
      let res := pyth_search centsTarget in
      (res, <[key := res]> cache)
  end.

(** ** Werckmeister III, con memo *)

(** [xs.sort((a, b) => a - b)]: insertion by the sign of [a - b]. *)
Fixpoint sort_insert (x : R) (l : list R) : list R :=
  match l with
  | [] => [x]
  | y :: l' => if ltb 0 (x - y) then y :: sort_insert x l' else x :: l
  end.

Definition sort_numeric (l : list R) : list R := fold_right sort_insert [] l.

Definition pureFifth : R := toCents (3 / 2).
Definition pythComma : R := 1200 * Math_log (531441 / 524288) / LOG2.
Definition quarterComma : R := pythComma / 4.
Definition temperedFifth : R := pureFifth - quarterComma.

Definition w3_sizes : list R :=
  [ temperedFifth; temperedFifth; temperedFifth; temperedFifth;
    pureFifth; pureFifth; pureFifth; pureFifth;
    pureFifth; pureFifth; pureFifth; pureFifth ].

(** One iteration of [for (let i = 0; i < 11; i++)]: the state is
    [(acc, cents)]. *)
Definition w3_step (st : R * list R) (i : nat) : R * list R :=
  let '(acc, cents) := st in
  let acc := acc + nth i w3_sizes 0 in
  let pos := rem acc 1200 in
  let pos := if ltb pos 0 then pos + 1200 else pos in
  (acc, cents ++ [pos]).

Definition werckmeisterIIIPositions : list R :=
  let '(_, cents) := fold_left w3_step (seq 0 11) (0, [0]) in
  let unique := map (fun x => rem (x + 1200) 1200) cents in
  sort_numeric unique.

Record W3Best := mkW3Best { wb_idx : nat; wb_cents : R; wb_err : R }.

Record W3Result := mkW3 { w3_cents : R; w3_ratio : R }.

(** One iteration of [for (let i = 1; i < positions.length; i++)]. *)
Definition w3_match_step (centsTarget : R) (positions : list R)
    (best : W3Best) (i : nat) : W3Best :=
  let p := nth i positions 0 in
  let err := Math_abs (p - centsTarget) in
  let err := if ltb 600 err then 1200 - err else err in
  if ltb err (wb_err best)
  then {| wb_idx := i; wb_cents := p; wb_err := err |}
  else best.

(** The search of [nearestWerckmeister].  [positions[0]] is read without a
    test; it is [undefined] for an empty array, which the program never
    passes, and is read as [0] here. *)
Definition w3_best (centsTarget : R) (positions : list R) : W3Best :=
  let p0 := nth 0 positions 0 in
  fold_left (w3_match_step centsTarget positions)
            (seq 1 (List.length positions - 1))
            {| wb_idx := 0; wb_cents := p0; wb_err := Math_abs (p0 - centsTarget) |}.

Definition w3_search (centsTarget : R) (positions : list R) : W3Result :=
  let best := w3_best centsTarget positions in
  {| w3_cents := wb_cents best; w3_ratio := fromCents (wb_cents best) |}.

Definition nearestWerckmeister (centsTarget : R) (positions : list R)
    (cache : gmap Z W3Result) : W3Result * gmap Z W3Result :=
  let key := Math_round (centsTarget * 1000) in
  match cache !! key with
  | Some hit => (hit, cache)
  | None =>
      let res := w3_search centsTarget positions in
      (res, <[key := res]> cache)
  end.

(** ** Conjunto justo comun, con memo *)

Record JustEntry := mkJust { name : string; frac : Z * Z }.

Definition JUST_SET : list JustEntry :=
  [ mkJust "1/1 (unísono)" (1, 1);
    mkJust "16/15 (2m)" (16, 15);
    mkJust "10/9 (2m)" (10, 9);
    mkJust "9/8 (2M)" (9, 8);
    mkJust "6/5 (3m)" (6, 5);
    mkJust "5/4 (3M)" (5, 4);
    mkJust "4/3 (4J)" (4, 3);
    mkJust "45/32 (TT)" (45, 32);
    mkJust "3/2 (5J)" (3, 2);
    mkJust "8/5 (6m)" (8, 5);
    mkJust "5/3 (6M)" (5, 3);
    mkJust "16/9 (7m)" (16, 9);
    mkJust "15/8 (7M)" (15, 8) ]%Z.

Record JustBest := mkJustBest {
  jb_name : string; jb_frac : Z * Z; jb_cents : R; jb_err : R }.

Record JustResult := mkJustResult { j_name : string; j_frac : Z * Z; j_cents : R }.

Definition just_cents (j : JustEntry) : R :=
  toCents (IZR (fst (frac j)) / IZR (snd (frac j))).

(** One iteration of [for (const j of JUST_SET)]. *)
Definition just_step (centsTarget : R) (best : JustBest) (j : JustEntry) : JustBest :=
  let c := just_cents j in
  let err := Math_abs (signedDelta centsTarget c) in
  if ltb err (jb_err best)
  then {| jb_name := name j; jb_frac := frac j; jb_cents := c; jb_err := err |}
  else best.

Definition just_init : JustBest :=
  {| jb_name := ""; jb_frac := (1, 1)%Z; jb_cents := 0; jb_err := 1000000000 |}.

Definition just_best (centsTarget : R) : JustBest :=
  fold_left (just_step centsTarget) JUST_SET just_init.

Definition just_search (centsTarget : R) : JustResult :=
  let best := just_best centsTarget in
  {| j_name := jb_name best; j_frac := jb_frac best; j_cents := jb_cents best |}.

Definition nearestJust (centsTarget : R) (cache : gmap Z JustResult)
  : JustResult * gmap Z JustResult :=
  let key := Math_round (centsTarget * 1000) in
  match cache !! key with
  | Some hit => (hit, cache)
  | None =>
      let res := just_search centsTarget in
      (res, <[key := res]> cache)
  end.

(** ** Comparador *)

Inductive System := SysJust | SysEqual | SysPyth | SysW3.
Inductive DistMode := Previous | First.

Record Row := mkRow {
  target : text; hzTarget : R; centsEI : R; ratioRed : R;
  sysName : string; sysFrac : text; sysCents : R; sysHz : R; dev : R;
  distFrac : option text; distCents : option R }.

(** The three module-level caches. *)
Record Caches := mkCaches {
  pythCache : gmap Z PythResult;
  w3Cache : gmap Z W3Result;
  justCache : gmap Z JustResult }.

Definition no_caches : Caches :=
  {| pythCache := ∅; w3Cache := ∅; justCache := ∅ |}.

(** The projection of a target on the chosen system. *)
Record Projection := mkProjection {
  p_ratio : R; p_cents : R; p_name : string; p_frac : text;
  p_pair : option (Z * Z) }.

(** Proyeccion al sistema elegido. *)
Definition project (sys : System) (w3Positions : list R)
    (ratioRed centsEI : R) (c : Caches) : Projection * Caches :=
  match sys with
  | SysEqual =>
      let eq := equalTempNearest centsEI in
      ({| p_ratio := eq_ratio eq; p_cents := eq_cents eq;
          p_name := (string_of_Z (ToInt32 (eq_cents eq / 100)) ++ " st")%string;
          p_frac := [Chars ("2^( " ++ toString (eq_cents eq) ++ "/1200 )")];
          p_pair := None |}, c)
  | SysJust =>
      let '(j, jc) := nearestJust centsEI (justCache c) in
      let '(n, d) := j_frac j in
      ({| p_ratio := IZR n / IZR d; p_cents := j_cents j;
          p_name := j_name j;
          p_frac := [Chars (string_of_Z n ++ "/" ++ string_of_Z d)];
          p_pair := Some (n, d) |},
       {| pythCache := pythCache c; w3Cache := w3Cache c; justCache := jc |})
  | SysPyth =>
      let '(p, pc) := nearestPythagorean centsEI (pythCache c) in
      let pair :=
        match split_slash (list_ascii_of_string (py_fraction p)) with
        | [m0; m1] =>
            match parseInt m0, parseInt m1 with
            | Some n, Some d => Some (n, d)
            | _, _ => None
            end
        | _ => None
        end in
      ({| p_ratio := py_ratio p; p_cents := py_cents p;
          p_name := "3-limit"; p_frac := [Chars (py_fraction p)]; p_pair := pair |},
       {| pythCache := pc; w3Cache := w3Cache c; justCache := justCache c |})
  | SysW3 =>
      let '(w, wc) := nearestWerckmeister centsEI w3Positions (w3Cache c) in
      ({| p_ratio := w3_ratio w; p_cents := w3_cents w;
          p_name := "Werckmeister III";
          p_frac := [Chars "2^( "] ++ toFixed (Num (w3_cents w)) 1 ++ [Chars "/1200 )"];
          p_pair := None |},
       {| pythCache := pythCache c; w3Cache := wc; justCache := justCache c |})
  end.

(** Distancia: [(distFrac, distCents)] against the reference, if there is one. *)
Definition distance (pr : Projection) (refRatio : option R)
    (refFrac : option (Z * Z)) : option text * option R :=
  match refRatio with
  | None => (None, None)
  | Some rr =>
      match p_pair pr, refFrac with
      | Some (n, d), Some (rfn, rfd) =>
          let num := (n * rfd)%Z in
          let den := (d * rfn)%Z in
          let '(rn, rd) := reduceFraction num den in
          let rDist := IZR rn / IZR rd in
          let k := Math_floor (log2 rDist) in
          let rDist := rDist / Math_pow 2 (IZR k) in
          (Some [Chars (string_of_Z rn ++ "/" ++ string_of_Z rd)], Some (toCents rDist))
      | _, _ =>
          let rDist := p_ratio pr / rr in
          let k := Math_floor (log2 rDist) in
          let rDist := rDist / Math_pow 2 (IZR k) in
          let distCents := toCents rDist in
          (Some ([Chars "2^( "] ++ toFixed (Num distCents) 1 ++ [Chars "/1200 )"]),
           Some distCents)
      end
  end.

(** The variables of the loop over the targets. *)
Record CmpState := mkCmpState {
  out : list Row;
  firstSysRatio : option R; firstFrac : option (Z * Z);
  prevSysRatio : option R; prevFrac : option (Z * Z);
  caches : Caches }.

Section Comparador.

Variables (a4 fFund : R) (sys : System) (w3Positions : list R)
          (realOct : bool) (distMode : DistMode).

(** One iteration of [for (const t of list)].  A target whose frequency is
    an infinity gives a row of NaN, which the model does not compute: the
    result is then [None].  The octave [oct] is the floor of the exact
    logarithm; the program takes the floor of a quotient of two rounded
    logarithms, which for a frequency within rounding of a whole number of
    octaves from the fundamental can fall on either side of the integer. *)
Definition rows_step (st : CmpState) (t : string) : option CmpState :=
  let parsed := parseNoteOrHz t a4 in
  if falsy (freq parsed) then Some st (* continue *) else
  match freq parsed with
  | Some (Num f) =>
      let ratioAbs := f / fFund in
      (* Reducir a [1,2) *)
      let oct := Math_floor (log2 ratioAbs) in
      let ratioRed := ratioAbs / Math_pow 2 (IZR oct) in
      let centsEI := toCents ratioRed in
      let '(pr, c') := project sys w3Positions ratioRed centsEI (caches st) in
      let sysHzBase := fFund * p_ratio pr in
      let sysHz := if realOct then sysHzBase * Math_pow 2 (IZR oct) else sysHzBase in
      let dev := signedDelta (p_cents pr) centsEI in
      let '(refRatio, refFrac) :=
        match distMode with
        | Previous => (prevSysRatio st, prevFrac st)
        | First => (firstSysRatio st, firstFrac st)
        end in
      let '(distFrac, distCents) := distance pr refRatio refFrac in
      let row :=
        {| target := if text_empty (label parsed) then [Chars t] else label parsed;
           hzTarget := f; centsEI := centsEI; ratioRed := ratioRed;
           sysName := p_name pr; sysFrac := p_frac pr; sysCents := p_cents pr;
           sysHz := sysHz; dev := dev;
           distFrac := distFrac; distCents := distCents |} in
      let '(fr, ff) :=
        match firstSysRatio st with
        | None => (Some (p_ratio pr), p_pair pr)
        | Some _ => (firstSysRatio st, firstFrac st)
        end in
      Some {| out := out st ++ [row];
              firstSysRatio := fr; firstFrac := ff;
              prevSysRatio := Some (p_ratio pr); prevFrac := p_pair pr;
              caches := c' |}
  | _ => None
  end.

Definition rows_init (c : Caches) : CmpState :=
  {| out := []; firstSysRatio := None; firstFrac := None;
     prevSysRatio := None; prevFrac := None; caches := c |}.

(** The loop over the targets from the state [st]. *)
Fixpoint rows_loop (targets : list string) (st : CmpState) : option CmpState :=
  match targets with
  | [] => Some st
  | t :: targets' =>
      match rows_step st t with
      | Some st' => rows_loop targets' st'
      | None => None
      end
  end.

(** The rows of the comparator for the list of targets, from the caches
    [c]; the caches after the batch come with them. *)
Definition rows (targets : list string) (c : Caches) : option (list Row * Caches) :=
  match rows_loop targets (rows_init c) with
  | Some st => Some (out st, caches st)
  | None => None
  end.

End Comparador.

(** [parseNoteOrHz(fund, a4).freq ?? 440]. *)
Definition fundamental (fund : string) (a4 : R) : number :=
  match freq (parseNoteOrHz fund a4) with
  | Some f => f
  | None => Num 440
  end.

(** ** Notions used in the statements *)

(** The double remainder [((x % m) + m) % m]. *)
Definition pmod (x m : R) : R := rem (rem x m + m) m.

(** Rounding to the nearest integer, a tie going away from zero. *)
Definition round_half_away_from_zero (x : R) : Z :=
  if Rle_dec 0 x then Zfloor (x + 1 / 2) else Zceil (x - 1 / 2).

(** The folded distance of the Werckmeister matcher: [|target - position|],
    replaced by [1200 -] itself when it exceeds 600. *)
Definition folded (centsTarget position : R) : R :=
  let d := Rabs (centsTarget - position) in
  if Rlt_dec 600 d then 1200 - d else d.

(** The circular distance used by the Just and Pythagorean searches. *)
Definition circ (centsTarget candidate : R) : R :=
  Rabs (signedDelta centsTarget candidate).

(** The step of a search loop that keeps the first strict minimum: the
    candidate [a] replaces [best] when its error is below the bound that
    [best] carries. *)
Definition keep_first_min {A B : Type} (mk : A -> B) (err : A -> R)
    (bound : B -> option R) (best : B) (a : A) : B :=
  if below (err a) (bound best) then mk a else best.

(** The common shape of the three memoised functions. *)
Definition memo {V : Type} (search : R -> V) (centsTarget : R) (cache : gmap Z V)
  : V * gmap Z V :=
  let key := Math_round (centsTarget * 1000) in
  match cache !! key with
  | Some hit => (hit, cache)
  | None => (search centsTarget, <[key := search centsTarget]> cache)
  end.

(** Every entry of the cache satisfies [P] with its key. *)
Definition cache_sound {V : Type} (P : Z -> V -> Prop) (cache : gmap Z V) : Prop :=
  forall k v, cache !! k = Some v -> P k v.

(** The two irrational constants behind every table of the engine. *)
Definition L3 : R := log2 3.
Definition L5 : R := log2 5.

(** The sorted table in closed form. *)
Definition w3_table : list R :=
  [ 0; 9600 - 6000 * L3; 7800 - 4800 * L3; 6000 - 3600 * L3;
    15600 - 9600 * L3; 2400 - 1200 * L3; 12000 - 7200 * L3; 4500 - 2400 * L3;
    8400 - 4800 * L3; 12300 - 7200 * L3; 4800 - 2400 * L3; 14400 - 8400 * L3 ].

(** The residue of [x] modulo 1200 in [0, 1200). *)
Definition mod1200 (x : R) : R := x - 1200 * IZR (Zfloor (x / 1200)).

(** The [i]-th fifth of the Werckmeister III circle as the specification
    words it: the first four are narrowed by a quarter of the Pythagorean
    comma (twelve pure fifths less seven octaves), the others are pure. *)
Definition spec_fifth (i : nat) : R :=
  let pure := toCents (3 / 2) in
  let comma := 12 * pure - 7 * 1200 in
  if (i <? 4)%nat then pure - comma / 4 else pure.

(** The position reached after [i] fifths, modulo 1200. *)
Definition spec_position (i : nat) : R :=
  mod1200 (fold_right Rplus 0 (map spec_fifth (seq 0 i))).

Definition spec_positions : list R := map spec_position (seq 0 12).

(** The record that [nearestJust] builds for a table entry. *)
Definition just_result (j : JustEntry) : JustResult :=
  {| j_name := name j; j_frac := frac j; j_cents := just_cents j |}.

(** [j] is the first entry of the table, in table order, whose circular
    distance to [t] is least. *)
Definition first_nearest_just (t : R) (j : JustEntry) : Prop :=
  exists l1 l2,
    JUST_SET = l1 ++ j :: l2 /\
    Forall (fun y => circ t (just_cents j) < circ t (just_cents y)) l1 /\
    Forall (fun y => circ t (just_cents j) <= circ t (just_cents y)) l2.

(** The states of [_justCache]: empty when the module loads, then changed
    only by calls of [nearestJust]. *)
Inductive just_reachable : gmap Z JustResult -> Prop :=
| jr_empty : just_reachable ∅
| jr_call t c : just_reachable c -> just_reachable (snd (nearestJust t c)).

(** [sub] occurs in [s]. *)
Fixpoint contains (sub s : string) : bool :=
  if String.prefix sub s then true
  else match s with
       | EmptyString => false
       | String _ s' => contains sub s'
       end.

Definition just_mk (t : R) (j : JustEntry) : JustBest :=
  {| jb_name := name j; jb_frac := frac j; jb_cents := just_cents j;
     jb_err := circ t (just_cents j) |}.

(** Every cached entry is the search result of a target with that key. *)
Definition just_entry_ok (k : Z) (v : JustResult) : Prop :=
  exists t0, Math_round (t0 * 1000) = k /\ v = just_search t0.

(** A sequence of later calls [(target, positions)] on the cache. *)
Definition w3_calls (calls : list (R * list R)) (c : gmap Z W3Result) : gmap Z W3Result :=
  fold_left (fun c call => snd (nearestWerckmeister (fst call) (snd call) c)) calls c.

(** The error that the loop computes for a position from index 1 on. *)
Definition w3_err (t p : R) : R :=
  let err := Math_abs (p - t) in
  if ltb 600 err then 1200 - err else err.

Definition w3_mk (t : R) (positions : list R) (i : nat) : W3Best :=
  {| wb_idx := i; wb_cents := nth i positions 0; wb_err := w3_err t (nth i positions 0) |}.

(** The candidate for the exponent [b], as the loop computes it. *)
Definition pyth_a (b : Z) : Z := Math_floor (log2 (Math_pow 3 (IZR b))).
Definition pyth_ratio (b : Z) : R := Math_pow 3 (IZR b) / Math_pow 2 (IZR (pyth_a b)).
Definition pyth_cents (b : Z) : R := toCents (pyth_ratio b).

Definition pyth_mk (t : R) (b : Z) : PythBest :=
  {| pb_b := b; pb_a := pyth_a b; pb_cents := pmod (pyth_cents b) 1200;
     pb_ratio := pyth_ratio b; pb_err := Some (circ t (pmod (pyth_cents b) 1200)) |}.

(** What the search returns for the target [t]: the candidate of an
    exponent in [-11, 11], reduced into [1, 2), of least circular distance
    to [t], with its exact fraction in lowest terms. *)
Definition nearest_lattice_point (t : R) (res : PythResult) : Prop :=
  exists b : Z,
    (-11 <= b <= 11)%Z /\
    py_ratio res = pyth_ratio b /\
    1 <= py_ratio res < 2 /\
    py_cents res = toCents (py_ratio res) /\
    (forall b' : Z, (-11 <= b' <= 11)%Z ->
                    circ t (py_cents res) <= circ t (pyth_cents b')) /\
    exists n d : Z,
      py_fraction res = (string_of_Z n ++ "/" ++ string_of_Z d)%string /\
      (0 < n)%Z /\ (0 < d)%Z /\ Z.gcd n d = 1%Z /\ IZR n / IZR d = py_ratio res.

(** The states of [_pythCache]. *)
Inductive pyth_reachable : gmap Z PythResult -> Prop :=
| pr_empty : pyth_reachable ∅
| pr_call t c : pyth_reachable c -> pyth_reachable (snd (nearestPythagorean t c)).

Definition pyth_entry_ok (k : Z) (v : PythResult) : Prop :=
  exists t0, Math_round (t0 * 1000) = k /\ v = pyth_search t0.

(** [s] is a numeric literal of positive value, the infinity included. *)
Definition is_positive_number (s : string) : Prop :=
  exists v : numeric,
    parse_numeric (replace_comma (trim (list_ascii_of_string s))) = Some v /\
    match v with
    | Decimal m _ => (0 < m)%Z
    | Infinite neg => neg = false
    end.

(** [s] is the literal of the positive infinity. *)
Definition is_infinite_number (s : string) : Prop :=
  parse_numeric (replace_comma (trim (list_ascii_of_string s))) = Some (Infinite false).

(** None of the targets is the literal of the positive infinity. *)
Definition no_infinity (targets : list string) : Prop :=
  Forall (fun t => ~ is_infinite_number t) targets.

(** [s] is a note name: it matches the pattern and its letter with the
    accidental is a key of [NOTE_INDEX]. *)
Definition is_note_name (s : string) : Prop :=
  exists L acc octStr idx,
    match_note (trim (list_ascii_of_string s)) = Some (L, acc, octStr) /\
    lookup_name (string_of_list_ascii (toUpperCase L :: acc)) NOTE_INDEX = Some idx.

(** The frequency of the row that a target yields, if it yields one with
    a frequency that is a real. *)
Definition row_freq (a4 : R) (t : string) : option R :=
  match freq (parseNoteOrHz t a4) with
  | Some (Num f) => if Req_dec_T f 0 then None else Some f
  | _ => None
  end.

(** The target has a frequency that is a real, or none. *)
Definition finite_target (a4 : R) (t : string) : Prop :=
  match freq (parseNoteOrHz t a4) with
  | Some PosInf | Some NegInf => False
  | _ => True
  end.

(** The projection built from an entry of the Just table. *)
Definition just_projection (j : JustResult) : Projection :=
  {| p_ratio := IZR (fst (j_frac j)) / IZR (snd (j_frac j));
     p_cents := j_cents j;
     p_name := j_name j;
     p_frac := [Chars (string_of_Z (fst (j_frac j)) ++ "/" ++ string_of_Z (snd (j_frac j)))];
     p_pair := Some (j_frac j) |}.

(** ** Pruebas basicas *)

(** [x === y] on numbers. *)
Definition eqb_num (x y : R) : bool := if Req_dec_T x y then true else false.

(** [approx(a, b, t)] of the start-up tests: [Math.abs(a - b) <= t]. *)
Definition approx (a b t : R) : bool := negb (ltb t (Math_abs (a - b))).

(** The conditions of the [console.assert] calls that [App] runs once. *)
Definition app_assertions : list bool :=
  let tol := 0.8 in
  [ approx (toCents (3 / 2)) 701.955 tol;
    eqb_num (eq_cents (equalTempNearest 386.3)) 400;
    approx (signedDelta 1190 10) 20 tol;
    String.eqb (devColor 0) "text-emerald-300";
    String.eqb (devColor 10) "text-amber-300";
    String.eqb (devColor 25) "text-rose-300" ].

(** The condition of the [console.assert] call that [Comparador] runs once:
    E over D, both reduced over C, is about 10/9.  The three frequencies are
    used as they are parsed; the value is [None] if one of them is no real. *)
Definition comparador_assertion : option bool :=
  match freq (parseNoteOrHz "C4" 440), freq (parseNoteOrHz "E4" 440),
        freq (parseNoteOrHz "D4" 440) with
  | Some (Num f0), Some (Num e), Some (Num d) =>
      let rE := (e / f0) / Math_pow 2 (IZR (Math_floor (log2 (e / f0)))) in
      let rD := (d / f0) / Math_pow 2 (IZR (Math_floor (log2 (d / f0)))) in
      let rED := rE / rD in
      let k := Math_floor (log2 rED) in
      let red := rED / Math_pow 2 (IZR k) in
      Some (ltb (Math_abs (red - 10 / 9)) 0.02)
  | _, _, _ => None
  end.

(** ** Invariants of the comparator *)



(** The state of the comparator loop: with no row yet there is no
    reference; from the first row on both references are set, the first row
    has no distance and every later row has one. *)
Definition distances_from_second (st : CmpState) : Prop :=
  match out st with
  | [] => firstSysRatio st = None /\ prevSysRatio st = None
  | r :: rs =>
      (distFrac r = None /\ distCents r = None) /\
      Forall (fun r' => is_Some (distFrac r') /\ is_Some (distCents r')) rs /\
      is_Some (firstSysRatio st) /\ is_Some (prevSysRatio st)
  end.

(** ** Armonicos *)

(** [Math.log2]. *)
Definition Math_log2 (x : R) : R := ln x / ln 2.

(** [parsed.freq || 261.625565]: fallback C4. *)
Definition baseFreq (input : string) (a4 : R) : number :=
  let parsed := parseNoteOrHz input a4 in
  match freq parsed with
  | Some v => if falsy (Some v) then Num 261.625565 else v
  | None => Num 261.625565
  end.

(** [parsed.pc ?? 0]. *)
Definition basePc (input : string) (a4 : R) : Z :=
  match pc (parseNoteOrHz input a4) with
  | Some p => p
  | None => 0%Z
  end.

Record JustCol := mkJustCol { hj_ratio : string; hj_cents : R; hj_ratioVal : R }.

Record EqualCol := mkEqualCol {
  he_cents : R; he_ratioVal : R; he_freqBase : R; he_delta : R }.

Record PythCol := mkPythCol {
  hp_cents : R; hp_ratioVal : R; hp_freqBase : R; hp_delta : R; hp_fraction : string }.

Record W3Col := mkW3Col {
  hw_cents : R; hw_ratioVal : R; hw_freqBase : R; hw_delta : R }.

Record Harmonic := mkHarmonic {
  h_n : Z; harmonicHz : R;
  h_just : JustCol; h_equal : EqualCol; h_pyth : PythCol; h_w3 : W3Col }.

(** One iteration of [for (let n = 1; n <= Math.max(1, count); n++)]; the
    state is the rows pushed so far with the module-level caches. *)
Definition harmonic_step (baseFreq : R) (w3Positions : list R)
    (st : list Harmonic * Caches) (n : Z) : list Harmonic * Caches :=
  let '(rows, c) := st in
  let freqH := baseFreq * IZR n in
  (* Octava reducida: n / 2^k en [1,2) *)
  let k := Math_floor (Math_log2 (IZR n)) in
  let denom := Math_pow 2 (IZR k) in
  let numer := n in
  (* [denom] holds an integer, which [Math_round] reads *)
  let '(rn, rd) := reduceFraction numer (Math_round denom) in
  let ratioReduced := IZR rn / IZR rd in
  let centsJust := toCents ratioReduced in
  (* Igual / Pitagorico / W3 en octava base *)
  let eq := equalTempNearest centsJust in
  let '(pyth, pcache) := nearestPythagorean centsJust (pythCache c) in
  let '(w3, wcache) := nearestWerckmeister centsJust w3Positions (w3Cache c) in
  (rows ++
   [ {| h_n := n; harmonicHz := freqH;
        h_just := {| hj_ratio := formatRatio rn rd; hj_cents := centsJust;
                     hj_ratioVal := ratioReduced |};
        h_equal := {| he_cents := eq_cents eq; he_ratioVal := eq_ratio eq;
                      he_freqBase := baseFreq * eq_ratio eq;
                      he_delta := signedDelta centsJust (eq_cents eq) |};
        h_pyth := {| hp_cents := py_cents pyth; hp_ratioVal := py_ratio pyth;
                     hp_freqBase := baseFreq * py_ratio pyth;
                     hp_delta := signedDelta centsJust (py_cents pyth);
                     hp_fraction := py_fraction pyth |};
        h_w3 := {| hw_cents := w3_cents w3; hw_ratioVal := w3_ratio w3;
                   hw_freqBase := baseFreq * w3_ratio w3;
                   hw_delta := signedDelta centsJust (w3_cents w3) |} |} ],
   {| pythCache := pcache; w3Cache := wcache; justCache := justCache c |}).

(** The table of harmonics for an integer [count], from the caches [c]. *)
Definition harmonics (baseFreq : R) (count : Z) (w3Positions : list R) (c : Caches)
  : list Harmonic * Caches :=
  fold_left (harmonic_step baseFreq w3Positions) (seqZ 1 (Z.max 1 count)) ([], c).

(** [arr[i]] for an integer index; [None] is [undefined]. *)
Definition array_get {A : Type} (arr : list A) (i : Z) : option A :=
  if (i <? 0)%Z then None else nth_error arr (Z.to_nat i).

(** The note column of the export: [PC_NAMES[(pc + 12) % 12]] with
    [pc = (basePc + steps) % 12]. *)
Definition harmonic_note (basePcLocal : Z) (row : Harmonic) : option string :=
  let steps := Math_round (hj_cents (h_just row) / 100) in
  let pc := Z.rem (basePcLocal + steps) 12 in
  array_get PC_NAMES (Z.rem (pc + 12) 12).

(** The four frequencies of an exported row: [(jHz, eqHz, pHz, wHz)]. *)
Definition export_hz (realOctave : bool) (baseFreq : R) (row : Harmonic)
  : R * R * R * R :=
  let jHz := if realOctave then harmonicHz row else baseFreq * hj_ratioVal (h_just row) in
  let eqHz := if realOctave then harmonicHz row * fromCents (he_delta (h_equal row))
              else he_freqBase (h_equal row) in
  let pHz := if realOctave then harmonicHz row * fromCents (hp_delta (h_pyth row))
             else hp_freqBase (h_pyth row) in
  let wHz := if realOctave then harmonicHz row * fromCents (hw_delta (h_w3 row))
             else hw_freqBase (h_w3 row) in
  (jHz, eqHz, pHz, wHz).

(** The columns of the row of harmonic [n] that do not go through a cache:
    the reduced fraction of [n / 2^k] with its cents, and the equal-tempered
    projection. *)
Definition harmonic_fraction (n : Z) : Z * Z :=
  reduceFraction n (Math_round (Math_pow 2 (IZR (Math_floor (Math_log2 (IZR n)))))).

Definition harmonic_ratio (n : Z) : R :=
  IZR (fst (harmonic_fraction n)) / IZR (snd (harmonic_fraction n)).

Definition harmonic_just (n : Z) : JustCol :=
  {| hj_ratio := formatRatio (fst (harmonic_fraction n)) (snd (harmonic_fraction n));
     hj_cents := toCents (harmonic_ratio n);
     hj_ratioVal := harmonic_ratio n |}.

Definition harmonic_equal (baseFreq : R) (n : Z) : EqualCol :=
  let eq := equalTempNearest (toCents (harmonic_ratio n)) in
  {| he_cents := eq_cents eq; he_ratioVal := eq_ratio eq;
     he_freqBase := baseFreq * eq_ratio eq;
     he_delta := signedDelta (toCents (harmonic_ratio n)) (eq_cents eq) |}.

(** The matcher results that a row of the table holds, and the cache key of
    its Just cents. *)
Definition pyth_of_row (r : Harmonic) : PythResult :=
  {| py_cents := hp_cents (h_pyth r); py_ratio := hp_ratioVal (h_pyth r);
     py_fraction := hp_fraction (h_pyth r) |}.

Definition w3_of_row (r : Harmonic) : W3Result :=
  {| w3_cents := hw_cents (h_w3 r); w3_ratio := hw_ratioVal (h_w3 r) |}.

Definition cents_key (r : Harmonic) : Z := Math_round (hj_cents (h_just r) * 1000).

(** The state of the loop over the harmonics: each row so far is built from
    matcher results that the caches still hold under the key of its Just
    cents. *)
Definition rows_cached (baseFreq : R) (st : list Harmonic * Caches) : Prop :=
  Forall (fun r =>
            pythCache (snd st) !! cents_key r = Some (pyth_of_row r) /\
            w3Cache (snd st) !! cents_key r = Some (w3_of_row r) /\
            hp_freqBase (h_pyth r) = baseFreq * hp_ratioVal (h_pyth r) /\
            hp_delta (h_pyth r) = signedDelta (hj_cents (h_just r)) (hp_cents (h_pyth r)) /\
            hw_freqBase (h_w3 r) = baseFreq * hw_ratioVal (h_w3 r) /\
            hw_delta (h_w3 r) = signedDelta (hj_cents (h_just r)) (hw_cents (h_w3 r)))
         (fst st).

(** A later row with the Just cents of an earlier one repeats its
    Pythagorean and Werckmeister columns. *)
Definition rows_repeat (rows : list Harmonic) : Prop :=
  forall r r', In r rows -> In r' rows -> (h_n r < h_n r')%Z ->
               hj_cents (h_just r') = hj_cents (h_just r) ->
               h_pyth r' = h_pyth r /\ h_w3 r' = h_w3 r.

(** ** La lista de objetivos del comparador *)

(** The class of the pattern [/[\\,\\s]+/] as it is written: in the
    pattern source each [\\] is an escaped backslash, so the class holds the
    backslash (code 92), the comma and the letter s. *)
Definition is_separator (c : ascii) : bool :=
  (Ascii.eqb c (ascii_of_nat 92) || Ascii.eqb c "," || Ascii.eqb c "s")%bool.

(** [str.split(re)] for a pattern [[...]+] over a class: the pieces between
    the maximal runs of class characters, empty pieces at the ends
    included; [in_run] tells that the character before was in the class. *)
Fixpoint split_runs (sep : ascii -> bool) (s : list ascii) (in_run : bool)
  : list (list ascii) :=
  match s with
  | [] => [[]]
  | c :: s' =>
      if sep c then
        if in_run then split_runs sep s' true else [] :: split_runs sep s' true
      else
        match split_runs sep s' false with
        | w :: ws => (c :: w) :: ws
        | [] => [[c]]
        end
  end.

(** [Boolean(s)] for a string. *)
Definition nonempty (w : list ascii) : bool :=
  match w with
  | [] => false
  | _ :: _ => true
  end.

(** [targets.split(/[\\,\\s]+/).filter(Boolean)]. *)
Definition split_targets (targets : string) : list string :=
  map string_of_list_ascii
      (List.filter nonempty (split_runs is_separator (list_ascii_of_string targets) false)).

(** The rows of [Comparador] for its text fields and settings. *)
Definition comparador_rows (a4 : R) (fund targets : string) (sys : System)
    (realOct : bool) (distMode : DistMode) (c : Caches) : option (list Row * Caches) :=
  let w3Positions := werckmeisterIIIPositions in
  let list := split_targets targets in
  match fundamental fund a4 with
  | Num fFund => rows a4 fFund sys w3Positions realOct distMode list c
  | _ => None
  end.

(** No character of [s] is in the class of the pattern. *)
Definition no_separator (s : string) : Prop :=
  Forall (fun c => is_separator c = false) (list_ascii_of_string s).




(** ** Exportar CSV *)

(** The double quote (code 34) and the line feed (code 10). *)
Definition dquote : ascii := ascii_of_nat 34.
Definition newline : ascii := ascii_of_nat 10.

(** [s.replace(/<quote>/g, <two quotes>)]. *)
Fixpoint escape_quotes (s : list ascii) : list ascii :=
  match s with
  | [] => []
  | c :: s' =>
      if Ascii.eqb c dquote then dquote :: dquote :: escape_quotes s'
      else c :: escape_quotes s'
  end.

(** [arr.join(sep)]. *)
Fixpoint join (sep : list ascii) (l : list (list ascii)) : list ascii :=
  match l with
  | [] => []
  | x :: l' =>
      match l' with
      | [] => x
      | _ :: _ => x ++ sep ++ join sep l'
      end
  end.

(** A cell of the file: the escaped text between two quotes. *)
Definition csv_cell (x : list ascii) : list ascii :=
  dquote :: escape_quotes x ++ [dquote].

(** The text that [downloadCSV] puts in the file:
    [rows.map(r => r.map(cell).join(",")).join("\n")]. *)
Definition csv (rows : list (list (list ascii))) : list ascii :=
  join [newline] (map (fun r => join [","%char] (map csv_cell r)) rows).

(** A reader of quoted CSV: before a cell, inside a cell, and after a quote
    met inside a cell. *)
Inductive csv_state := CsvStart | CsvInside | CsvQuote.

Fixpoint csv_read (s : list ascii) (st : csv_state) (cell : list ascii)
    (row : list (list ascii)) (rows : list (list (list ascii)))
  : option (list (list (list ascii))) :=
  match s with
  | [] =>
      match st with
      | CsvQuote => Some (rows ++ [row ++ [cell]])
      | _ => None
      end
  | c :: s' =>
      match st with
      | CsvStart =>
          if Ascii.eqb c dquote then csv_read s' CsvInside [] row rows else None
      | CsvInside =>
          if Ascii.eqb c dquote then csv_read s' CsvQuote cell row rows
          else csv_read s' CsvInside (cell ++ [c]) row rows
      | CsvQuote =>
          if Ascii.eqb c dquote then csv_read s' CsvInside (cell ++ [dquote]) row rows
          else if Ascii.eqb c "," then csv_read s' CsvStart [] (row ++ [cell]) rows
          else if Ascii.eqb c newline then csv_read s' CsvStart [] [] (rows ++ [row ++ [cell]])
          else None
      end
  end.

(** ** Facts about the built-ins *)

Lemma ltb_true x y : ltb x y = true <-> x < y.
Proof. unfold ltb. destruct (Rlt_dec x y); split; intros; (congruence || lra). Qed.

Lemma ltb_false x y : ltb x y = false <-> y <= x.
Proof. unfold ltb. destruct (Rlt_dec x y); split; intros; (congruence || lra). Qed.

Lemma trunc_nonneg x : 0 <= x -> trunc x = Zfloor x.
Proof. intros H. unfold trunc. destruct (Rle_dec 0 x); [reflexivity | lra]. Qed.

Lemma trunc_neg x : x < 0 -> trunc x = Zceil x.
Proof. intros H. unfold trunc. destruct (Rle_dec 0 x); [lra | reflexivity]. Qed.

(** The remainder of a non-negative dividend by a positive modulus. *)
Lemma rem_nonneg x m (k : Z) :
  0 < m -> IZR k * m <= x < (IZR k + 1) * m -> 0 <= x -> rem x m = x - IZR k * m.
Proof.
  intros Hm [Hlo Hhi] Hx. unfold rem.
  assert (Hq : 0 <= x / m) by (apply Rmult_le_pos; [lra | left; apply Rinv_0_lt_compat; lra]).
  rewrite (trunc_nonneg _ Hq).
  assert (Hk : Zfloor (x / m) = k).
  { apply Zfloor_eq. split.
    - apply Rmult_le_reg_r with m; [lra|]. unfold Rdiv. rewrite Rmult_assoc, Rinv_l by lra. lra.
    - apply Rmult_lt_reg_r with m; [lra|]. unfold Rdiv. rewrite Rmult_assoc, Rinv_l by lra. lra. }
  rewrite Hk. lra.
Qed.

(** The remainder of a negative dividend: the quotient is rounded up. *)
Lemma rem_neg x m (k : Z) :
  0 < m -> (IZR k - 1) * m < x <= IZR k * m -> x < 0 -> rem x m = x - IZR k * m.
Proof.
  intros Hm [Hlo Hhi] Hx. unfold rem.
  assert (Hq : x / m < 0).
  { pose proof (Rinv_0_lt_compat m Hm). unfold Rdiv. nra. }
  rewrite (trunc_neg _ Hq).
  assert (Hk : Zceil (x / m) = k).
  { apply Zceil_eq. split.
    - apply Rmult_lt_reg_r with m; [lra|]. unfold Rdiv. rewrite Rmult_assoc, Rinv_l by lra. lra.
    - apply Rmult_le_reg_r with m; [lra|]. unfold Rdiv. rewrite Rmult_assoc, Rinv_l by lra. lra. }
  rewrite Hk. lra.
Qed.

(** The double remainder [((x % m) + m) % m] is the non-negative residue. *)
Lemma pmod_floor x m :
  0 < m -> pmod x m = x - IZR (Zfloor (x / m)) * m.
Proof.
  intros Hm. unfold pmod.
  set (q := Zfloor (x / m)).
  assert (Hq : IZR q * m <= x < (IZR q + 1) * m).
  { destruct (Zfloor_bound (x / m)) as [H1 H2]. fold q in H1, H2.
    assert (Hx : x = x / m * m) by (unfold Rdiv; rewrite Rmult_assoc, Rinv_l by lra; lra).
    assert (IZR q * m <= x / m * m) by (apply Rmult_le_compat_r; lra).
    assert (x / m * m < (IZR q + 1) * m) by (apply Rmult_lt_compat_r; lra).
    lra. }
  destruct (Rle_dec 0 x) as [Hx | Hx].
  - rewrite (rem_nonneg x m q) by (auto; lra).
    rewrite (rem_nonneg _ m 1) by lra. lra.
  - assert (Hx' : x < 0) by lra.
    destruct (Req_dec x (IZR q * m)) as [He | Hne].
    + rewrite (rem_neg x m q) by (auto; lra).
      rewrite (rem_nonneg _ m 1) by lra. lra.
    + rewrite (rem_neg x m (q + 1)) by (auto; rewrite plus_IZR; lra).
      rewrite plus_IZR.
      rewrite (rem_nonneg _ m 0) by lra. lra.
Qed.

Lemma pmod_range x m : 0 < m -> 0 <= pmod x m < m.
Proof.
  intros Hm. rewrite pmod_floor by assumption.
  destruct (Zfloor_bound (x / m)) as [H1 H2].
  assert (Hx : x = x / m * m) by (unfold Rdiv; rewrite Rmult_assoc, Rinv_l by lra; lra).
  split.
  - assert (IZR (Zfloor (x / m)) * m <= x / m * m) by (apply Rmult_le_compat_r; lra). lra.
  - assert (x / m * m < (IZR (Zfloor (x / m)) + 1) * m) by (apply Rmult_lt_compat_r; lra). lra.
Qed.

Lemma pmod_eq x m (k : Z) :
  0 < m -> IZR k * m <= x < IZR k * m + m -> pmod x m = x - IZR k * m.
Proof.
  intros Hm [H1 H2]. rewrite pmod_floor by assumption.
  replace (Zfloor (x / m)) with k; [reflexivity|].
  symmetry. apply Zfloor_eq. split.
  - apply Rmult_le_reg_r with m; [lra|]. unfold Rdiv. rewrite Rmult_assoc, Rinv_l by lra. lra.
  - apply Rmult_lt_reg_r with m; [lra|]. unfold Rdiv. rewrite Rmult_assoc, Rinv_l by lra. lra.
Qed.

Lemma signedDelta_pmod r t : signedDelta r t = pmod (t - r + 600) 1200 - 600.
Proof. reflexivity. Qed.

Lemma signedDelta_range r t : -600 <= signedDelta r t < 600.
Proof.
  rewrite signedDelta_pmod. pose proof (pmod_range (t - r + 600) 1200 ltac:(lra)). lra.
Qed.


(** ** Logarithms to base two *)

Lemma LOG2_pos : 0 < LOG2.
Proof. unfold LOG2, Math_log. pose proof ln_lt_2. lra. Qed.

Lemma log2_2 : log2 2 = 1.
Proof. pose proof LOG2_pos. unfold log2, LOG2, Math_log in *. field; lra. Qed.

Lemma log2_1 : log2 1 = 0.
Proof. unfold log2, Math_log. rewrite ln_1. unfold Rdiv. lra. Qed.

Lemma log2_mult x y : 0 < x -> 0 < y -> log2 (x * y) = log2 x + log2 y.
Proof.
  intros. pose proof LOG2_pos. unfold log2, LOG2, Math_log in *.
  rewrite ln_mult by assumption. field; lra.
Qed.

Lemma log2_inv x : 0 < x -> log2 (/ x) = - log2 x.
Proof.
  intros. pose proof LOG2_pos. unfold log2, LOG2, Math_log in *.
  rewrite ln_Rinv by assumption. field; lra.
Qed.

Lemma log2_div x y : 0 < x -> 0 < y -> log2 (x / y) = log2 x - log2 y.
Proof.
  intros. unfold Rdiv. rewrite log2_mult, log2_inv; auto using Rinv_0_lt_compat.
Qed.

Lemma log2_Rpower x y : log2 (Rpower x y) = y * log2 x.
Proof.
  pose proof LOG2_pos. unfold log2, LOG2, Math_log in *.
  rewrite ln_Rpower. field; lra.
Qed.

Lemma log2_pow2 y : log2 (Rpower 2 y) = y.
Proof. rewrite log2_Rpower, log2_2. lra. Qed.

Lemma log2_lt x y : 0 < x -> x < y -> log2 x < log2 y.
Proof.
  intros Hx Hxy. unfold log2, Math_log. pose proof LOG2_pos.
  apply Rmult_lt_compat_r; [apply Rinv_0_lt_compat; lra | apply ln_increasing; lra].
Qed.

Lemma log2_le x y : 0 < x -> x <= y -> log2 x <= log2 y.
Proof.
  intros Hx [Hxy | ->]; [left; apply log2_lt; assumption | right; reflexivity].
Qed.

Lemma toCents_log2 x : toCents x = 1200 * log2 x.
Proof. unfold toCents, log2. unfold Rdiv. lra. Qed.

Lemma Rpower_pos x y : 0 < Rpower x y.
Proof. unfold Rpower. apply exp_pos. Qed.

Lemma Rpower_IZR_nonneg (p : Z) (n : Z) :
  (0 < p)%Z -> (0 <= n)%Z -> Rpower (IZR p) (IZR n) = IZR (p ^ n).
Proof.
  intros Hp Hn. rewrite <- (Z2Nat.id n Hn) at 1.
  rewrite <- INR_IZR_INZ, Rpower_pow by (apply IZR_lt; assumption).
  rewrite pow_IZR, Z2Nat.id by assumption. reflexivity.
Qed.

(** Bounds on [log2 p] from a comparison of integer powers. *)
Lemma log2_lower (p a n : Z) :
  (0 < p)%Z -> (0 <= a)%Z -> (0 < n)%Z -> (2 ^ a < p ^ n)%Z -> IZR a / IZR n < log2 (IZR p).
Proof.
  intros Hp Ha Hn Hlt.
  assert (Hn' : 0 < IZR n) by (apply IZR_lt; assumption).
  apply Rmult_lt_reg_r with (IZR n); [assumption|].
  unfold Rdiv. rewrite Rmult_assoc, Rinv_l, Rmult_1_r by lra.
  rewrite <- (log2_pow2 (IZR a)), Rmult_comm, <- log2_Rpower.
  rewrite !Rpower_IZR_nonneg by lia.
  apply log2_lt; [apply IZR_lt; lia | apply IZR_lt; assumption].
Qed.

Lemma log2_upper (p a n : Z) :
  (0 < p)%Z -> (0 <= a)%Z -> (0 < n)%Z -> (p ^ n < 2 ^ a)%Z -> log2 (IZR p) < IZR a / IZR n.
Proof.
  intros Hp Ha Hn Hlt.
  assert (Hn' : 0 < IZR n) by (apply IZR_lt; assumption).
  apply Rmult_lt_reg_r with (IZR n); [assumption|].
  unfold Rdiv. rewrite Rmult_assoc, Rinv_l, Rmult_1_r by lra.
  rewrite <- (log2_pow2 (IZR a)), Rmult_comm, <- log2_Rpower.
  rewrite !Rpower_IZR_nonneg by lia.
  apply log2_lt; [apply IZR_lt; lia | apply IZR_lt; assumption].
Qed.

Lemma L3_bounds : 1054 / 665 < L3 < 485 / 306.
Proof.
  split.
  - apply (log2_lower 3 1054 665); [lia | lia | lia | reflexivity].
  - apply (log2_upper 3 485 306); [lia | lia | lia | reflexivity].
Qed.

Lemma L5_bounds : 339 / 146 < L5 < 1493 / 643.
Proof.
  split.
  - apply (log2_lower 5 339 146); [lia | lia | lia | reflexivity].
  - apply (log2_upper 5 1493 643); [lia | lia | lia | reflexivity].
Qed.

(** ** The Werckmeister III table *)

Lemma pureFifth_eq : pureFifth = 1200 * (L3 - 1).
Proof.
  unfold pureFifth. rewrite toCents_log2, log2_div, log2_2 by lra. reflexivity.
Qed.

Lemma pythComma_eq : pythComma = 1200 * (12 * L3 - 19).
Proof.
  unfold pythComma. change (1200 * Math_log (531441 / 524288) / LOG2) with (toCents (531441 / 524288)).
  rewrite toCents_log2, log2_div by lra.
  change 531441 with (IZR (3 ^ 12)). change 524288 with (IZR (2 ^ 19)).
  rewrite <- !Rpower_IZR_nonneg by lia. rewrite !log2_Rpower, log2_2. fold L3. lra.
Qed.

Lemma temperedFifth_eq : temperedFifth = 4500 - 2400 * L3.
Proof.
  unfold temperedFifth, quarterComma. rewrite pureFifth_eq, pythComma_eq. lra.
Qed.

Ltac w3_arith :=
  pose proof L3_bounds; pose proof pureFifth_eq; pose proof temperedFifth_eq; lra.

Lemma w3_step_eval acc cents i s (k : Z) :
  nth i w3_sizes 0 = s -> 0 <= acc + s ->
  IZR k * 1200 <= acc + s < (IZR k + 1) * 1200 ->
  w3_step (acc, cents) i = (acc + s, cents ++ [acc + s - IZR k * 1200]).
Proof.
  intros Hs H0 Hk. unfold w3_step. rewrite Hs.
  rewrite (rem_nonneg _ 1200 k) by (auto; lra).
  assert (Hf : ltb (acc + s - IZR k * 1200) 0 = false) by (apply ltb_false; lra).
  rewrite Hf. reflexivity.
Qed.

Lemma sort_insert_nil x : sort_insert x [] = [x].
Proof. reflexivity. Qed.

Lemma sort_insert_after x y l : y < x -> sort_insert x (y :: l) = y :: sort_insert x l.
Proof.
  intros H. simpl. assert (Hb : ltb 0 (x - y) = true) by (apply ltb_true; lra).
  rewrite Hb. reflexivity.
Qed.

Lemma sort_insert_before x y l : x <= y -> sort_insert x (y :: l) = x :: y :: l.
Proof.
  intros H. simpl. assert (Hb : ltb 0 (x - y) = false) by (apply ltb_false; lra).
  rewrite Hb. reflexivity.
Qed.

Lemma cons_eq {A} (a b : A) (l l' : list A) : a = b -> l = l' -> a :: l = b :: l'.
Proof. intros -> ->. reflexivity. Qed.

Lemma w3_unfolded :
  fold_left w3_step (seq 0 11) (0, [0]) =
  (4 * temperedFifth + 7 * pureFifth,
   [ 0; 4500 - 2400 * L3; 7800 - 4800 * L3; 12300 - 7200 * L3; 15600 - 9600 * L3;
     14400 - 8400 * L3; 12000 - 7200 * L3; 9600 - 6000 * L3; 8400 - 4800 * L3;
     6000 - 3600 * L3; 4800 - 2400 * L3; 2400 - 1200 * L3 ]).
Proof.
  change (seq 0 11) with [0; 1; 2; 3; 4; 5; 6; 7; 8; 9; 10]%nat.
  cbn [fold_left].
  rewrite (w3_step_eval 0 _ 0 temperedFifth 0) by (try reflexivity; w3_arith).
  rewrite (w3_step_eval _ _ 1 temperedFifth 1) by (try reflexivity; w3_arith).
  rewrite (w3_step_eval _ _ 2 temperedFifth 1) by (try reflexivity; w3_arith).
  rewrite (w3_step_eval _ _ 3 temperedFifth 2) by (try reflexivity; w3_arith).
  rewrite (w3_step_eval _ _ 4 pureFifth 2) by (try reflexivity; w3_arith).
  rewrite (w3_step_eval _ _ 5 pureFifth 3) by (try reflexivity; w3_arith).
  rewrite (w3_step_eval _ _ 6 pureFifth 4) by (try reflexivity; w3_arith).
  rewrite (w3_step_eval _ _ 7 pureFifth 4) by (try reflexivity; w3_arith).
  rewrite (w3_step_eval _ _ 8 pureFifth 5) by (try reflexivity; w3_arith).
  rewrite (w3_step_eval _ _ 9 pureFifth 5) by (try reflexivity; w3_arith).
  rewrite (w3_step_eval _ _ 10 pureFifth 6) by (try reflexivity; w3_arith).
  cbn [app].
  apply f_equal2; [lra|].
  repeat (apply cons_eq; [w3_arith|]). reflexivity.
Qed.

Lemma w3_positions_table : werckmeisterIIIPositions = w3_table.
Proof.
  unfold werckmeisterIIIPositions. rewrite w3_unfolded.
  cbn [map].
  rewrite !(rem_nonneg _ 1200 1) by w3_arith.
  unfold sort_numeric. cbn [fold_right].
  repeat first
    [ rewrite sort_insert_nil
    | rewrite sort_insert_before by w3_arith
    | rewrite sort_insert_after by w3_arith ].
  unfold w3_table. repeat (apply cons_eq; [lra|]). reflexivity.
Qed.

(** ** Search loops that keep the first strict minimum *)

Section FirstMin.

Context {A B : Type}.
Variables (mk : A -> B) (err : A -> R) (bound : B -> option R).
Hypothesis bound_mk : forall a, bound (mk a) = Some (err a).

Local Abbreviation step := (keep_first_min mk err bound).

(** When [x] is the first element of least error and beats the initial
    bound, the loop ends on it. *)
Lemma first_min_intro l1 x l2 init :
  below (err x) (bound init) = true ->
  Forall (fun y => err x < err y) l1 ->
  Forall (fun y => err x <= err y) l2 ->
  fold_left step (l1 ++ x :: l2) init = mk x.
Proof.
  intros Hx H1 H2. revert init Hx.
  induction H1 as [| y l1 Hy H1 IH]; intros init Hx; cbn [app fold_left].
  - assert (Hs : step init x = mk x) by (unfold keep_first_min; rewrite Hx; reflexivity).
    rewrite Hs. clear Hs Hx.
    induction H2 as [| y l2 Hy H2 IH]; [reflexivity|].
    cbn [fold_left].
    assert (Hs : step (mk x) y = mk x).
    { unfold keep_first_min. rewrite bound_mk. cbn [below].
      assert (Hb : ltb (err y) (err x) = false) by (apply ltb_false; lra).
      rewrite Hb. reflexivity. }
    rewrite Hs. exact IH.
  - apply IH. unfold keep_first_min.
    destruct (below (err y) (bound init)) eqn:Hb; [|assumption].
    rewrite bound_mk. cbn [below]. apply ltb_true. assumption.
Qed.

(** Whatever the list, the loop either keeps the initial value, which no
    element beats, or ends on the first element of least error. *)
Lemma first_min_elim l init :
  (fold_left step l init = init /\
   Forall (fun y => below (err y) (bound init) = false) l) \/
  (exists l1 x l2,
      l = l1 ++ x :: l2 /\ fold_left step l init = mk x /\
      below (err x) (bound init) = true /\
      Forall (fun y => err x < err y) l1 /\
      Forall (fun y => err x <= err y) l2).
Proof.
  revert init. induction l as [| a l IH]; intros init; cbn [fold_left].
  - left. split; [reflexivity | constructor].
  - destruct (below (err a) (bound init)) eqn:Ha.
    + assert (Hs : step init a = mk a) by (unfold keep_first_min; rewrite Ha; reflexivity).
      rewrite Hs. clear Hs.
      right. destruct (IH (mk a)) as [[Hr Hall] | (l1 & x & l2 & -> & Hr & Hx & H1 & H2)].
      * exists [], a, l.
        split; [reflexivity|]. split; [assumption|]. split; [assumption|].
        split; [constructor|].
        rewrite bound_mk in Hall. cbn [below] in Hall.
        eapply Forall_impl; [exact Hall|]. cbn. intros y Hy. apply ltb_false in Hy. exact Hy.
      * rewrite bound_mk in Hx. cbn [below] in Hx. apply ltb_true in Hx.
        exists (a :: l1), x, l2.
        split; [reflexivity|]. split; [assumption|].
        split; [|split; [constructor; assumption | assumption]].
        destruct (bound init) as [e|]; [|reflexivity].
        cbn [below] in *. apply ltb_true in Ha. apply ltb_true. lra.
    + assert (Hs : step init a = init) by (unfold keep_first_min; rewrite Ha; reflexivity).
      rewrite Hs. clear Hs.
      destruct (IH init) as [[Hr Hall] | (l1 & x & l2 & -> & Hr & Hx & H1 & H2)].
      * left. split; [assumption | constructor; assumption].
      * right. exists (a :: l1), x, l2.
        split; [reflexivity|]. split; [assumption|]. split; [assumption|].
        split; [|assumption].
        constructor; [|assumption].
        destruct (bound init) as [e|]; [|discriminate].
        cbn [below] in *. apply ltb_true in Hx. apply ltb_false in Ha. lra.
Qed.

End FirstMin.

(** ** Memoisation by the rounded target *)

Section Memo.

Context {V : Type}.

Lemma cache_sound_empty (P : Z -> V -> Prop) : cache_sound P ∅.
Proof. intros k v H. rewrite lookup_empty in H. discriminate. Qed.

Lemma memo_sound (P : Z -> V -> Prop) (search : R -> V) t cache :
  cache_sound P cache -> P (Math_round (t * 1000)) (search t) ->
  cache_sound P (snd (memo search t cache)) /\
  P (Math_round (t * 1000)) (fst (memo search t cache)).
Proof.
  intros Hc Hp. unfold memo.
  destruct (cache !! Math_round (t * 1000)) as [hit|] eqn:Hk; cbn [fst snd].
  - split; [assumption | apply Hc; assumption].
  - split; [|assumption].
    intros k v Hkv. destruct (decide (Math_round (t * 1000) = k)) as [<- | Hne].
    + rewrite lookup_insert_eq in Hkv. injection Hkv as <-. assumption.
    + rewrite lookup_insert_ne in Hkv by assumption. apply Hc. assumption.
Qed.

Lemma memo_miss (search : R -> V) t cache :
  cache !! Math_round (t * 1000) = None ->
  memo search t cache = (search t, <[Math_round (t * 1000) := search t]> cache).
Proof. intros H. unfold memo. rewrite H. reflexivity. Qed.

Lemma memo_hit (search : R -> V) t cache v :
  cache !! Math_round (t * 1000) = Some v -> memo search t cache = (v, cache).
Proof. intros H. unfold memo. rewrite H. reflexivity. Qed.

(** After a call the key is bound to the value that the call returned. *)
Lemma memo_binds (search : R -> V) t cache :
  snd (memo search t cache) !! Math_round (t * 1000) = Some (fst (memo search t cache)).
Proof.
  unfold memo. destruct (cache !! Math_round (t * 1000)) eqn:Hk; cbn [fst snd].
  - assumption.
  - apply lookup_insert_eq.
Qed.

(** A call never changes an entry that is already there. *)
Lemma memo_keeps (search : R -> V) t cache k v :
  cache !! k = Some v -> snd (memo search t cache) !! k = Some v.
Proof.
  intros H. unfold memo. destruct (cache !! Math_round (t * 1000)) eqn:Hk; cbn [snd].
  - assumption.
  - rewrite lookup_insert_ne; [assumption|]. intros <-. congruence.
Qed.

End Memo.

Lemma nearestJust_memo : nearestJust = memo just_search.
Proof. reflexivity. Qed.

Lemma nearestPythagorean_memo : nearestPythagorean = memo pyth_search.
Proof. reflexivity. Qed.

Lemma nearestWerckmeister_memo t positions :
  nearestWerckmeister t positions = memo (fun t => w3_search t positions) t.
Proof. reflexivity. Qed.

(** ** Notions of the specification *)

Lemma mod1200_eq x (k : Z) :
  IZR k * 1200 <= x < IZR k * 1200 + 1200 -> mod1200 x = x - IZR k * 1200.
Proof.
  intros H. unfold mod1200. rewrite <- (pmod_eq x 1200 k) by (auto; lra).
  rewrite pmod_floor by lra. lra.
Qed.

Lemma sort_insert_perm x l : Permutation (sort_insert x l) (x :: l).
Proof.
  induction l as [| y l IH]; cbn [sort_insert]; [reflexivity|].
  destruct (ltb 0 (x - y)); [|reflexivity].
  rewrite IH. apply perm_swap.
Qed.

Lemma sort_numeric_perm l : Permutation (sort_numeric l) l.
Proof.
  induction l as [| x l IH]; cbn; [reflexivity|].
  rewrite sort_insert_perm. constructor. exact IH.
Qed.

Lemma spec_positions_eq :
  spec_positions =
  [ 0; 4500 - 2400 * L3; 7800 - 4800 * L3; 12300 - 7200 * L3; 15600 - 9600 * L3;
    14400 - 8400 * L3; 12000 - 7200 * L3; 9600 - 6000 * L3; 8400 - 4800 * L3;
    6000 - 3600 * L3; 4800 - 2400 * L3; 2400 - 1200 * L3 ].
Proof.
  unfold spec_positions. change (seq 0 12) with [0; 1; 2; 3; 4; 5; 6; 7; 8; 9; 10; 11]%nat.
  cbn [map]. unfold spec_position. cbn [seq map fold_right].
  unfold spec_fifth. cbn [Nat.ltb Nat.leb]. fold pureFifth.
  pose proof L3_bounds. pose proof pureFifth_eq.
  apply cons_eq; [rewrite (mod1200_eq _ 0); lra|].
  apply cons_eq; [rewrite (mod1200_eq _ 0); lra|].
  apply cons_eq; [rewrite (mod1200_eq _ 1); lra|].
  apply cons_eq; [rewrite (mod1200_eq _ 1); lra|].
  apply cons_eq; [rewrite (mod1200_eq _ 2); lra|].
  apply cons_eq; [rewrite (mod1200_eq _ 2); lra|].
  apply cons_eq; [rewrite (mod1200_eq _ 3); lra|].
  apply cons_eq; [rewrite (mod1200_eq _ 4); lra|].
  apply cons_eq; [rewrite (mod1200_eq _ 4); lra|].
  apply cons_eq; [rewrite (mod1200_eq _ 5); lra|].
  apply cons_eq; [rewrite (mod1200_eq _ 5); lra|].
  apply cons_eq; [rewrite (mod1200_eq _ 6); lra|].
  reflexivity.
Qed.

(** C1: [signedDelta r t] differs from [t - r] by a whole number of octaves
    (multiples of 1200), lies in the half-open range [-600, 600), and is
    [-600] whenever the raw difference is congruent to 600 modulo 1200. *)
Theorem signedDelta_spec (r t : R) :
  (exists k : Z, signedDelta r t = (t - r) + 1200 * IZR k) /\
  -600 <= signedDelta r t < 600 /\
  (forall k : Z, t - r = 600 + 1200 * IZR k -> signedDelta r t = -600).
Proof.
  rewrite signedDelta_pmod. split; [|split].
  - exists (- Zfloor ((t - r + 600) / 1200))%Z.
    rewrite pmod_floor by lra. rewrite opp_IZR. lra.
  - rewrite <- signedDelta_pmod. apply signedDelta_range.
  - intros k Hk. rewrite (pmod_eq _ _ (k + 1)) by (try rewrite plus_IZR; lra).
    rewrite plus_IZR. lra.
Qed.

(** C5: the Werckmeister III list has exactly 12 values, is sorted in
    ascending order, starts at 0, has every value in [0, 1200), and holds
    exactly the positions reached by walking eleven fifths from 0 modulo
    1200, the first four fifths narrowed by a quarter of the Pythagorean
    comma and the others pure. *)
Theorem werckmeisterIIIPositions_spec :
  List.length werckmeisterIIIPositions = 12%nat /\
  StronglySorted Rle werckmeisterIIIPositions /\
  nth_error werckmeisterIIIPositions 0 = Some 0 /\
  Forall (fun x => 0 <= x < 1200) werckmeisterIIIPositions /\
  Permutation werckmeisterIIIPositions spec_positions.
Proof.
  split; [|split; [|split; [|split]]].
  - rewrite w3_positions_table. reflexivity.
  - rewrite w3_positions_table. unfold w3_table. pose proof L3_bounds.
    repeat (constructor; [|repeat (constructor; [lra|]); constructor]).
    constructor.
  - rewrite w3_positions_table. reflexivity.
  - rewrite w3_positions_table. unfold w3_table. pose proof L3_bounds.
    repeat (constructor; [lra|]). constructor.
  - unfold werckmeisterIIIPositions. rewrite w3_unfolded, spec_positions_eq.
    rewrite sort_numeric_perm. cbn [map].
    rewrite !(rem_nonneg _ 1200 1) by w3_arith.
    match goal with |- Permutation ?a ?b => replace a with b; [reflexivity|] end.
    repeat (apply cons_eq; [lra|]). reflexivity.
Qed.

(** ** Equal temperament *)

Lemma Math_round_eq x (n : Z) : IZR n - 1 / 2 <= x < IZR n + 1 / 2 -> Math_round x = n.
Proof. intros H. unfold Math_round. apply Zfloor_eq. lra. Qed.

Lemma Math_round_bound x : IZR (Math_round x) - 1 / 2 <= x < IZR (Math_round x) + 1 / 2.
Proof. unfold Math_round. pose proof (Zfloor_bound (x + 1 / 2)). lra. Qed.

Lemma Math_round_IZR (n : Z) : Math_round (IZR n) = n.
Proof. apply Math_round_eq. lra. Qed.

(** At a negative tie [Math.round] and rounding half away from zero part:
    [equalTempNearest(-150)] is [-100], not [-200]. *)
Lemma equalTempNearest_negative_tie :
  eq_cents (equalTempNearest (-150)) = -100 /\
  IZR (round_half_away_from_zero (-150 / 100)) * 100 = -200 /\
  eq_cents (equalTempNearest (-150)) <> IZR (round_half_away_from_zero (-150 / 100)) * 100.
Proof.
  assert (H1 : eq_cents (equalTempNearest (-150)) = -100).
  { unfold equalTempNearest. cbn [eq_cents].
    rewrite (Math_round_eq _ (-1)) by lra. lra. }
  assert (H2 : IZR (round_half_away_from_zero (-150 / 100)) * 100 = -200).
  { unfold round_half_away_from_zero.
    destruct (Rle_dec 0 (-150 / 100)); [lra|].
    rewrite (Zceil_eq (-2)) by lra. lra. }
  split; [assumption | split; [assumption | lra]].
Qed.

(** C4: [equalTempNearest] returns 100 times the integer nearest
    to [target / 100], a tie going to the larger integer (round half towards
    plus infinity); that integer is the one of round-half-away-from-zero
    unless the target is negative and exactly on a tie, where it is one more;
    the ratio is [fromCents] of the cents and the step count is that integer;
    [equalTempNearest(386.3).cents] is 400. *)
Theorem equalTempNearest_spec (centsJust : R) :
  let res := equalTempNearest centsJust in
  let n := eq_steps res in
  eq_cents res = 100 * IZR n /\
  IZR n - 1 / 2 <= centsJust / 100 < IZR n + 1 / 2 /\
  (n = round_half_away_from_zero (centsJust / 100) \/
   (centsJust < 0 /\ centsJust / 100 = IZR n - 1 / 2 /\
    n = (round_half_away_from_zero (centsJust / 100) + 1)%Z)) /\
  eq_ratio res = fromCents (eq_cents res) /\
  eq_cents (equalTempNearest 386.3) = 400.
Proof.
  cbn zeta. unfold equalTempNearest at 1 2 3 4 5 6 7 8. cbn [eq_cents eq_ratio eq_steps].
  set (x := centsJust / 100).
  pose proof (Math_round_bound x) as Hb.
  split; [lra|]. split; [exact Hb|]. split; [|split; [reflexivity|]].
  - unfold round_half_away_from_zero.
    destruct (Rle_dec 0 x) as [Hx | Hx]; [left; reflexivity|].
    destruct (Req_dec x (IZR (Math_round x) - 1 / 2)) as [Htie | Hnt].
    + right. split; [unfold x in Hx; lra|]. split; [assumption|].
      rewrite (Zceil_eq (Math_round x - 1)); [lia|].
      rewrite minus_IZR. lra.
    + left. symmetry. apply Zceil_eq. lra.
  - unfold equalTempNearest. cbn [eq_cents].
    rewrite (Math_round_eq _ 4) by lra. lra.
Qed.

(** ** The Just table in terms of [L3] and [L5] *)

Lemma log2_smooth (a b c : Z) :
  (0 <= a)%Z -> (0 <= b)%Z -> (0 <= c)%Z ->
  log2 (IZR (2 ^ a * 3 ^ b * 5 ^ c)) = IZR a + IZR b * L3 + IZR c * L5.
Proof.
  intros Ha Hb Hc. rewrite !mult_IZR.
  assert (0 < IZR (2 ^ a)) by (apply IZR_lt; lia).
  assert (0 < IZR (3 ^ b)) by (apply IZR_lt; lia).
  assert (0 < IZR (5 ^ c)) by (apply IZR_lt; lia).
  rewrite !log2_mult by (try apply Rmult_lt_0_compat; assumption).
  rewrite <- !Rpower_IZR_nonneg by lia.
  rewrite !log2_Rpower, log2_2. fold L3 L5. lra.
Qed.

Lemma just_cents_smooth nm (n d a b c a' b' c' : Z) :
  (0 <= a)%Z -> (0 <= b)%Z -> (0 <= c)%Z -> (0 <= a')%Z -> (0 <= b')%Z -> (0 <= c')%Z ->
  n = (2 ^ a * 3 ^ b * 5 ^ c)%Z -> d = (2 ^ a' * 3 ^ b' * 5 ^ c')%Z ->
  just_cents (mkJust nm (n, d)) =
  1200 * (IZR (a - a') + IZR (b - b') * L3 + IZR (c - c') * L5).
Proof.
  intros Ha Hb Hc Ha' Hb' Hc' -> ->. unfold just_cents. cbn [frac fst snd].
  rewrite toCents_log2, log2_div by (apply IZR_lt; lia).
  rewrite !log2_smooth by assumption. rewrite !minus_IZR. lra.
Qed.

Lemma jc_1_1 nm : just_cents (mkJust nm (1, 1)%Z) = 0.
Proof. rewrite (just_cents_smooth nm 1 1 0 0 0 0 0 0) by (lia || reflexivity). rewrite !minus_IZR. lra. Qed.
Lemma jc_16_15 nm : just_cents (mkJust nm (16, 15)%Z) = 1200 * (4 - L3 - L5).
Proof. rewrite (just_cents_smooth nm 16 15 4 0 0 0 1 1) by (lia || reflexivity). rewrite !minus_IZR. lra. Qed.
Lemma jc_10_9 nm : just_cents (mkJust nm (10, 9)%Z) = 1200 * (1 + L5 - 2 * L3).
Proof. rewrite (just_cents_smooth nm 10 9 1 0 1 0 2 0) by (lia || reflexivity). rewrite !minus_IZR. lra. Qed.
Lemma jc_9_8 nm : just_cents (mkJust nm (9, 8)%Z) = 1200 * (2 * L3 - 3).
Proof. rewrite (just_cents_smooth nm 9 8 0 2 0 3 0 0) by (lia || reflexivity). rewrite !minus_IZR. lra. Qed.
Lemma jc_6_5 nm : just_cents (mkJust nm (6, 5)%Z) = 1200 * (1 + L3 - L5).
Proof. rewrite (just_cents_smooth nm 6 5 1 1 0 0 0 1) by (lia || reflexivity). rewrite !minus_IZR. lra. Qed.
Lemma jc_5_4 nm : just_cents (mkJust nm (5, 4)%Z) = 1200 * (L5 - 2).
Proof. rewrite (just_cents_smooth nm 5 4 0 0 1 2 0 0) by (lia || reflexivity). rewrite !minus_IZR. lra. Qed.
Lemma jc_4_3 nm : just_cents (mkJust nm (4, 3)%Z) = 1200 * (2 - L3).
Proof. rewrite (just_cents_smooth nm 4 3 2 0 0 0 1 0) by (lia || reflexivity). rewrite !minus_IZR. lra. Qed.
Lemma jc_45_32 nm : just_cents (mkJust nm (45, 32)%Z) = 1200 * (2 * L3 + L5 - 5).
Proof. rewrite (just_cents_smooth nm 45 32 0 2 1 5 0 0) by (lia || reflexivity). rewrite !minus_IZR. lra. Qed.
Lemma jc_3_2 nm : just_cents (mkJust nm (3, 2)%Z) = 1200 * (L3 - 1).
Proof. rewrite (just_cents_smooth nm 3 2 0 1 0 1 0 0) by (lia || reflexivity). rewrite !minus_IZR. lra. Qed.
Lemma jc_8_5 nm : just_cents (mkJust nm (8, 5)%Z) = 1200 * (3 - L5).
Proof. rewrite (just_cents_smooth nm 8 5 3 0 0 0 0 1) by (lia || reflexivity). rewrite !minus_IZR. lra. Qed.
Lemma jc_5_3 nm : just_cents (mkJust nm (5, 3)%Z) = 1200 * (L5 - L3).
Proof. rewrite (just_cents_smooth nm 5 3 0 0 1 0 1 0) by (lia || reflexivity). rewrite !minus_IZR. lra. Qed.
Lemma jc_16_9 nm : just_cents (mkJust nm (16, 9)%Z) = 1200 * (4 - 2 * L3).
Proof. rewrite (just_cents_smooth nm 16 9 4 0 0 0 2 0) by (lia || reflexivity). rewrite !minus_IZR. lra. Qed.
Lemma jc_15_8 nm : just_cents (mkJust nm (15, 8)%Z) = 1200 * (L3 + L5 - 3).
Proof. rewrite (just_cents_smooth nm 15 8 0 1 1 3 0 0) by (lia || reflexivity). rewrite !minus_IZR. lra. Qed.

Create Rewrite HintDb just_table.
#[local] Hint Rewrite jc_1_1 jc_16_15 jc_10_9 jc_9_8 jc_6_5 jc_5_4 jc_4_3
  jc_45_32 jc_3_2 jc_8_5 jc_5_3 jc_16_9 jc_15_8 : just_table.

(** The circular distance once the octave offset is known. *)
Lemma circ_eq t c (j : Z) :
  -600 <= c - t - 1200 * IZR j < 600 -> circ t c = Rabs (c - t - 1200 * IZR j).
Proof.
  intros H. unfold circ. rewrite signedDelta_pmod.
  rewrite (pmod_eq _ 1200 j) by lra. f_equal. lra.
Qed.

Lemma circ_range t c : 0 <= circ t c <= 600.
Proof.
  unfold circ. pose proof (signedDelta_range t c) as H.
  unfold Rabs. destruct (Rcase_abs _); lra.
Qed.

(** ** The Just matcher *)

Lemma just_best_fold t l init :
  fold_left (just_step t) l init =
  fold_left (keep_first_min (just_mk t) (fun j => circ t (just_cents j))
                            (fun b => Some (jb_err b))) l init.
Proof. reflexivity. Qed.

Lemma just_search_intro t l1 x l2 :
  JUST_SET = l1 ++ x :: l2 ->
  Forall (fun y => circ t (just_cents x) < circ t (just_cents y)) l1 ->
  Forall (fun y => circ t (just_cents x) <= circ t (just_cents y)) l2 ->
  just_search t = just_result x.
Proof.
  intros Hl H1 H2. unfold just_search, just_best. rewrite Hl, just_best_fold.
  rewrite (first_min_intro (just_mk t) (fun j => circ t (just_cents j))
             (fun b => Some (jb_err b))); auto.
  cbn. apply ltb_true. pose proof (circ_range t (just_cents x)). lra.
Qed.

Lemma just_search_elim t : exists j, first_nearest_just t j /\ just_search t = just_result j.
Proof.
  unfold just_search, just_best. rewrite just_best_fold.
  destruct (first_min_elim (just_mk t) (fun j => circ t (just_cents j))
              (fun b => Some (jb_err b)) (fun _ => eq_refl) JUST_SET just_init)
    as [[_ Hall] | (l1 & x & l2 & Hl & Hr & _ & H1 & H2)].
  - exfalso. unfold JUST_SET in Hall. apply Forall_cons in Hall as [H _].
    cbn in H. apply ltb_false in H.
    pose proof (circ_range t (just_cents (mkJust "1/1 (unísono)" (1, 1)%Z))). lra.
  - exists x. split; [exists l1, l2; auto|]. rewrite Hr. reflexivity.
Qed.

Lemma just_reachable_sound c : just_reachable c -> cache_sound just_entry_ok c.
Proof.
  induction 1 as [| t c _ IH]; [apply cache_sound_empty|].
  rewrite nearestJust_memo. apply memo_sound; [assumption|].
  exists t. split; reflexivity.
Qed.

Lemma nearestJust_some_target t c :
  just_reachable c ->
  exists t0, Math_round (t0 * 1000) = Math_round (t * 1000) /\
             fst (nearestJust t c) = just_search t0.
Proof.
  intros Hc. rewrite nearestJust_memo.
  apply (memo_sound just_entry_ok just_search t c); [apply just_reachable_sound; assumption|].
  exists t. split; reflexivity.
Qed.

Lemma key_bucket t (k : Z) :
  Math_round (t * 1000) = k -> (IZR k - 1 / 2) / 1000 <= t < (IZR k + 1 / 2) / 1000.
Proof. intros <-. pose proof (Math_round_bound (t * 1000)). lra. Qed.

Ltac circ_norm :=
  repeat match goal with
    | |- context [circ ?t ?c] =>
        first [ rewrite (circ_eq t c 0) by lra
              | rewrite (circ_eq t c 1) by lra
              | rewrite (circ_eq t c (-1)) by lra ]
    end.

Ltac circ_cmp :=
  autorewrite with just_table; circ_norm;
  unfold Rabs; repeat destruct (Rcase_abs _); lra.

Ltac just_eval l1 x l2 :=
  apply (just_search_intro _ l1 x l2);
  [ reflexivity
  | repeat (constructor; [circ_cmp|]); constructor
  | repeat (constructor; [circ_cmp|]); constructor ].

Lemma just_search_near_386 t :
  385.9 <= t <= 386.1 -> just_search t = just_result (mkJust "5/4 (3M)" (5, 4)%Z).
Proof.
  intros Ht. pose proof L3_bounds. pose proof L5_bounds.
  just_eval
    [ mkJust "1/1 (unísono)" (1, 1)%Z; mkJust "16/15 (2m)" (16, 15)%Z; mkJust "10/9 (2m)" (10, 9)%Z; mkJust "9/8 (2M)" (9, 8)%Z; mkJust "6/5 (3m)" (6, 5)%Z ]
    (mkJust "5/4 (3M)" (5, 4)%Z)
    [ mkJust "4/3 (4J)" (4, 3)%Z; mkJust "45/32 (TT)" (45, 32)%Z; mkJust "3/2 (5J)" (3, 2)%Z; mkJust "8/5 (6m)" (8, 5)%Z; mkJust "5/3 (6M)" (5, 3)%Z; mkJust "16/9 (7m)" (16, 9)%Z; mkJust "15/8 (7M)" (15, 8)%Z ].
Qed.

Lemma just_search_near_400 t :
  399.9 <= t <= 400.1 -> just_search t = just_result (mkJust "5/4 (3M)" (5, 4)%Z).
Proof.
  intros Ht. pose proof L3_bounds. pose proof L5_bounds.
  just_eval
    [ mkJust "1/1 (unísono)" (1, 1)%Z; mkJust "16/15 (2m)" (16, 15)%Z; mkJust "10/9 (2m)" (10, 9)%Z; mkJust "9/8 (2M)" (9, 8)%Z; mkJust "6/5 (3m)" (6, 5)%Z ]
    (mkJust "5/4 (3M)" (5, 4)%Z)
    [ mkJust "4/3 (4J)" (4, 3)%Z; mkJust "45/32 (TT)" (45, 32)%Z; mkJust "3/2 (5J)" (3, 2)%Z; mkJust "8/5 (6m)" (8, 5)%Z; mkJust "5/3 (6M)" (5, 3)%Z; mkJust "16/9 (7m)" (16, 9)%Z; mkJust "15/8 (7M)" (15, 8)%Z ].
Qed.

Lemma just_search_near_200 t :
  199.9 <= t <= 200.1 -> just_search t = just_result (mkJust "9/8 (2M)" (9, 8)%Z).
Proof.
  intros Ht. pose proof L3_bounds. pose proof L5_bounds.
  just_eval
    [ mkJust "1/1 (unísono)" (1, 1)%Z; mkJust "16/15 (2m)" (16, 15)%Z; mkJust "10/9 (2m)" (10, 9)%Z ]
    (mkJust "9/8 (2M)" (9, 8)%Z)
    [ mkJust "6/5 (3m)" (6, 5)%Z; mkJust "5/4 (3M)" (5, 4)%Z; mkJust "4/3 (4J)" (4, 3)%Z; mkJust "45/32 (TT)" (45, 32)%Z; mkJust "3/2 (5J)" (3, 2)%Z; mkJust "8/5 (6m)" (8, 5)%Z; mkJust "5/3 (6M)" (5, 3)%Z; mkJust "16/9 (7m)" (16, 9)%Z; mkJust "15/8 (7M)" (15, 8)%Z ].
Qed.

Lemma L5_tight : 9297 / 4004 < L5 < 20087 / 8651.
Proof.
  split.
  - apply (log2_lower 5 9297 4004); [lia | lia | lia | vm_compute; reflexivity].
  - apply (log2_upper 5 20087 8651); [lia | lia | lia | vm_compute; reflexivity].
Qed.

Lemma just_search_below_boundary :
  just_search 193.1566 = just_result (mkJust "10/9 (2m)" (10, 9)%Z).
Proof.
  pose proof L3_bounds. pose proof L5_tight.
  just_eval
    [ mkJust "1/1 (unísono)" (1, 1)%Z; mkJust "16/15 (2m)" (16, 15)%Z ]
    (mkJust "10/9 (2m)" (10, 9)%Z)
    [ mkJust "9/8 (2M)" (9, 8)%Z; mkJust "6/5 (3m)" (6, 5)%Z; mkJust "5/4 (3M)" (5, 4)%Z; mkJust "4/3 (4J)" (4, 3)%Z; mkJust "45/32 (TT)" (45, 32)%Z; mkJust "3/2 (5J)" (3, 2)%Z; mkJust "8/5 (6m)" (8, 5)%Z; mkJust "5/3 (6M)" (5, 3)%Z; mkJust "16/9 (7m)" (16, 9)%Z; mkJust "15/8 (7M)" (15, 8)%Z ].
Qed.

(** Two targets of one millicent on either side of the boundary between
    10/9 and 9/8: the second call is answered from the cache with 10/9
    although 9/8 is strictly nearer to its target. *)
Lemma nearestJust_stale_hit :
  let c1 := snd (nearestJust 193.1566 ∅) in
  let r := fst (nearestJust 193.1574 c1) in
  r = just_result (mkJust "10/9 (2m)" (10, 9)%Z) /\
  In (mkJust "9/8 (2M)" (9, 8)%Z) JUST_SET /\
  circ 193.1574 (just_cents (mkJust "9/8 (2M)" (9, 8)%Z)) < circ 193.1574 (j_cents r).
Proof.
  cbn zeta. rewrite nearestJust_memo.
  assert (K1 : Math_round (193.1566 * 1000) = 193157%Z) by (apply Math_round_eq; lra).
  assert (K2 : Math_round (193.1574 * 1000) = 193157%Z) by (apply Math_round_eq; lra).
  rewrite (memo_miss just_search 193.1566 ∅) by (rewrite K1; apply lookup_empty).
  cbn [snd]. rewrite K1.
  rewrite (memo_hit just_search 193.1574 _ (just_search 193.1566))
    by (rewrite K2; apply lookup_insert_eq).
  cbn [fst]. rewrite just_search_below_boundary.
  split; [reflexivity|]. split; [unfold JUST_SET; cbn; tauto|].
  cbn [just_result j_cents name frac].
  pose proof L3_bounds. pose proof L5_tight. circ_cmp.
Qed.

(** C6: the table has 13 entries; in every state of the cache,
    a call whose rounded target is not yet cached returns the entry of least
    circular distance to the target, the earliest such entry in table order;
    every call returns that entry for some target with the same rounded
    millicent key; and the lookup of 386 returns an entry whose label
    contains "5/4". *)
Theorem nearestJust_spec (t : R) (c : gmap Z JustResult) :
  just_reachable c ->
  List.length JUST_SET = 13%nat /\
  (c !! Math_round (t * 1000) = None ->
   exists j, first_nearest_just t j /\ fst (nearestJust t c) = just_result j) /\
  (exists t0 j, Math_round (t0 * 1000) = Math_round (t * 1000) /\
                first_nearest_just t0 j /\ fst (nearestJust t c) = just_result j) /\
  contains "5/4" (j_name (fst (nearestJust 386 c))) = true.
Proof.
  intros Hc. split; [reflexivity|]. split; [|split].
  - intros Hmiss. rewrite nearestJust_memo, memo_miss by assumption. cbn [fst].
    apply just_search_elim.
  - destruct (nearestJust_some_target t c Hc) as (t0 & Hk & Hr).
    destruct (just_search_elim t0) as (j & Hj & Hs).
    exists t0, j. split; [assumption|]. split; [assumption|]. congruence.
  - destruct (nearestJust_some_target 386 c Hc) as (t0 & Hk & ->).
    assert (K : Math_round (386 * 1000) = 386000%Z) by (apply Math_round_eq; lra).
    rewrite K in Hk. apply key_bucket in Hk.
    rewrite just_search_near_386 by lra. reflexivity.
Qed.

Lemma nearestJust_spec_witness :
  exists j, first_nearest_just 386 j /\ fst (nearestJust 386 ∅) = just_result j.
Proof.
  destruct (nearestJust_spec 386 ∅ jr_empty) as (_ & H & _).
  apply H. apply lookup_empty.
Defined.

(** ** The Werckmeister cache *)

Lemma w3_calls_keep calls c k v :
  c !! k = Some v -> w3_calls calls c !! k = Some v.
Proof.
  revert c. induction calls as [| [t P] calls IH]; intros c H; cbn; [assumption|].
  apply IH. rewrite nearestWerckmeister_memo. apply memo_keeps. assumption.
Qed.

(** C10: the cache of [nearestWerckmeister] is keyed by the rounded target
    alone.  After a call with [(t, P1)], and whatever calls come in between,
    a call with [(t', P2)] whose target rounds to the same key returns the
    result of the first call, whatever [P2] is; that result is the search
    over [P1] when the first call missed the cache. *)
Theorem nearestWerckmeister_cache_key
    (t : R) (P1 : list R) (c : gmap Z W3Result)
    (calls : list (R * list R)) (t' : R) (P2 : list R) :
  Math_round (t' * 1000) = Math_round (t * 1000) ->
  let r1 := fst (nearestWerckmeister t P1 c) in
  let c1 := snd (nearestWerckmeister t P1 c) in
  fst (nearestWerckmeister t' P2 (w3_calls calls c1)) = r1 /\
  (c !! Math_round (t * 1000) = None -> r1 = w3_search t P1).
Proof.
  intros Hk. cbn zeta. split.
  - rewrite (nearestWerckmeister_memo t' P2).
    erewrite memo_hit; [reflexivity|].
    rewrite Hk. apply w3_calls_keep.
    rewrite nearestWerckmeister_memo. apply memo_binds.
  - intros Hmiss. rewrite nearestWerckmeister_memo, memo_miss by assumption. reflexivity.
Qed.

Lemma nearestWerckmeister_cache_key_witness :
  fst (nearestWerckmeister 100 [0; 50]
         (w3_calls [(700, [0; 650])]
            (snd (nearestWerckmeister 100 werckmeisterIIIPositions ∅)))) =
  w3_search 100 werckmeisterIIIPositions.
Proof.
  destruct (nearestWerckmeister_cache_key 100 werckmeisterIIIPositions ∅
              [(700, [0; 650])] 100 [0; 50] eq_refl) as [H1 H2].
  rewrite H1. apply H2. apply lookup_empty.
Defined.

(** ** The Werckmeister matcher *)

Lemma w3_best_fold t positions l init :
  fold_left (w3_match_step t positions) l init =
  fold_left (keep_first_min (w3_mk t positions) (fun i => w3_err t (nth i positions 0))
                            (fun b => Some (wb_err b))) l init.
Proof. reflexivity. Qed.

Lemma w3_err_folded t p : w3_err t p = folded t p.
Proof.
  unfold w3_err, folded, Math_abs, ltb. rewrite (Rabs_minus_sym p t).
  destruct (Rlt_dec 600 (Rabs (t - p))); reflexivity.
Qed.

Ltac real_cases :=
  repeat match goal with
    | |- context [Rcase_abs ?x] => destruct (Rcase_abs x)
    | |- context [Rlt_dec ?a ?b] => destruct (Rlt_dec a b)
    end; try lra.

Lemma w3_search_1195 :
  w3_search 1195 werckmeisterIIIPositions =
  {| w3_cents := 9600 - 6000 * L3; w3_ratio := fromCents (9600 - 6000 * L3) |}.
Proof.
  rewrite w3_positions_table. unfold w3_search, w3_best.
  change (seq 1 (List.length w3_table - 1))
    with ([] ++ 1%nat :: [2; 3; 4; 5; 6; 7; 8; 9; 10; 11]%nat).
  rewrite w3_best_fold.
  rewrite (first_min_intro (w3_mk 1195 w3_table) (fun i => w3_err 1195 (nth i w3_table 0))
             (fun b => Some (wb_err b))).
  - reflexivity.
  - reflexivity.
  - pose proof L3_bounds. cbn [below wb_err nth w3_table].
    apply ltb_true. unfold w3_err, Math_abs, ltb, Rabs. real_cases.
  - constructor.
  - pose proof L3_bounds.
    repeat (constructor;
            [cbn [nth w3_table]; unfold w3_err, Math_abs, ltb, Rabs; real_cases|]).
    constructor.
Qed.

Lemma L31_bounds : 540 / 109 < log2 31 < 649 / 131.
Proof.
  split.
  - apply (log2_lower 31 540 109); [lia | lia | lia | reflexivity].
  - apply (log2_upper 31 649 131); [lia | lia | lia | reflexivity].
Qed.

(** The reduced cents of the 31st harmonic, [31/16]. *)
Lemma harmonic_31_cents : 1144.9 < toCents (31 / 16) < 1145.1.
Proof.
  rewrite toCents_log2, log2_div by lra.
  change 16 with (IZR (2 ^ 4)). rewrite <- (Rpower_IZR_nonneg 2 4) by lia.
  change (IZR 2) with 2. rewrite log2_pow2.
  pose proof L31_bounds. lra.
Qed.

Lemma w3_search_harmonic_31 :
  w3_search (toCents (31 / 16)) werckmeisterIIIPositions =
  {| w3_cents := 14400 - 8400 * L3; w3_ratio := fromCents (14400 - 8400 * L3) |}.
Proof.
  pose proof harmonic_31_cents as Ht. set (t := toCents (31 / 16)) in *.
  rewrite w3_positions_table. unfold w3_search, w3_best.
  change (seq 1 (List.length w3_table - 1))
    with ([1; 2; 3; 4; 5; 6; 7; 8; 9; 10]%nat ++ 11%nat :: []).
  rewrite w3_best_fold.
  rewrite (first_min_intro (w3_mk t w3_table) (fun i => w3_err t (nth i w3_table 0))
             (fun b => Some (wb_err b))).
  - reflexivity.
  - reflexivity.
  - pose proof L3_bounds. cbn [below wb_err nth w3_table].
    apply ltb_true. unfold w3_err, Math_abs, ltb, Rabs. real_cases.
  - pose proof L3_bounds.
    repeat (constructor;
            [cbn [nth w3_table]; unfold w3_err, Math_abs, ltb, Rabs; real_cases|]).
    constructor.
  - constructor.
Qed.

(** C2, at the targets 1195 and [toCents(31/16)] (the 31st harmonic): the
    list holds the position 0, whose folded distance to 1195 is 5, but the
    matcher returns the position near 90.2, whose folded distance is above
    95; for the 31st harmonic it returns the position near 1086.3 although
    the position 0 is nearer across the octave.  The first position is
    compared without folding, so the origin is never reached from above. *)
Theorem nearestWerckmeister_misses_origin :
  let res := fst (nearestWerckmeister 1195 werckmeisterIIIPositions ∅) in
  let t31 := toCents (31 / 16) in
  let res31 := fst (nearestWerckmeister t31 werckmeisterIIIPositions ∅) in
  In 0 werckmeisterIIIPositions /\
  (folded 1195 0 = 5 /\
   w3_cents res = 9600 - 6000 * L3 /\
   95 < folded 1195 (w3_cents res) /\
   folded 1195 0 < folded 1195 (w3_cents res)) /\
  (w3_cents res31 = 14400 - 8400 * L3 /\
   folded t31 0 < folded t31 (w3_cents res31)).
Proof.
  cbn zeta. rewrite !nearestWerckmeister_memo, !memo_miss by apply lookup_empty.
  cbn [fst]. rewrite w3_search_1195, w3_search_harmonic_31. cbn [w3_cents].
  pose proof L3_bounds. pose proof harmonic_31_cents.
  assert (H5 : folded 1195 0 = 5) by (unfold folded, Rabs; real_cases).
  assert (H95 : 95 < folded 1195 (9600 - 6000 * L3)) by (unfold folded, Rabs; real_cases).
  split; [rewrite w3_positions_table; left; reflexivity|].
  split; [split; [assumption|]; split; [reflexivity|]; split; [assumption | lra]|].
  split; [reflexivity|]. unfold folded, Rabs. real_cases.
Qed.

(** ** Fractions *)

Lemma gcd_loop_gcd (a b : Z) : (0 <= a)%Z -> (0 <= b)%Z -> gcd_loop a b = Z.gcd a b.
Proof.
  funelim (gcd_loop a b); intros Ha Hb.
  - subst. rewrite Z.gcd_0_r, Z.abs_eq by assumption. reflexivity.
  - match goal with IH : _ -> _ -> gcd_loop _ _ = _ |- _ => rewrite IH end.
    + rewrite Z.rem_mod_nonneg by lia. rewrite Z.gcd_mod_r. apply Z.gcd_comm.
    + assumption.
    + apply Z.rem_nonneg; lia.
Qed.

Lemma gcdInt_gcd (a b : Z) : gcdInt a b = if (Z.gcd a b =? 0)%Z then 1%Z else Z.gcd a b.
Proof.
  unfold gcdInt. rewrite gcd_loop_gcd by apply Z.abs_nonneg.
  rewrite Z.gcd_abs_l, Z.gcd_abs_r. reflexivity.
Qed.

Lemma reduceFraction_coprime (n d : Z) : Z.gcd n d = 1%Z -> reduceFraction n d = (n, d).
Proof.
  intros H. unfold reduceFraction. rewrite gcdInt_gcd, H. cbn [Z.eqb].
  rewrite !Z.div_1_r. reflexivity.
Qed.

Lemma formatRatio_eq (n d : Z) :
  formatRatio n d = (string_of_Z n ++ "/" ++ string_of_Z d)%string.
Proof.
  unfold formatRatio. destruct (d =? 1)%Z eqn:H; [|reflexivity].
  apply Z.eqb_eq in H. subst. reflexivity.
Qed.

Lemma gcd_pow3_pow2 (m n : Z) : (0 <= m)%Z -> (0 <= n)%Z -> Z.gcd (3 ^ m) (2 ^ n) = 1%Z.
Proof.
  intros Hm Hn. apply Z.coprime_pow_l; [assumption|].
  apply Z.coprime_pow_r; [assumption|]. reflexivity.
Qed.

(** ** The Pythagorean lattice *)

Lemma pyth_best_fold t l init :
  fold_left (pyth_step t) l init =
  fold_left (keep_first_min (pyth_mk t) (fun b => circ t (pmod (pyth_cents b) 1200))
                            pb_err) l init.
Proof. reflexivity. Qed.

Lemma pyth_a_floor b : pyth_a b = Zfloor (IZR b * L3).
Proof. unfold pyth_a, Math_floor, Math_pow. rewrite log2_Rpower. reflexivity. Qed.

Lemma pyth_a_eq b (k : Z) : IZR k <= IZR b * L3 < IZR k + 1 -> pyth_a b = k.
Proof. intros H. rewrite pyth_a_floor. apply Zfloor_eq. assumption. Qed.

Lemma Rpower2_log2 x : 0 < x -> Rpower 2 (log2 x) = x.
Proof.
  intros Hx. unfold Rpower, log2, Math_log, LOG2, Math_log.
  pose proof LOG2_pos as H. unfold LOG2, Math_log in H.
  replace (ln x / ln 2 * ln 2) with (ln x) by (field; lra).
  apply exp_ln. assumption.
Qed.

Lemma log2_pyth_ratio b : log2 (pyth_ratio b) = IZR b * L3 - IZR (pyth_a b).
Proof.
  unfold pyth_ratio, Math_pow. rewrite log2_div by apply Rpower_pos.
  rewrite !log2_Rpower, log2_2. fold L3. lra.
Qed.

Lemma pyth_ratio_pos b : 0 < pyth_ratio b.
Proof.
  unfold pyth_ratio, Math_pow. apply Rmult_lt_0_compat;
    [apply Rpower_pos | apply Rinv_0_lt_compat, Rpower_pos].
Qed.

Lemma pyth_log2_range b : 0 <= log2 (pyth_ratio b) < 1.
Proof.
  rewrite log2_pyth_ratio, pyth_a_floor.
  pose proof (Zfloor_bound (IZR b * L3)). lra.
Qed.

(** The reduced ratio lies in [1, 2). *)
Lemma pyth_ratio_range b : 1 <= pyth_ratio b < 2.
Proof.
  pose proof (pyth_log2_range b) as [H0 H1].
  rewrite <- (Rpower2_log2 (pyth_ratio b)) by apply pyth_ratio_pos.
  split.
  - rewrite <- (Rpower_O 2) at 1 by lra. apply Rle_Rpower; lra.
  - rewrite <- (Rpower_1 2) at 2 by lra. apply Rpower_lt; lra.
Qed.

Lemma pyth_cents_range b : 0 <= pyth_cents b < 1200.
Proof.
  unfold pyth_cents. rewrite toCents_log2.
  pose proof (pyth_log2_range b). lra.
Qed.

Lemma pyth_cents_pmod b : pmod (pyth_cents b) 1200 = pyth_cents b.
Proof.
  pose proof (pyth_cents_range b). rewrite (pmod_eq _ 1200 0) by lra. lra.
Qed.

Lemma pyth_cents_eq b (k : Z) :
  IZR k <= IZR b * L3 < IZR k + 1 -> pyth_cents b = 1200 * (IZR b * L3 - IZR k).
Proof.
  intros H. unfold pyth_cents. rewrite toCents_log2, log2_pyth_ratio.
  rewrite (pyth_a_eq b k H). reflexivity.
Qed.

Lemma pyth_a_sign b : ((0 <=? b) = (0 <=? pyth_a b))%Z.
Proof.
  pose proof L3_bounds as HL. rewrite pyth_a_floor.
  pose proof (Zfloor_bound (IZR b * L3)) as Hf.
  destruct (0 <=? b)%Z eqn:Hb; symmetry.
  - apply Z.leb_le. apply Z.leb_le in Hb. apply Zfloor_lub.
    apply IZR_le in Hb. nra.
  - apply Z.leb_gt. apply Z.leb_gt in Hb. apply lt_IZR.
    apply IZR_lt in Hb. nra.
Qed.

(** The fraction string of a candidate: positive coprime parts whose
    quotient is the reduced ratio. *)
Lemma pyth_fraction_mk t b :
  exists n d : Z,
    pyth_fraction (pyth_mk t b) = (string_of_Z n ++ "/" ++ string_of_Z d)%string /\
    (0 < n)%Z /\ (0 < d)%Z /\ Z.gcd n d = 1%Z /\
    IZR n / IZR d = pyth_ratio b /\
    (n, d) = (if (0 <=? b)%Z then (3 ^ b, 2 ^ pyth_a b) else (2 ^ (- pyth_a b), 3 ^ (- b)))%Z.
Proof.
  unfold pyth_fraction. cbn [pyth_mk pb_b pb_a].
  pose proof (pyth_a_sign b) as Hs.
  destruct (0 <=? b)%Z eqn:Hb; rewrite <- Hs.
  - apply Z.leb_le in Hb. symmetry in Hs. apply Z.leb_le in Hs.
    cbn [andb]. unfold Math_pow.
    change 3 with (IZR 3). change 2 with (IZR 2).
    rewrite !Rpower_IZR_nonneg, !Math_round_IZR by lia.
    rewrite reduceFraction_coprime by (apply gcd_pow3_pow2; assumption).
    rewrite formatRatio_eq.
    exists (3 ^ b)%Z, (2 ^ pyth_a b)%Z.
    split; [reflexivity|]. split; [lia|]. split; [lia|].
    split; [apply gcd_pow3_pow2; assumption|]. split; [|reflexivity].
    unfold pyth_ratio, Math_pow. change 3 with (IZR 3). change 2 with (IZR 2).
    rewrite !Rpower_IZR_nonneg by lia. reflexivity.
  - apply Z.leb_gt in Hb. symmetry in Hs. apply Z.leb_gt in Hs.
    assert (Hb' : (b <? 0)%Z = true) by (apply Z.ltb_lt; assumption).
    rewrite Hb'. cbn [andb]. unfold Math_pow.
    rewrite <- !opp_IZR. change 3 with (IZR 3). change 2 with (IZR 2).
    rewrite !Rpower_IZR_nonneg, !Math_round_IZR by lia.
    assert (Hg : Z.gcd (2 ^ (- pyth_a b)) (3 ^ (- b)) = 1%Z)
      by (rewrite Z.gcd_comm; apply gcd_pow3_pow2; lia).
    rewrite reduceFraction_coprime by assumption.
    rewrite formatRatio_eq.
    exists (2 ^ (- pyth_a b))%Z, (3 ^ (- b))%Z.
    split; [reflexivity|]. split; [lia|]. split; [lia|].
    split; [assumption|]. split; [|reflexivity].
    unfold pyth_ratio, Math_pow.
    rewrite <- !Rpower_IZR_nonneg by lia. rewrite !opp_IZR, !Rpower_Ropp.
    change (IZR 2) with 2. change (IZR 3) with 3.
    pose proof (Rpower_pos 2 (IZR (pyth_a b))). pose proof (Rpower_pos 3 (IZR b)).
    field. split; lra.
Qed.

Lemma pyth_best_elim t :
  exists b, (-11 <= b <= 11)%Z /\ pyth_best t = pyth_mk t b /\
            forall b', (-11 <= b' <= 11)%Z -> circ t (pyth_cents b) <= circ t (pyth_cents b').
Proof.
  unfold pyth_best. rewrite pyth_best_fold.
  destruct (first_min_elim (pyth_mk t) (fun b => circ t (pmod (pyth_cents b) 1200))
              pb_err (fun _ => eq_refl) pyth_exponents pyth_init)
    as [[_ Hall] | (l1 & x & l2 & Hl & Hr & _ & H1 & H2)].
  - exfalso. unfold pyth_exponents in Hall.
    rewrite seqZ_cons in Hall by lia. apply Forall_cons in Hall as [H _].
    cbn in H. discriminate.
  - exists x. split; [|split; [exact Hr|]].
    + assert (Hin : x ∈ pyth_exponents)
        by (rewrite Hl; apply elem_of_app; right; apply elem_of_cons; left; reflexivity).
      apply elem_of_seqZ in Hin. lia.
    + intros b' Hb'. assert (Hin : b' ∈ pyth_exponents) by (apply elem_of_seqZ; lia).
      rewrite Hl in Hin. rewrite <- (pyth_cents_pmod x), <- (pyth_cents_pmod b').
      apply elem_of_app in Hin as [Hin | Hin].
      * rewrite Forall_forall in H1. left. apply H1. assumption.
      * apply elem_of_cons in Hin as [-> | Hin]; [right; reflexivity|].
        rewrite Forall_forall in H2. apply H2. assumption.
Qed.

Lemma pyth_search_nearest t : nearest_lattice_point t (pyth_search t).
Proof.
  destruct (pyth_best_elim t) as (b & Hb & Hbest & Hmin).
  destruct (pyth_fraction_mk t b) as (n & d & Hf & Hn & Hd & Hg & Hq & _).
  unfold pyth_search. rewrite Hbest. cbn [pyth_mk pb_cents pb_ratio py_cents py_ratio py_fraction].
  exists b. split; [assumption|]. split; [reflexivity|].
  split; [apply pyth_ratio_range|]. rewrite pyth_cents_pmod.
  split; [reflexivity|]. split; [assumption|].
  exists n, d. auto.
Qed.

Lemma pyth_best_intro t l1 x l2 :
  pyth_exponents = l1 ++ x :: l2 ->
  Forall (fun y => circ t (pmod (pyth_cents x) 1200) < circ t (pmod (pyth_cents y) 1200)) l1 ->
  Forall (fun y => circ t (pmod (pyth_cents x) 1200) <= circ t (pmod (pyth_cents y) 1200)) l2 ->
  pyth_best t = pyth_mk t x.
Proof.
  intros Hl H1 H2. unfold pyth_best. rewrite Hl, pyth_best_fold.
  apply (first_min_intro (pyth_mk t) (fun b => circ t (pmod (pyth_cents b) 1200)) pb_err);
    auto.
Qed.

Ltac pyth_table :=
  rewrite !pyth_cents_pmod;
  repeat match goal with
    | |- context [pyth_cents ?b] =>
        let k := eval vm_compute in ((b * 1584963) / 1000000)%Z in
        rewrite (pyth_cents_eq b k) by lra
    end.

Ltac pyth_cmp :=
  pyth_table; circ_norm; unfold Rabs; repeat destruct (Rcase_abs _); lra.

Ltac pyth_eval l1 x l2 :=
  apply (pyth_best_intro _ l1 x l2);
  [ reflexivity
  | repeat (constructor; [pyth_cmp|]); constructor
  | repeat (constructor; [pyth_cmp|]); constructor ].

Lemma pyth_best_near_fifth t :
  701.9 <= t <= 702 -> pyth_best t = pyth_mk t 1.
Proof.
  intros Ht. pose proof L3_bounds.
  pyth_eval [-11; -10; -9; -8; -7; -6; -5; -4; -3; -2; -1; 0]%Z 1%Z
            [2; 3; 4; 5; 6; 7; 8; 9; 10; 11]%Z.
Qed.

Lemma pyth_search_near_fifth t :
  701.9 <= t <= 702 -> py_fraction (pyth_search t) = "3/2"%string.
Proof.
  intros Ht. unfold pyth_search. cbn [py_fraction].
  rewrite pyth_best_near_fifth by assumption.
  destruct (pyth_fraction_mk t 1) as (n & d & -> & _ & _ & _ & _ & Hnd).
  cbn [Z.leb Z.compare] in Hnd.
  pose proof L3_bounds. rewrite (pyth_a_eq 1 1) in Hnd by lra.
  injection Hnd as -> ->. reflexivity.
Qed.

Lemma pyth_best_below_600 : pyth_best 599.9996 = pyth_mk 599.9996 (-6).
Proof.
  pose proof L3_bounds.
  pyth_eval [-11; -10; -9; -8; -7]%Z (-6)%Z
            [-5; -4; -3; -2; -1; 0; 1; 2; 3; 4; 5; 6; 7; 8; 9; 10; 11]%Z.
Qed.

Lemma pyth_search_below_600 :
  pyth_search 599.9996 =
  {| py_cents := pyth_cents (-6); py_ratio := pyth_ratio (-6); py_fraction := "1024/729" |}.
Proof.
  unfold pyth_search. rewrite pyth_best_below_600.
  destruct (pyth_fraction_mk 599.9996 (-6)) as (n & d & -> & _ & _ & _ & _ & Hnd).
  cbn [Z.leb Z.compare] in Hnd.
  pose proof L3_bounds. rewrite (pyth_a_eq (-6) (-10)) in Hnd by lra.
  injection Hnd as -> ->. cbn [pyth_mk pb_cents pb_ratio].
  rewrite pyth_cents_pmod. reflexivity.
Qed.

Lemma pyth_reachable_sound c : pyth_reachable c -> cache_sound pyth_entry_ok c.
Proof.
  induction 1 as [| t c _ IH]; [apply cache_sound_empty|].
  rewrite nearestPythagorean_memo. apply memo_sound; [assumption|].
  exists t. split; reflexivity.
Qed.

Lemma nearestPythagorean_some_target t c :
  pyth_reachable c ->
  exists t0, Math_round (t0 * 1000) = Math_round (t * 1000) /\
             fst (nearestPythagorean t c) = pyth_search t0.
Proof.
  intros Hc. rewrite nearestPythagorean_memo.
  apply (memo_sound pyth_entry_ok pyth_search t c); [apply pyth_reachable_sound; assumption|].
  exists t. split; reflexivity.
Qed.

(** The targets 599.9996 and 600.0004 share the key 600000 and lie on
    either side of 600, the boundary between the candidates of the exponents
    -6 and 6.  The first call stores 1024/729 (exponent -6); the later call at
    600.0004 gets it from the cache although 729/512 (exponent 6) is strictly
    nearer to its target. *)
Lemma nearestPythagorean_stale_hit :
  let c1 := snd (nearestPythagorean 599.9996 ∅) in
  let r := fst (nearestPythagorean 600.0004 c1) in
  py_fraction r = "1024/729"%string /\
  (-11 <= 6 <= 11)%Z /\
  circ 600.0004 (pyth_cents 6) < circ 600.0004 (py_cents r).
Proof.
  cbn zeta. rewrite nearestPythagorean_memo.
  assert (K1 : Math_round (599.9996 * 1000) = 600000%Z) by (apply Math_round_eq; lra).
  assert (K2 : Math_round (600.0004 * 1000) = 600000%Z) by (apply Math_round_eq; lra).
  rewrite (memo_miss pyth_search 599.9996 ∅) by (rewrite K1; apply lookup_empty).
  cbn [snd]. rewrite K1.
  rewrite (memo_hit pyth_search 600.0004 _ (pyth_search 599.9996))
    by (rewrite K2; apply lookup_insert_eq).
  cbn [fst]. rewrite pyth_search_below_600. cbn [py_fraction py_cents].
  split; [reflexivity|]. split; [lia|].
  pose proof L3_bounds.
  rewrite (pyth_cents_eq 6 9), (pyth_cents_eq (-6) (-10)) by lra.
  circ_norm. unfold Rabs. repeat destruct (Rcase_abs _); lra.
Qed.

(** C3: in every state of the cache, a call whose rounded target
    is not yet cached searches the exponents -11..11, reduces [3^b] into
    [1, 2) by [2^a] with [a = floor(log2(3^b))], and returns the candidate of
    least circular distance to the target together with its exact fraction,
    of positive coprime parts; every call returns such a result for some
    target with the same rounded millicent key; and the target 701.955
    yields the fraction "3/2". *)
Theorem nearestPythagorean_spec (t : R) (c : gmap Z PythResult) :
  pyth_reachable c ->
  (c !! Math_round (t * 1000) = None ->
   nearest_lattice_point t (fst (nearestPythagorean t c))) /\
  (exists t0, Math_round (t0 * 1000) = Math_round (t * 1000) /\
              nearest_lattice_point t0 (fst (nearestPythagorean t c))) /\
  py_fraction (fst (nearestPythagorean 701.955 c)) = "3/2"%string.
Proof.
  intros Hc. split; [|split].
  - intros Hmiss. rewrite nearestPythagorean_memo, memo_miss by assumption. cbn [fst].
    apply pyth_search_nearest.
  - destruct (nearestPythagorean_some_target t c Hc) as (t0 & Hk & ->).
    exists t0. split; [assumption | apply pyth_search_nearest].
  - destruct (nearestPythagorean_some_target 701.955 c Hc) as (t0 & Hk & ->).
    assert (K : Math_round (701.955 * 1000) = 701955%Z) by (apply Math_round_eq; lra).
    rewrite K in Hk. apply key_bucket in Hk.
    apply pyth_search_near_fifth. lra.
Qed.

Lemma nearestPythagorean_spec_witness :
  nearest_lattice_point 701.955 (fst (nearestPythagorean 701.955 ∅)).
Proof.
  destruct (nearestPythagorean_spec 701.955 ∅ pr_empty) as (H & _).
  apply H. apply lookup_empty.
Defined.

(** ** The pitch parser *)

Lemma powerRZ_10_pos e : 0 < powerRZ 10 e.
Proof. apply powerRZ_lt. lra. Qed.

Lemma Number_gt_zero s :
  gt_zero (Number s) = true <->
  exists v, parse_numeric s = Some v /\
            match v with
            | Decimal m _ => (0 < m)%Z
            | Infinite neg => neg = false
            end.
Proof.
  unfold Number. destruct (parse_numeric s) as [[m e|[|]]|]; cbn [gt_zero].
  - pose proof (powerRZ_10_pos e) as He. split.
    + intros Hx. apply ltb_true in Hx. exists (Decimal m e). split; [reflexivity|].
      apply lt_IZR. destruct (Rlt_dec 0 (IZR m)) as [|Hn]; [assumption|]. exfalso.
      assert (IZR m <= 0) by lra. nra.
    + intros (v & [= <-] & Hm). apply ltb_true. apply IZR_lt in Hm. nra.
  - split; [discriminate|]. intros (v & [= <-] & H). discriminate.
  - split; [|reflexivity]. intros _. exists (Infinite false). split; reflexivity.
  - split; [discriminate|]. intros (v & H & _). discriminate.
Qed.

Lemma gt_zero_not_NaN v : (negb (isNaN v) && gt_zero v)%bool = gt_zero v.
Proof. destruct v; reflexivity. Qed.

Lemma Number_infinite s : Number s = PosInf <-> parse_numeric s = Some (Infinite false).
Proof.
  unfold Number. destruct (parse_numeric s) as [[m e|[|]]|]; split; congruence.
Qed.

Lemma span_digits_spec s ds r :
  span_digits s = (ds, r) -> s = ds ++ r /\ Forall (fun c => is_digit c = true) ds.
Proof.
  revert ds r. induction s as [|c s IH]; intros ds r H; cbn [span_digits] in H.
  - injection H as <- <-. split; [reflexivity | constructor].
  - destruct (is_digit c) eqn:Hc.
    + destruct (span_digits s) as [ds' r'] eqn:E. injection H as <- <-.
      destruct (IH ds' r' eq_refl) as [-> Hd]. split; [reflexivity | constructor; assumption].
    + injection H as <- <-. split; [reflexivity | constructor].
Qed.

Lemma span_digits_digits ds :
  Forall (fun c => is_digit c = true) ds -> span_digits ds = (ds, []).
Proof.
  induction 1 as [|c ds Hc _ IH]; cbn [span_digits]; [reflexivity|].
  rewrite Hc, IH. reflexivity.
Qed.

Lemma digit_not_special c :
  is_digit c = true ->
  is_space c = false /\ Ascii.eqb c "-" = false /\ Ascii.eqb c "+" = false.
Proof.
  intros Hc. split; [|split].
  - unfold is_digit, is_space in *. apply andb_true_iff in Hc as [H1 H2].
    apply Nat.leb_le in H1. apply Nat.leb_le in H2.
    apply orb_false_iff. split; [|apply Nat.eqb_neq; lia].
    apply orb_false_iff. split; [apply Nat.eqb_neq; lia|].
    apply andb_false_iff. right. apply Nat.leb_gt. lia.
  - apply Ascii.eqb_neq. intros ->. discriminate.
  - apply Ascii.eqb_neq. intros ->. discriminate.
Qed.

(** [parseInt] succeeds on the third group of the note pattern. *)
Lemma parseInt_octave sign ds :
  (sign = [] \/ sign = ["-"%char]) -> ds <> [] ->
  Forall (fun c => is_digit c = true) ds ->
  exists z, parseInt (sign ++ ds) = Some z.
Proof.
  intros Hsign Hne Hd. destruct ds as [|c ds]; [congruence|].
  pose proof (Forall_inv Hd) as Hc.
  destruct (digit_not_special c Hc) as (Hsp & Hm & Hp).
  unfold parseInt. destruct Hsign as [-> | ->]; cbn [app trim_left].
  - rewrite Hsp. cbn [take_sign]. rewrite Hm, Hp. cbv beta iota zeta.
    rewrite (span_digits_digits _ Hd). eauto.
  - change (is_space "-") with false. cbn [take_sign]. change (Ascii.eqb "-" "-") with true.
    cbv beta iota zeta. rewrite (span_digits_digits _ Hd). eauto.
Qed.

Lemma match_note_parseInt s L acc octStr :
  match_note s = Some (L, acc, octStr) -> exists z, parseInt octStr = Some z.
Proof.
  unfold match_note. destruct s as [|L0 r]; [discriminate|].
  destruct (is_note_letter L0); [|discriminate].
  destruct (match r with
            | [] => ([], [])
            | c :: r' => if (Ascii.eqb c "#" || Ascii.eqb c "b")%bool then ([c], r') else ([], r)
            end) as [acc0 r1].
  assert (Hsg : exists sign r2,
             (match r1 with
              | [] => ([], [])
              | c :: r' => if Ascii.eqb c "-" then ([c], r') else ([], r1)
              end) = (sign, r2) /\ (sign = [] \/ sign = ["-"%char])).
  { destruct r1 as [|c r']; [eauto|].
    destruct (Ascii.eqb c "-") eqn:E; [|eauto].
    apply Ascii.eqb_eq in E. subst. eauto. }
  destruct Hsg as (sign & r2 & -> & Hsign).
  destruct (span_digits r2) as [ds rest] eqn:E.
  destruct ds as [|d ds]; [discriminate|]. destruct rest; [|discriminate].
  intros [= <- <- <-]. apply span_digits_spec in E as [_ Hd].
  apply parseInt_octave; [assumption | discriminate | assumption].
Qed.

(** The three ways through the parser: a positive number, no pitch, a
    note name. *)
Lemma parseNoteOrHz_cases s a4 :
  let u := trim (list_ascii_of_string s) in
  let asNum := Number (replace_comma u) in
  (is_positive_number s /\
   parseNoteOrHz s a4 =
   {| freq := Some asNum; label := toFixed asNum 6 ++ [Chars " Hz"];
      midi := None; pc := None |}) \/
  (~ is_positive_number s /\ ~ is_note_name s /\ parseNoteOrHz s a4 = null_parse) \/
  (~ is_positive_number s /\ is_note_name s /\
   exists L acc octStr idx octave,
     match_note u = Some (L, acc, octStr) /\
     lookup_name (string_of_list_ascii (toUpperCase L :: acc)) NOTE_INDEX = Some idx /\
     parseInt octStr = Some octave /\
     parseNoteOrHz s a4 =
     {| freq := Some (Num (a4 * Math_pow 2 (IZR ((octave + 1) * 12 + idx - 69) / 12)));
        label := [Chars (string_of_list_ascii (toUpperCase L :: acc) ++ string_of_Z octave)];
        midi := Some ((octave + 1) * 12 + idx)%Z;
        pc := Some (Z.rem (Z.rem ((octave + 1) * 12 + idx) 12 + 12) 12) |}).
Proof.
  intros u asNum. unfold parseNoteOrHz. fold u. fold asNum.
  rewrite gt_zero_not_NaN.
  pose proof (Number_gt_zero (replace_comma u)) as Hpos. fold asNum in Hpos.
  change (exists v, parse_numeric (replace_comma u) = Some v /\
                    match v with
                    | Decimal m _ => (0 < m)%Z
                    | Infinite neg => neg = false
                    end) with (is_positive_number s) in Hpos.
  destruct (gt_zero asNum) eqn:Hg.
  - left. split; [apply Hpos; reflexivity | reflexivity].
  - right. assert (Hnp : ~ is_positive_number s) by (intros H; apply Hpos in H; discriminate).
    unfold is_note_name. fold u.
    destruct (match_note u) as [[[L acc] octStr]|] eqn:HM.
    + destruct (lookup_name _ NOTE_INDEX) as [idx|] eqn:HI.
      * destruct (match_note_parseInt _ _ _ _ HM) as [z Hz]. rewrite Hz.
        right. split; [assumption|]. split; [eauto 6|].
        exists L, acc, octStr, idx, z. auto.
      * left. split; [assumption|]. split; [|reflexivity].
        intros (L' & acc' & o' & idx' & [= <- <- <-] & Hl). congruence.
    + left. split; [assumption|]. split; [|reflexivity].
      intros (L' & acc' & o' & idx' & Hm & _). discriminate.
Qed.

(** The parser yields no frequency exactly for the strings that are
    neither a positive number nor a note name, and its result is then the
    null parse. *)
Lemma parseNoteOrHz_none s a4 :
  freq (parseNoteOrHz s a4) = None <-> ~ is_positive_number s /\ ~ is_note_name s.
Proof.
  destruct (parseNoteOrHz_cases s a4)
    as [[Hp ->] | [(Hp & Hn & ->) | (Hp & Hn & L & acc & o & idx & z & _ & _ & _ & ->)]];
    cbn [freq null_parse]; split; try discriminate; try tauto.
Qed.


(** A frequency that the parser returns is positive when [a4] is. *)
Lemma parseNoteOrHz_positive s a4 v :
  0 < a4 -> freq (parseNoteOrHz s a4) = Some v -> gt_zero v = true.
Proof.
  intros Ha.
  destruct (parseNoteOrHz_cases s a4)
    as [[Hp ->] | [(Hp & Hn & ->) | (Hp & Hn & L & acc & o & idx & z & _ & _ & _ & ->)]];
    cbn [freq null_parse]; [| discriminate |].
  - intros [= <-]. apply Number_gt_zero. exact Hp.
  - intros [= <-]. cbn [gt_zero]. apply ltb_true.
    apply Rmult_lt_0_compat; [assumption | apply Rpower_pos].
Qed.

(** The frequency that the parser returns is an infinity exactly for the
    literal of the positive infinity. *)
Lemma parseNoteOrHz_infinite s a4 :
  ~ finite_target a4 s <-> is_infinite_number s.
Proof.
  unfold finite_target, is_infinite_number.
  destruct (parseNoteOrHz_cases s a4)
    as [[Hp ->] | [(Hp & Hn & ->) | (Hp & Hn & L & acc & o & idx & z & _ & _ & _ & ->)]];
    cbn [freq null_parse].
  - rewrite <- Number_infinite. pose proof (proj2 (Number_gt_zero _) Hp) as Hg.
    destruct (Number _); cbn [gt_zero] in Hg; split; try tauto; try discriminate.
  - split; [tauto|]. intros H. exfalso. apply Hp. eexists. split; [exact H | reflexivity].
  - split; [tauto|]. intros H. exfalso. apply Hp. eexists. split; [exact H | reflexivity].
Qed.

Lemma no_infinity_finite a4 l : no_infinity l -> Forall (finite_target a4) l.
Proof.
  unfold no_infinity. induction 1 as [|t l Ht _ IH]; constructor; [|assumption].
  unfold finite_target. destruct (freq (parseNoteOrHz t a4)) as [[x| | |]|] eqn:E;
    try exact I; exfalso; apply Ht; apply (parseNoteOrHz_infinite t a4);
    unfold finite_target; rewrite E; tauto.
Qed.

(** ** The rows of the comparator *)

Lemma finite_target_dec a4 t : finite_target a4 t \/ ~ finite_target a4 t.
Proof.
  unfold finite_target. destruct (freq (parseNoteOrHz t a4)) as [[x| | |]|]; tauto.
Qed.

Section Rows.

Variables (a4 fFund : R) (sys : System) (w3Positions : list R)
          (realOct : bool) (distMode : DistMode).

Local Abbreviation step := (rows_step a4 fFund sys w3Positions realOct distMode).
Local Abbreviation loop := (rows_loop a4 fFund sys w3Positions realOct distMode).

Lemma rows_step_skip st t :
  falsy (freq (parseNoteOrHz t a4)) = true -> step st t = Some st.
Proof. unfold rows_step. cbv zeta. intros ->. reflexivity. Qed.

Lemma row_freq_falsy t :
  finite_target a4 t -> row_freq a4 t = None ->
  falsy (freq (parseNoteOrHz t a4)) = true.
Proof.
  unfold finite_target, row_freq.
  destruct (freq (parseNoteOrHz t a4)) as [[x| | |]|]; cbn [falsy];
    try tauto; try reflexivity.
  destruct (Req_dec_T x 0); [reflexivity | discriminate].
Qed.

Lemma rows_step_row st t f :
  row_freq a4 t = Some f ->
  exists row st', step st t = Some st' /\ out st' = out st ++ [row] /\ hzTarget row = f.
Proof.
  unfold rows_step, row_freq. cbv zeta.
  destruct (freq (parseNoteOrHz t a4)) as [[f'| | |]|]; try discriminate.
  cbn [falsy]. destruct (Req_dec_T f' 0); [discriminate|]. intros [= ->].
  destruct (project _ _ _ _ _) as [pr c'].
  destruct distMode; destruct (distance pr _ _) as [df dc];
    destruct (firstSysRatio st); eexists; eexists;
    (split; [reflexivity|]); split; reflexivity.
Qed.

Lemma rows_step_infinite st t : ~ finite_target a4 t -> step st t = None.
Proof.
  unfold rows_step, finite_target. cbv zeta.
  destruct (freq (parseNoteOrHz t a4)) as [[x| | |]|]; try tauto; reflexivity.
Qed.


Lemma rows_loop_freqs l st :
  Forall (finite_target a4) l ->
  exists st', loop l st = Some st' /\
              map hzTarget (out st') = map hzTarget (out st) ++ omap (row_freq a4) l.
Proof.
  intros Hl. revert st. induction Hl as [|t l Ht _ IH]; intros st; cbn [rows_loop].
  - exists st. split; [reflexivity|].
    change (omap (row_freq a4) []) with (@nil R). rewrite app_nil_r. reflexivity.
  - assert (Ho : omap (row_freq a4) (t :: l) =
                 match row_freq a4 t with
                 | Some y => y :: omap (row_freq a4) l
                 | None => omap (row_freq a4) l
                 end) by reflexivity.
    rewrite Ho. clear Ho.
    destruct (row_freq a4 t) as [f|] eqn:Hf.
    + destruct (rows_step_row st t f Hf) as (row & st1 & -> & Ho & <-).
      destruct (IH st1) as (st' & -> & Hm). exists st'. split; [reflexivity|].
      rewrite Hm, Ho, map_app. cbn [map]. rewrite <- app_assoc. reflexivity.
    + rewrite rows_step_skip by (apply row_freq_falsy; assumption). apply IH.
Qed.

Lemma rows_loop_finite l st st' : loop l st = Some st' -> Forall (finite_target a4) l.
Proof.
  revert st. induction l as [|t l IH]; intros st; cbn [rows_loop]; [constructor|].
  destruct (finite_target_dec a4 t) as [Ht | Ht].
  - destruct (step st t) as [st1|]; [|discriminate].
    intros H. constructor; [assumption | exact (IH st1 H)].
  - rewrite rows_step_infinite by assumption. discriminate.
Qed.


Lemma rows_freqs l c :
  Forall (finite_target a4) l ->
  exists rs c',
    rows a4 fFund sys w3Positions realOct distMode l c = Some (rs, c') /\
    map hzTarget rs = omap (row_freq a4) l.
Proof.
  intros Hl. unfold rows.
  destruct (rows_loop_freqs l (rows_init c) Hl) as (st' & -> & Hm).
  exists (out st'), (caches st'). split; [reflexivity | exact Hm].
Qed.

Lemma rows_finite l c rs c' :
  rows a4 fFund sys w3Positions realOct distMode l c = Some (rs, c') ->
  Forall (finite_target a4) l.
Proof.
  unfold rows. destruct (loop l (rows_init c)) as [st'|] eqn:E; [|discriminate].
  intros _. exact (rows_loop_finite l _ _ E).
Qed.

End Rows.




Lemma parseNoteOrHz_note s a4 L acc octStr idx octave :
  parse_numeric (replace_comma (trim (list_ascii_of_string s))) = None ->
  match_note (trim (list_ascii_of_string s)) = Some (L, acc, octStr) ->
  lookup_name (string_of_list_ascii (toUpperCase L :: acc)) NOTE_INDEX = Some idx ->
  parseInt octStr = Some octave ->
  parseNoteOrHz s a4 =
  {| freq := Some (Num (a4 * Math_pow 2 (IZR ((octave + 1) * 12 + idx - 69) / 12)));
     label := [Chars (string_of_list_ascii (toUpperCase L :: acc) ++ string_of_Z octave)];
     midi := Some ((octave + 1) * 12 + idx)%Z;
     pc := Some (Z.rem (Z.rem ((octave + 1) * 12 + idx) 12 + 12) 12) |}.
Proof.
  intros Hn Hm Hl Hp. unfold parseNoteOrHz, Number. rewrite Hn, Hm, Hl, Hp. reflexivity.
Qed.

Lemma parse_C4 a4 :
  parseNoteOrHz "C4" a4 =
  {| freq := Some (Num (a4 * Math_pow 2 (IZR (-9) / 12))); label := [Chars "C4"];
     midi := Some 60%Z; pc := Some 0%Z |}.
Proof. apply (parseNoteOrHz_note "C4" a4 "C"%char [] ["4"%char] 0 4); reflexivity. Qed.

Lemma parse_D4 a4 :
  parseNoteOrHz "D4" a4 =
  {| freq := Some (Num (a4 * Math_pow 2 (IZR (-7) / 12))); label := [Chars "D4"];
     midi := Some 62%Z; pc := Some 2%Z |}.
Proof. apply (parseNoteOrHz_note "D4" a4 "D"%char [] ["4"%char] 2 4); reflexivity. Qed.

Lemma parse_E4 a4 :
  parseNoteOrHz "E4" a4 =
  {| freq := Some (Num (a4 * Math_pow 2 (IZR (-5) / 12))); label := [Chars "E4"];
     midi := Some 64%Z; pc := Some 4%Z |}.
Proof. apply (parseNoteOrHz_note "E4" a4 "E"%char [] ["4"%char] 4 4); reflexivity. Qed.




(** ** The comparator on note names with the Just system *)

Lemma project_just w3Positions ratioRed cents c :
  project SysJust w3Positions ratioRed cents c =
  (just_projection (fst (nearestJust cents (justCache c))),
   {| pythCache := pythCache c; w3Cache := w3Cache c;
      justCache := snd (nearestJust cents (justCache c)) |}).
Proof.
  unfold project, just_projection.
  destruct (nearestJust cents (justCache c)) as [j jc]. cbn [fst snd].
  destruct (j_frac j) as [n d]. reflexivity.
Qed.

(** Octave reduction of a ratio [2^x] with [0 <= x < 1]. *)
Lemma reduce_pow2 x :
  0 <= x < 1 ->
  Math_floor (log2 (Rpower 2 x)) = 0%Z /\
  Rpower 2 x / Math_pow 2 (IZR 0) = Rpower 2 x /\
  toCents (Rpower 2 x) = 1200 * x.
Proof.
  intros Hx. split; [|split].
  - unfold Math_floor. rewrite log2_pow2. apply Zfloor_eq. lra.
  - unfold Math_pow. rewrite Rpower_O by lra. field.
  - rewrite toCents_log2, log2_pow2. reflexivity.
Qed.

Lemma note_ratio a4 (m m0 : Z) :
  a4 <> 0 ->
  a4 * Math_pow 2 (IZR m / 12) / (a4 * Math_pow 2 (IZR m0 / 12)) =
  Rpower 2 (IZR (m - m0) / 12).
Proof.
  intros Ha. unfold Math_pow. rewrite minus_IZR.
  replace ((IZR m - IZR m0) / 12) with (IZR m / 12 + - (IZR m0 / 12)) by lra.
  rewrite Rpower_plus, Rpower_Ropp.
  pose proof (Rpower_pos 2 (IZR m0 / 12)). field. split; lra.
Qed.

(** One iteration for a note name under the Just system: the new state
    and the fields of the row, given the frequency of the target, its
    interval [2^x] to the fundamental and the entry that the Just matcher
    holds for every target with the key of [1200 x]. *)
Lemma rows_step_just a4 fFund w3Positions realOct distMode st t f lbl md pcv x j :
  parseNoteOrHz t a4 = mkParsed (Some (Num f)) lbl md pcv ->
  text_empty lbl = false -> f <> 0 ->
  f / fFund = Rpower 2 x -> 0 <= x < 1 ->
  just_reachable (justCache (caches st)) ->
  (forall t0, Math_round (t0 * 1000) = Math_round (1200 * x * 1000) ->
              just_search t0 = just_result j) ->
  exists row c',
    rows_step a4 fFund SysJust w3Positions realOct distMode st t =
    Some {| out := out st ++ [row];
            firstSysRatio := match firstSysRatio st with
                             | None => Some (IZR (fst (frac j)) / IZR (snd (frac j)))
                             | Some _ => firstSysRatio st
                             end;
            firstFrac := match firstSysRatio st with
                         | None => Some (frac j)
                         | Some _ => firstFrac st
                         end;
            prevSysRatio := Some (IZR (fst (frac j)) / IZR (snd (frac j)));
            prevFrac := Some (frac j);
            caches := c' |} /\
    just_reachable (justCache c') /\
    (target row = lbl /\ hzTarget row = f /\ ratioRed row = Rpower 2 x /\
     centsEI row = 1200 * x) /\
    (sysName row = name j /\
     sysFrac row = [Chars (string_of_Z (fst (frac j)) ++ "/" ++ string_of_Z (snd (frac j)))] /\
     sysCents row = just_cents j /\
     sysHz row = fFund * (IZR (fst (frac j)) / IZR (snd (frac j))) /\
     dev row = signedDelta (just_cents j) (1200 * x)) /\
    (distFrac row, distCents row) =
    distance (just_projection (just_result j))
             (match distMode with Previous => prevSysRatio st | First => firstSysRatio st end)
             (match distMode with Previous => prevFrac st | First => firstFrac st end).
Proof.
  intros Hp Hl Hf Hr Hx Hc Hj.
  destruct (reduce_pow2 x Hx) as (Ho & Hred & Hcents).
  unfold rows_step. cbv zeta. rewrite Hp. cbn [freq label falsy].
  destruct (Req_dec_T f 0) as [|_]; [contradiction|].
  rewrite Hr, Ho, Hred, Hcents, project_just, Hl.
  destruct (nearestJust_some_target (1200 * x) (justCache (caches st)) Hc) as (t0 & Hk & Hs).
  rewrite Hs, (Hj t0 Hk).
  set (pr := just_projection (just_result j)).
  assert (Hhz : (if realOct
                 then fFund * (IZR (fst (frac j)) / IZR (snd (frac j))) * Math_pow 2 (IZR 0)
                 else fFund * (IZR (fst (frac j)) / IZR (snd (frac j)))) =
                fFund * (IZR (fst (frac j)) / IZR (snd (frac j)))).
  { destruct realOct; [|reflexivity]. unfold Math_pow. rewrite Rpower_O by lra. ring. }
  destruct distMode; cbv beta iota;
    destruct (distance pr _ _) as [df dc] eqn:Hd;
    destruct (firstSysRatio st) eqn:Hfs;
    (eexists; eexists; split; [reflexivity|];
     split; [cbn [justCache]; apply jr_call; assumption|];
     cbn [target hzTarget centsEI ratioRed sysName sysFrac sysCents sysHz dev
          pr just_projection just_result p_name p_frac p_cents p_ratio j_name j_frac j_cents
          distFrac distCents];
     auto 15).
Qed.

Lemma fromCents_toCents r : 0 < r -> fromCents (toCents r) = r.
Proof.
  intros Hr. unfold fromCents, Math_pow. rewrite toCents_log2.
  replace (1200 * log2 r / 1200) with (log2 r) by lra.
  apply Rpower2_log2. assumption.
Qed.

Lemma Rpower2_m1 : Rpower 2 (IZR (-1)) = / 2.
Proof.
  change (IZR (-1)) with (- (1)). rewrite Rpower_Ropp, Rpower_1 by lra. reflexivity.
Qed.

Lemma reduce_36_40 : reduceFraction (9 * 4) (8 * 5) = (9, 10)%Z.
Proof. vm_compute. reflexivity. Qed.

Lemma reduce_40_36 : reduceFraction (5 * 8) (4 * 9) = (10, 9)%Z.
Proof. vm_compute. reflexivity. Qed.

Lemma log2_9_10 : log2 (IZR 9 / IZR 10) = 2 * L3 - 1 - L5.
Proof.
  rewrite log2_div by lra.
  change 9%Z with (2 ^ 0 * 3 ^ 2 * 5 ^ 0)%Z. change 10%Z with (2 ^ 1 * 3 ^ 0 * 5 ^ 1)%Z.
  rewrite !log2_smooth by lia. lra.
Qed.

Lemma log2_10_9 : log2 (IZR 10 / IZR 9) = 1 + L5 - 2 * L3.
Proof.
  rewrite log2_div by lra.
  change 9%Z with (2 ^ 0 * 3 ^ 2 * 5 ^ 0)%Z. change 10%Z with (2 ^ 1 * 3 ^ 0 * 5 ^ 1)%Z.
  rewrite !log2_smooth by lia. lra.
Qed.

(** The distance of 9/8 to the reference 5/4: the fraction 9/10, whose
    octave reduction is 9/5. *)
Lemma distance_D_from_E rr :
  distance (just_projection (just_result (mkJust "9/8 (2M)" (9, 8)%Z)))
           (Some rr) (Some (5, 4)%Z) =
  (Some [Chars "9/10"], Some (toCents (9 / 5))).
Proof.
  unfold distance. cbn [just_projection just_result p_pair j_frac frac].
  rewrite reduce_36_40.
  assert (Hk : Math_floor (log2 (IZR 9 / IZR 10)) = (-1)%Z).
  { unfold Math_floor. rewrite log2_9_10. apply Zfloor_eq.
    pose proof L3_bounds. pose proof L5_bounds. lra. }
  rewrite Hk. unfold Math_pow. rewrite Rpower2_m1.
  f_equal. f_equal. f_equal. field.
Qed.

(** The distance of 5/4 to the reference 9/8: the fraction 10/9. *)
Lemma distance_E_from_D rr :
  distance (just_projection (just_result (mkJust "5/4 (3M)" (5, 4)%Z)))
           (Some rr) (Some (9, 8)%Z) =
  (Some [Chars "10/9"], Some (toCents (10 / 9))).
Proof.
  unfold distance. cbn [just_projection just_result p_pair j_frac frac].
  rewrite reduce_40_36.
  assert (Hk : Math_floor (log2 (IZR 10 / IZR 9)) = 0%Z).
  { unfold Math_floor. rewrite log2_10_9. apply Zfloor_eq.
    pose proof L3_bounds. pose proof L5_bounds. lra. }
  rewrite Hk. unfold Math_pow. rewrite Rpower_O by lra.
  f_equal. f_equal. f_equal. field.
Qed.

Lemma fundamental_C4 a4 : fundamental "C4" a4 = Num (a4 * Math_pow 2 (IZR (-9) / 12)).
Proof. unfold fundamental. rewrite parse_C4. reflexivity. Qed.

Lemma key_400 t0 :
  Math_round (t0 * 1000) = Math_round (1200 * (IZR (-5 - -9) / 12) * 1000) ->
  just_search t0 = just_result (mkJust "5/4 (3M)" (5, 4)%Z).
Proof.
  intros Hk.
  assert (K : Math_round (1200 * (IZR (-5 - -9) / 12) * 1000) = 400000%Z)
    by (apply Math_round_eq; rewrite minus_IZR; lra).
  rewrite K in Hk. apply key_bucket in Hk. apply just_search_near_400. lra.
Qed.

Lemma key_200 t0 :
  Math_round (t0 * 1000) = Math_round (1200 * (IZR (-7 - -9) / 12) * 1000) ->
  just_search t0 = just_result (mkJust "9/8 (2M)" (9, 8)%Z).
Proof.
  intros Hk.
  assert (K : Math_round (1200 * (IZR (-7 - -9) / 12) * 1000) = 200000%Z)
    by (apply Math_round_eq; rewrite minus_IZR; lra).
  rewrite K in Hk. apply key_bucket in Hk. apply just_search_near_200. lra.
Qed.

Lemma note_freq_nonzero (m : Z) : 440 * Math_pow 2 (IZR m / 12) <> 0.
Proof. pose proof (Rpower_pos 2 (IZR m / 12)). unfold Math_pow. nra. Qed.

(** The fundamental C4 at the reference 440 Hz is 261.626 Hz to three
    decimals. *)
Lemma C4_value : 261.6255 < 440 * Math_pow 2 (IZR (-9) / 12) < 261.6256.
Proof.
  unfold Math_pow.
  set (y := Rpower 2 (IZR (-9) / 12)).
  assert (Hy : 0 < y) by apply Rpower_pos.
  assert (H4 : y ^ 4 = / 8).
  { unfold y. rewrite <- (Rpower_pow 4) by apply Rpower_pos.
    rewrite Rpower_mult. replace (IZR (-9) / 12 * INR 4) with (- (3)) by (simpl; lra).
    rewrite Rpower_Ropp. change 2 with (IZR 2). change 3 with (IZR 3).
    rewrite Rpower_IZR_nonneg by lia. reflexivity. }
  assert (H2 : 0 < y ^ 2) by (apply pow_lt; assumption).
  split.
  - destruct (Rlt_dec (261.6255 / 440) y) as [|Hn]; [lra|]. exfalso.
    assert (Hle : y <= 261.6255 / 440) by lra.
    assert (y ^ 2 <= (261.6255 / 440) ^ 2) by (apply pow_incr; lra).
    assert (y ^ 4 <= (261.6255 / 440) ^ 4).
    { replace (y ^ 4) with ((y ^ 2) ^ 2) by ring.
      replace ((261.6255 / 440) ^ 4) with (((261.6255 / 440) ^ 2) ^ 2) by ring.
      apply pow_incr. lra. }
    lra.
  - destruct (Rlt_dec y (261.6256 / 440)) as [|Hn]; [lra|]. exfalso.
    assert (Hle : 261.6256 / 440 <= y) by lra.
    assert ((261.6256 / 440) ^ 4 <= y ^ 4) by (apply pow_incr; lra).
    lra.
Qed.

(** The deviation of a Just entry from a target within half an octave. *)
Lemma dev_just nm n d c :
  -600 <= c - toCents (IZR n / IZR d) < 600 ->
  signedDelta (just_cents (mkJust nm (n, d))) c = c - toCents (IZR n / IZR d).
Proof.
  intros H. unfold just_cents. cbn [frac fst snd].
  rewrite signedDelta_pmod, (pmod_eq _ 1200 0) by lra. lra.
Qed.

Lemma toCents_5_4 : 386.31 < toCents (5 / 4) < 386.32.
Proof.
  pose proof (jc_5_4 "") as H. unfold just_cents in H. cbn [frac fst snd] in H.
  rewrite H. pose proof L5_tight. lra.
Qed.

Lemma toCents_9_8 : 203.90 < toCents (9 / 8) < 203.93.
Proof.
  pose proof (jc_9_8 "") as H. unfold just_cents in H. cbn [frac fst snd] in H.
  rewrite H. pose proof L3_bounds. lra.
Qed.

(** The row of E4 over the fundamental C4: the major third 5/4. *)
Lemma row_E4 a4 w3Positions realOct distMode st :
  a4 <> 0 -> just_reachable (justCache (caches st)) ->
  exists row c',
    rows_step a4 (a4 * Math_pow 2 (IZR (-9) / 12)) SysJust w3Positions realOct distMode
              st "E4" =
    Some {| out := out st ++ [row];
            firstSysRatio := match firstSysRatio st with
                             | None => Some (5 / 4)
                             | Some _ => firstSysRatio st
                             end;
            firstFrac := match firstSysRatio st with
                         | None => Some (5, 4)%Z
                         | Some _ => firstFrac st
                         end;
            prevSysRatio := Some (5 / 4);
            prevFrac := Some (5, 4)%Z;
            caches := c' |} /\
    just_reachable (justCache c') /\
    (target row = [Chars "E4"] /\ hzTarget row = a4 * Math_pow 2 (IZR (-5) / 12) /\
     ratioRed row = fromCents 400 /\ centsEI row = 400) /\
    (sysName row = "5/4 (3M)"%string /\ sysFrac row = [Chars "5/4"] /\
     sysCents row = toCents (5 / 4) /\
     sysHz row = a4 * Math_pow 2 (IZR (-9) / 12) * (5 / 4) /\
     dev row = 400 - toCents (5 / 4)) /\
    (distFrac row, distCents row) =
    distance (just_projection (just_result (mkJust "5/4 (3M)" (5, 4)%Z)))
             (match distMode with Previous => prevSysRatio st | First => firstSysRatio st end)
             (match distMode with Previous => prevFrac st | First => firstFrac st end).
Proof.
  intros Ha Hc.
  assert (Hf : a4 * Math_pow 2 (IZR (-5) / 12) <> 0).
  { pose proof (Rpower_pos 2 (IZR (-5) / 12)). unfold Math_pow. nra. }
  assert (Hx : IZR (-5 - -9) / 12 = 1 / 3) by (change (-5 - -9)%Z with 4%Z; lra).
  destruct (rows_step_just a4 (a4 * Math_pow 2 (IZR (-9) / 12)) w3Positions realOct
              distMode st "E4" _ _ _ _ (IZR (-5 - -9) / 12)
              (mkJust "5/4 (3M)" (5, 4)%Z) (parse_E4 a4) eq_refl
              Hf (note_ratio a4 (-5) (-9) Ha)
              ltac:(rewrite Hx; lra) Hc key_400)
    as (r & c' & Hs & Hc' & (Ht & Hh & Hr & Hce) & (Hn & Hfr & Hsc & Hsh & Hd) & Hdist).
  exists r, c'. cbn [frac fst snd name] in *.
  pose proof toCents_5_4 as Hb.
  rewrite (dev_just _ 5 4) in Hd by (rewrite Hx; lra).
  rewrite Hx in Hr, Hce, Hd.
  replace (1200 * (1 / 3)) with 400 in Hce, Hd by lra.
  assert (Hfc : fromCents 400 = Rpower 2 (1 / 3)).
  { unfold fromCents, Math_pow. apply (f_equal (Rpower 2)). lra. }
  rewrite Hfc. unfold just_cents in Hsc. cbn [frac fst snd] in Hsc.
  split; [exact Hs|]. split; [exact Hc'|]. auto 15.
Qed.

(** The row of D4 over the fundamental C4: the major second 9/8. *)
Lemma row_D4 a4 w3Positions realOct distMode st :
  a4 <> 0 -> just_reachable (justCache (caches st)) ->
  exists row c',
    rows_step a4 (a4 * Math_pow 2 (IZR (-9) / 12)) SysJust w3Positions realOct distMode
              st "D4" =
    Some {| out := out st ++ [row];
            firstSysRatio := match firstSysRatio st with
                             | None => Some (9 / 8)
                             | Some _ => firstSysRatio st
                             end;
            firstFrac := match firstSysRatio st with
                         | None => Some (9, 8)%Z
                         | Some _ => firstFrac st
                         end;
            prevSysRatio := Some (9 / 8);
            prevFrac := Some (9, 8)%Z;
            caches := c' |} /\
    just_reachable (justCache c') /\
    (target row = [Chars "D4"] /\ hzTarget row = a4 * Math_pow 2 (IZR (-7) / 12) /\
     ratioRed row = fromCents 200 /\ centsEI row = 200) /\
    (sysName row = "9/8 (2M)"%string /\ sysFrac row = [Chars "9/8"] /\
     sysCents row = toCents (9 / 8) /\
     sysHz row = a4 * Math_pow 2 (IZR (-9) / 12) * (9 / 8) /\
     dev row = 200 - toCents (9 / 8)) /\
    (distFrac row, distCents row) =
    distance (just_projection (just_result (mkJust "9/8 (2M)" (9, 8)%Z)))
             (match distMode with Previous => prevSysRatio st | First => firstSysRatio st end)
             (match distMode with Previous => prevFrac st | First => firstFrac st end).
Proof.
  intros Ha Hc.
  assert (Hf : a4 * Math_pow 2 (IZR (-7) / 12) <> 0).
  { pose proof (Rpower_pos 2 (IZR (-7) / 12)). unfold Math_pow. nra. }
  assert (Hx : IZR (-7 - -9) / 12 = 1 / 6) by (change (-7 - -9)%Z with 2%Z; lra).
  destruct (rows_step_just a4 (a4 * Math_pow 2 (IZR (-9) / 12)) w3Positions realOct
              distMode st "D4" _ _ _ _ (IZR (-7 - -9) / 12)
              (mkJust "9/8 (2M)" (9, 8)%Z) (parse_D4 a4) eq_refl
              Hf (note_ratio a4 (-7) (-9) Ha)
              ltac:(rewrite Hx; lra) Hc key_200)
    as (r & c' & Hs & Hc' & (Ht & Hh & Hr & Hce) & (Hn & Hfr & Hsc & Hsh & Hd) & Hdist).
  exists r, c'. cbn [frac fst snd name] in *.
  pose proof toCents_9_8 as Hb.
  rewrite (dev_just _ 9 8) in Hd by (rewrite Hx; lra).
  rewrite Hx in Hr, Hce, Hd.
  replace (1200 * (1 / 6)) with 200 in Hce, Hd by lra.
  assert (Hfc : fromCents 200 = Rpower 2 (1 / 6)).
  { unfold fromCents, Math_pow. apply (f_equal (Rpower 2)). lra. }
  rewrite Hfc. unfold just_cents in Hsc. cbn [frac fst snd] in Hsc.
  split; [exact Hs|]. split; [exact Hc'|]. auto 15.
Qed.

(** The two rows for the targets E4, D4 over the fundamental C4. *)
Lemma rows_E4_D4 w3Positions realOct c :
  just_reachable (justCache c) ->
  exists r1 r2 c',
    rows 440 (440 * Math_pow 2 (IZR (-9) / 12)) SysJust w3Positions realOct Previous
         ["E4"; "D4"]%string c = Some ([r1; r2], c') /\
    ((target r1 = [Chars "E4"] /\ hzTarget r1 = 440 * Math_pow 2 (IZR (-5) / 12) /\
      ratioRed r1 = fromCents 400 /\ centsEI r1 = 400) /\
     (sysName r1 = "5/4 (3M)"%string /\ sysFrac r1 = [Chars "5/4"] /\
      sysCents r1 = toCents (5 / 4) /\
      sysHz r1 = 440 * Math_pow 2 (IZR (-9) / 12) * (5 / 4) /\
      dev r1 = 400 - toCents (5 / 4)) /\
     distFrac r1 = None /\ distCents r1 = None) /\
    ((target r2 = [Chars "D4"] /\ hzTarget r2 = 440 * Math_pow 2 (IZR (-7) / 12) /\
      ratioRed r2 = fromCents 200 /\ centsEI r2 = 200) /\
     (sysName r2 = "9/8 (2M)"%string /\ sysFrac r2 = [Chars "9/8"] /\
      sysCents r2 = toCents (9 / 8) /\
      sysHz r2 = 440 * Math_pow 2 (IZR (-9) / 12) * (9 / 8) /\
      dev r2 = 200 - toCents (9 / 8)) /\
     distFrac r2 = Some [Chars "9/10"] /\ distCents r2 = Some (toCents (9 / 5))).
Proof.
  intros Hc. unfold rows. cbn [rows_loop].
  destruct (row_E4 440 w3Positions realOct Previous (rows_init c) ltac:(lra) Hc)
    as (r1 & c1 & -> & Hc1 & Ht1 & Hp1 & Hdist1).
  cbn [rows_init prevSysRatio prevFrac firstSysRatio firstFrac out app] in *.
  match goal with |- context [rows_step _ _ _ _ _ _ ?st "D4"] => set (st1 := st) end.
  destruct (row_D4 440 w3Positions realOct Previous st1 ltac:(lra) Hc1)
    as (r2 & c2 & -> & Hc2 & Ht2 & Hp2 & Hdist2).
  cbn [st1 prevSysRatio prevFrac out app caches] in *.
  rewrite distance_D_from_E in Hdist2.
  injection Hdist1 as Hdf1 Hdc1. injection Hdist2 as Hdf2 Hdc2.
  exists r1, r2, c2. split; [reflexivity|]. split; auto.
Qed.

(** The two rows for the same targets in the order D4, E4. *)
Lemma rows_D4_E4 w3Positions realOct c :
  just_reachable (justCache c) ->
  exists r1 r2 c',
    rows 440 (440 * Math_pow 2 (IZR (-9) / 12)) SysJust w3Positions realOct Previous
         ["D4"; "E4"]%string c = Some ([r1; r2], c') /\
    ((target r1 = [Chars "D4"] /\ hzTarget r1 = 440 * Math_pow 2 (IZR (-7) / 12) /\
      ratioRed r1 = fromCents 200 /\ centsEI r1 = 200) /\
     (sysName r1 = "9/8 (2M)"%string /\ sysFrac r1 = [Chars "9/8"] /\
      sysCents r1 = toCents (9 / 8) /\
      sysHz r1 = 440 * Math_pow 2 (IZR (-9) / 12) * (9 / 8) /\
      dev r1 = 200 - toCents (9 / 8)) /\
     distFrac r1 = None /\ distCents r1 = None) /\
    ((target r2 = [Chars "E4"] /\ hzTarget r2 = 440 * Math_pow 2 (IZR (-5) / 12) /\
      ratioRed r2 = fromCents 400 /\ centsEI r2 = 400) /\
     (sysName r2 = "5/4 (3M)"%string /\ sysFrac r2 = [Chars "5/4"] /\
      sysCents r2 = toCents (5 / 4) /\
      sysHz r2 = 440 * Math_pow 2 (IZR (-9) / 12) * (5 / 4) /\
      dev r2 = 400 - toCents (5 / 4)) /\
     distFrac r2 = Some [Chars "10/9"] /\ distCents r2 = Some (toCents (10 / 9))).
Proof.
  intros Hc. unfold rows. cbn [rows_loop].
  destruct (row_D4 440 w3Positions realOct Previous (rows_init c) ltac:(lra) Hc)
    as (r1 & c1 & -> & Hc1 & Ht1 & Hp1 & Hdist1).
  cbn [rows_init prevSysRatio prevFrac firstSysRatio firstFrac out app] in *.
  match goal with |- context [rows_step _ _ _ _ _ _ ?st "E4"] => set (st1 := st) end.
  destruct (row_E4 440 w3Positions realOct Previous st1 ltac:(lra) Hc1)
    as (r2 & c2 & -> & Hc2 & Ht2 & Hp2 & Hdist2).
  cbn [st1 prevSysRatio prevFrac out app caches] in *.
  rewrite distance_E_from_D in Hdist2.
  injection Hdist1 as Hdf1 Hdc1. injection Hdist2 as Hdf2 Hdc2.
  exists r1, r2, c2. split; [reflexivity|]. split; auto.
Qed.

(** With the targets E4, D4 the distance of the D4 row to the previous row
    reduces to 9/5, which is not within 0.02 of 10/9. *)
Lemma comparador_D4_distance_not_10_9 :
  exists f0 r1 r2 c' dc,
    fundamental "C4" 440 = Num f0 /\
    rows 440 f0 SysJust werckmeisterIIIPositions false Previous
         ["E4"; "D4"]%string no_caches = Some ([r1; r2], c') /\
    distCents r2 = Some dc /\ fromCents dc = 9 / 5 /\ 1 <= fromCents dc < 2 /\
    ~ Rabs (fromCents dc - 10 / 9) <= 0.02.
Proof.
  destruct (rows_E4_D4 werckmeisterIIIPositions false no_caches jr_empty)
    as (r1 & r2 & c' & Hrows & _ & _ & _ & _ & H2).
  exists (440 * Math_pow 2 (IZR (-9) / 12)), r1, r2, c', (toCents (9 / 5)).
  rewrite fromCents_toCents by lra.
  split; [apply fundamental_C4|]. split; [assumption|]. split; [exact H2|].
  split; [reflexivity|]. split; [lra|].
  unfold Rabs. destruct (Rcase_abs _); lra.
Qed.

(** C7: with the fundamental C4 (261.626 Hz at the reference 440 Hz), the
    Just system and the distance to the previous row, the targets E4, D4
    give two rows.  The first is E4, 400 cents above the fundamental,
    projected on 5/4 (3M): fraction 5/4, cents of 5/4, frequency the
    fundamental times 5/4, deviation 400 minus these cents (about +13.7),
    and no distance.  The second is D4, 200 cents above the fundamental,
    projected on 9/8 (2M): fraction 9/8, cents of 9/8, frequency the
    fundamental times 9/8, deviation about -3.9; its distance is the
    fraction 9/10, reduced to the ratio 9/5 in [1, 2): the interval of D
    above E.  The ratio 10/9 is the distance of the E4 row when the targets
    are D4, E4, with the same two projections. *)
Theorem comparador_E4_D4 (w3Positions : list R) (realOct : bool) (c : Caches) :
  just_reachable (justCache c) ->
  exists f0,
    fundamental "C4" 440 = Num f0 /\ 261.6255 < f0 < 261.6256 /\
    (exists r1 r2 c',
        rows 440 f0 SysJust w3Positions realOct Previous ["E4"; "D4"]%string c =
        Some ([r1; r2], c') /\
        ((target r1 = [Chars "E4"] /\ hzTarget r1 = 440 * Math_pow 2 (IZR (-5) / 12) /\
          ratioRed r1 = fromCents 400 /\ centsEI r1 = 400) /\
         (sysName r1 = "5/4 (3M)"%string /\ sysFrac r1 = [Chars "5/4"] /\
          sysCents r1 = toCents (5 / 4) /\ sysHz r1 = f0 * (5 / 4) /\
          dev r1 = 400 - toCents (5 / 4)) /\
         distFrac r1 = None /\ distCents r1 = None) /\
        ((target r2 = [Chars "D4"] /\ hzTarget r2 = 440 * Math_pow 2 (IZR (-7) / 12) /\
          ratioRed r2 = fromCents 200 /\ centsEI r2 = 200) /\
         (sysName r2 = "9/8 (2M)"%string /\ sysFrac r2 = [Chars "9/8"] /\
          sysCents r2 = toCents (9 / 8) /\ sysHz r2 = f0 * (9 / 8) /\
          dev r2 = 200 - toCents (9 / 8)) /\
         distFrac r2 = Some [Chars "9/10"] /\ distCents r2 = Some (toCents (9 / 5))) /\
        13.68 < dev r1 < 13.69 /\ -3.93 < dev r2 < -3.90) /\
    (exists r1 r2 c',
        rows 440 f0 SysJust w3Positions realOct Previous ["D4"; "E4"]%string c =
        Some ([r1; r2], c') /\
        ((target r1 = [Chars "D4"] /\ hzTarget r1 = 440 * Math_pow 2 (IZR (-7) / 12) /\
          ratioRed r1 = fromCents 200 /\ centsEI r1 = 200) /\
         (sysName r1 = "9/8 (2M)"%string /\ sysFrac r1 = [Chars "9/8"] /\
          sysCents r1 = toCents (9 / 8) /\ sysHz r1 = f0 * (9 / 8) /\
          dev r1 = 200 - toCents (9 / 8)) /\
         distFrac r1 = None /\ distCents r1 = None) /\
        ((target r2 = [Chars "E4"] /\ hzTarget r2 = 440 * Math_pow 2 (IZR (-5) / 12) /\
          ratioRed r2 = fromCents 400 /\ centsEI r2 = 400) /\
         (sysName r2 = "5/4 (3M)"%string /\ sysFrac r2 = [Chars "5/4"] /\
          sysCents r2 = toCents (5 / 4) /\ sysHz r2 = f0 * (5 / 4) /\
          dev r2 = 400 - toCents (5 / 4)) /\
         distFrac r2 = Some [Chars "10/9"] /\ distCents r2 = Some (toCents (10 / 9)))) /\
    toCents (5 / 4) = 1200 * log2 (5 / 4) /\ toCents (9 / 8) = 1200 * log2 (9 / 8) /\
    386.31 < toCents (5 / 4) < 386.32 /\ 203.90 < toCents (9 / 8) < 203.93 /\
    fromCents (toCents (9 / 5)) = 9 / 5 /\ fromCents (toCents (10 / 9)) = 10 / 9.
Proof.
  intros Hc. exists (440 * Math_pow 2 (IZR (-9) / 12)).
  split; [apply fundamental_C4|]. split; [exact C4_value|].
  pose proof toCents_5_4 as H54. pose proof toCents_9_8 as H98.
  split; [|split; [|rewrite !fromCents_toCents by lra;
                     split; [apply toCents_log2|]; split; [apply toCents_log2|]; auto]].
  - destruct (rows_E4_D4 w3Positions realOct c Hc)
      as (r1 & r2 & c' & Hrows & H1 & H2).
    exists r1, r2, c'. split; [assumption|]. split; [exact H1|]. split; [exact H2|].
    destruct H1 as (_ & (_ & _ & _ & _ & ->) & _).
    destruct H2 as (_ & (_ & _ & _ & _ & ->) & _). lra.
  - destruct (rows_D4_E4 w3Positions realOct c Hc)
      as (r1 & r2 & c' & Hrows & H1 & H2).
    exists r1, r2, c'. auto.
Qed.

Lemma comparador_E4_D4_witness :
  exists f0 r1 r2 c',
    fundamental "C4" 440 = Num f0 /\
    rows 440 f0 SysJust werckmeisterIIIPositions false Previous
         ["E4"; "D4"]%string no_caches = Some ([r1; r2], c') /\
    sysFrac r1 = [Chars "5/4"] /\ sysFrac r2 = [Chars "9/8"] /\
    distFrac r1 = None /\ distFrac r2 = Some [Chars "9/10"] /\
    distCents r2 = Some (toCents (9 / 5)).
Proof.
  destruct (comparador_E4_D4 werckmeisterIIIPositions false no_caches jr_empty)
    as (f0 & Hf & _ & (r1 & r2 & c' & Hr & H1 & H2 & _) & _).
  exists f0, r1, r2, c'. split; [exact Hf|]. split; [exact Hr|].
  destruct H1 as (_ & (_ & Hf1 & _) & Hd1 & _).
  destruct H2 as (_ & (_ & Hf2 & _) & Hd2 & Hc2). auto 10.
Defined.
(** * Further properties of the engine *)

(** ** Circular difference *)

Lemma signedDelta_eq r t (k : Z) :
  -600 <= t - r - 1200 * IZR k < 600 -> signedDelta r t = t - r - 1200 * IZR k.
Proof.
  intros H. rewrite signedDelta_pmod, (pmod_eq _ 1200 k) by lra. lra.
Qed.

Lemma signedDelta_floor r t :
  exists k : Z, signedDelta r t = t - r - 1200 * IZR k /\
                -600 <= t - r - 1200 * IZR k < 600.
Proof.
  exists (Zfloor ((t - r + 600) / 1200)).
  pose proof (signedDelta_range r t) as Hr.
  rewrite signedDelta_pmod, pmod_floor in * by lra. split; lra.
Qed.

(** X1: [signedDelta] is antisymmetric except on the boundary: swapping the
    arguments negates the result, unless the two pitches are exactly half an
    octave apart, where both orders give [-600]. *)
Theorem signedDelta_antisymmetric (a b : R) :
  (signedDelta a b = -600 /\ signedDelta b a = -600) \/
  (signedDelta a b <> -600 /\ signedDelta b a = - signedDelta a b).
Proof.
  destruct (signedDelta_floor a b) as (k & Hab & Hk).
  destruct (Req_dec (b - a - 1200 * IZR k) (-600)) as [He | Hne].
  - left. split; [lra|].
    rewrite (signedDelta_eq b a (1 - k)) by (rewrite minus_IZR; lra).
    rewrite minus_IZR. lra.
  - right. split; [lra|].
    rewrite (signedDelta_eq b a (- k)) by (rewrite opp_IZR; lra).
    rewrite opp_IZR. lra.
Qed.

(** X2: [signedDelta] sees pitch classes only: whole octaves added to either
    argument do not change it, and a pitch is at distance 0 from itself. *)
Theorem signedDelta_periodic (a b : R) (m n : Z) :
  signedDelta (a + 1200 * IZR m) (b + 1200 * IZR n) = signedDelta a b /\
  signedDelta a a = 0.
Proof.
  split.
  - destruct (signedDelta_floor a b) as (k & -> & Hk).
    rewrite (signedDelta_eq _ _ (n - m + k)); rewrite plus_IZR, minus_IZR; lra.
  - rewrite (signedDelta_eq a a 0); lra.
Qed.

(** ** Cents and ratios *)

(** X3: in the number model the two converters are inverse to each other:
    [toCents (fromCents c) = c] for every [c], [fromCents (toCents r) = r]
    for every positive ratio, and [fromCents] only yields positive ratios. *)
Theorem cents_ratio_inverse (c r : R) :
  0 < r ->
  toCents (fromCents c) = c /\ fromCents (toCents r) = r /\ 0 < fromCents c.
Proof.
  intros Hr. split; [|split].
  - unfold fromCents, Math_pow. rewrite toCents_log2, log2_pow2. lra.
  - apply fromCents_toCents. assumption.
  - apply Rpower_pos.
Qed.

Lemma cents_ratio_inverse_witness :
  toCents (fromCents 700) = 700 /\ fromCents (toCents (3 / 2)) = 3 / 2 /\ 0 < fromCents 700.
Proof. apply (cents_ratio_inverse 700 (3 / 2)). lra. Defined.

(** X4: [toCents] turns stacking of intervals into addition: the cents of a
    product (quotient) of positive ratios is the sum (difference) of their
    cents, doubling a ratio adds 1200, and a larger ratio has more cents. *)
Theorem toCents_stacks (x y : R) :
  0 < x -> 0 < y ->
  toCents (x * y) = toCents x + toCents y /\
  toCents (x / y) = toCents x - toCents y /\
  toCents (2 * x) = toCents x + 1200 /\
  (x < y -> toCents x < toCents y).
Proof.
  intros Hx Hy. rewrite !toCents_log2.
  rewrite log2_mult, log2_div, (log2_mult 2 x), log2_2 by lra.
  repeat split; try lra.
  intros Hlt. pose proof (log2_lt x y Hx Hlt). lra.
Qed.

Lemma toCents_stacks_witness :
  toCents (3 / 2 * (4 / 3)) = toCents (3 / 2) + toCents (4 / 3).
Proof. apply (toCents_stacks (3 / 2) (4 / 3)); lra. Defined.

(** ** Fractions *)

Lemma gcd_zero_iff (a b : Z) : Z.gcd a b = 0%Z <-> a = 0%Z /\ b = 0%Z.
Proof.
  split.
  - intros H. split; [apply (Z.gcd_eq_0_l a b H) | apply (Z.gcd_eq_0_r a b H)].
  - intros [-> ->]. reflexivity.
Qed.

(** X5: [gcdInt] is the greatest common divisor of its arguments, whatever
    their signs, except that it answers 1 instead of 0 when both are 0; so it
    is always at least 1 and divides both arguments. *)
Theorem gcdInt_spec (a b : Z) :
  gcdInt a b = (if ((a =? 0) && (b =? 0))%Z then 1 else Z.gcd a b)%Z /\
  (1 <= gcdInt a b)%Z /\
  (gcdInt a b | a)%Z /\ (gcdInt a b | b)%Z /\
  gcdInt a b = gcdInt b a.
Proof.
  assert (H : gcdInt a b = (if ((a =? 0) && (b =? 0))%Z then 1 else Z.gcd a b)%Z).
  { rewrite gcdInt_gcd. destruct (Z.gcd a b =? 0)%Z eqn:Hg.
    - apply Z.eqb_eq, gcd_zero_iff in Hg as [-> ->]. reflexivity.
    - apply Z.eqb_neq in Hg.
      destruct ((a =? 0) && (b =? 0))%Z eqn:Hab; [|reflexivity].
      apply andb_true_iff in Hab as [Ha Hb]. apply Z.eqb_eq in Ha, Hb. subst.
      contradiction Hg. reflexivity. }
  split; [exact H|].
  pose proof (Z.gcd_nonneg a b) as Hn.
  pose proof (Z.gcd_divide_l a b) as Hl. pose proof (Z.gcd_divide_r a b) as Hr.
  rewrite !gcdInt_gcd, (Z.gcd_comm b a).
  destruct (Z.gcd a b =? 0)%Z eqn:Hg.
  - apply Z.eqb_eq, gcd_zero_iff in Hg as [-> ->].
    repeat split; try lia; apply Z.divide_0_r.
  - apply Z.eqb_neq in Hg. repeat split; try assumption. lia.
Qed.

(** X6: [reduceFraction] puts a fraction in lowest terms: unless both parts
    are 0, the result is coprime, represents the same ratio (equal cross
    products), keeps the sign of each part, and reducing it again changes
    nothing. *)
Theorem reduceFraction_lowest_terms (n d : Z) :
  n <> 0%Z \/ d <> 0%Z ->
  let rn := fst (reduceFraction n d) in
  let rd := snd (reduceFraction n d) in
  Z.gcd rn rd = 1%Z /\ (rn * d = n * rd)%Z /\
  Z.sgn rn = Z.sgn n /\ Z.sgn rd = Z.sgn d /\
  reduceFraction rn rd = (rn, rd).
Proof.
  intros Hnz. cbn zeta.
  set (g := Z.gcd n d).
  assert (Hg0 : g <> 0%Z) by (unfold g; rewrite gcd_zero_iff; lia).
  assert (Hgpos : (0 < g)%Z) by (pose proof (Z.gcd_nonneg n d); unfold g in *; lia).
  destruct (Z.gcd_divide_l n d) as [qn Hqn]. destruct (Z.gcd_divide_r n d) as [qd Hqd].
  fold g in Hqn, Hqd.
  assert (Hred : reduceFraction n d = (qn, qd)).
  { unfold reduceFraction. rewrite gcdInt_gcd. fold g.
    apply Z.eqb_neq in Hg0 as Hgb. rewrite Hgb.
    f_equal; [rewrite Hqn at 1 | rewrite Hqd at 1]; apply Z.div_mul; lia. }
  rewrite Hred. cbn [fst snd].
  assert (Hco : Z.gcd qn qd = 1%Z).
  { assert (Hm : Z.gcd (qn * g) (qd * g) = (Z.gcd qn qd * g)%Z).
    { rewrite Z.gcd_mul_mono_r_nonneg by lia. reflexivity. }
    rewrite <- Hqn, <- Hqd in Hm. fold g in Hm. nia. }
  clearbody g.
  split; [assumption|]. split; [rewrite Hqn, Hqd; ring|].
  split; [rewrite Hqn, Z.sgn_mul, (Z.sgn_pos g) by lia; lia|].
  split; [rewrite Hqd, Z.sgn_mul, (Z.sgn_pos g) by lia; lia|].
  apply reduceFraction_coprime. assumption.
Qed.

Lemma reduceFraction_lowest_terms_witness :
  Z.gcd (fst (reduceFraction 36 (-40))) (snd (reduceFraction 36 (-40))) = 1%Z.
Proof. apply (reduceFraction_lowest_terms 36 (-40)). left. discriminate. Defined.

(** X7: [clamp x a b] with [a <= b] lies in [[a, b]], is [x] itself when [x]
    is already there, and clamping twice is clamping once. *)
Theorem clamp_range (x a b : R) :
  a <= b ->
  a <= clamp x a b <= b /\
  (a <= x <= b -> clamp x a b = x) /\
  clamp (clamp x a b) a b = clamp x a b.
Proof.
  intros Hab. unfold clamp, Rmin, Rmax.
  repeat destruct (Rle_dec _ _); repeat split; intros; lra.
Qed.

Lemma clamp_range_witness : 0 <= clamp 3 0 1 <= 1.
Proof. apply (clamp_range 3 0 1). lra. Defined.

(** ** Equal temperament *)

Lemma equalTempNearest_deviation_aux (c : R) :
  -50 < eq_cents (equalTempNearest c) - c <= 50 /\
  eq_ratio (equalTempNearest c) = Rpower 2 (IZR (Math_round (c / 100)) / 12).
Proof.
  unfold equalTempNearest. cbn [eq_cents eq_ratio].
  pose proof (Math_round_bound (c / 100)) as Hb. split; [lra|].
  unfold fromCents, Math_pow. apply (f_equal (Rpower 2)). lra.
Qed.

(** X8: the equal-tempered projection is never more than 50 cents away: the
    signed deviation [signedDelta c cents] that the tables show is
    [cents - c] and lies in (-50, 50]; projecting the result again changes
    nothing, and the ratio is [2^(steps/12)]. *)
Theorem equalTempNearest_deviation (c : R) :
  let e := equalTempNearest c in
  signedDelta c (eq_cents e) = eq_cents e - c /\
  -50 < eq_cents e - c <= 50 /\
  equalTempNearest (eq_cents e) = e /\
  eq_ratio e = Rpower 2 (IZR (eq_steps e) / 12).
Proof.
  cbn zeta.
  assert (He : equalTempNearest c
               = {| eq_cents := IZR (Math_round (c / 100)) * 100;
                    eq_ratio := fromCents (IZR (Math_round (c / 100)) * 100);
                    eq_steps := Math_round (c / 100) |}) by reflexivity.
  rewrite He. cbn [eq_cents eq_ratio eq_steps]. rewrite <- He. clear He.
  pose proof (Math_round_bound (c / 100)) as Hb.
  set (n := Math_round (c / 100)) in *.
  assert (Hd : -50 < IZR n * 100 - c <= 50) by lra.
  split; [rewrite (signedDelta_eq c (IZR n * 100) 0); lra|].
  split; [exact Hd|]. split.
  - unfold equalTempNearest. cbn [eq_cents].
    replace (IZR n * 100 / 100) with (IZR n) by lra.
    rewrite Math_round_IZR. fold n. reflexivity.
  - unfold fromCents, Math_pow. apply (f_equal (Rpower 2)). lra.
Qed.

(** ** The Werckmeister III circle *)

(** X9: the Werckmeister III list has one position per semitone: the
    position of index [i] is less than 16 cents below [100 * i] and never
    above it, so the positions are strictly increasing. *)
Theorem werckmeister_semitones :
  Forall2 (fun p i => 100 * INR i - 16 < p <= 100 * INR i)
          werckmeisterIIIPositions (seq 0 12) /\
  StronglySorted Rlt werckmeisterIIIPositions.
Proof.
  rewrite w3_positions_table. unfold w3_table. pose proof L3_bounds. split.
  - change (seq 0 12) with [0; 1; 2; 3; 4; 5; 6; 7; 8; 9; 10; 11]%nat.
    repeat (constructor; [simpl INR; lra|]). constructor.
  - repeat (constructor; [|repeat (constructor; [lra|]); constructor]).
    constructor.
Qed.

(** X10: the twelve fifths of the builder close the circle: four tempered
    and eight pure fifths add up to exactly seven octaves; the tempered fifth
    is narrower than the pure one by a quarter of the comma, which is
    positive. *)
Theorem werckmeister_circle_closes :
  fold_right Rplus 0 w3_sizes = 7 * 1200 /\
  List.length w3_sizes = 12%nat /\
  0 < quarterComma /\ temperedFifth = pureFifth - quarterComma /\
  temperedFifth < pureFifth.
Proof.
  pose proof L3_bounds. pose proof pureFifth_eq. pose proof temperedFifth_eq.
  assert (Hq : quarterComma = 300 * (12 * L3 - 19))
    by (unfold quarterComma; rewrite pythComma_eq; lra).
  split; [unfold w3_sizes; cbn [fold_right]; lra|].
  split; [reflexivity|]. split; [lra|]. split; [reflexivity | lra].
Qed.

(** ** The start-up tests *)

Lemma ltb_eq_true x y : x < y -> ltb x y = true.
Proof. apply ltb_true. Qed.

Lemma ltb_eq_false x y : y <= x -> ltb x y = false.
Proof. apply ltb_false. Qed.

Lemma approx_true a b t : Rabs (a - b) <= t -> approx a b t = true.
Proof. intros H. unfold approx, Math_abs. rewrite ltb_eq_false by exact H. reflexivity. Qed.

Lemma devColor_bands c :
  devColor c =
  (if Rlt_dec (Rabs c) 5 then "text-emerald-300"
   else if Rlt_dec (Rabs c) 15 then "text-amber-300" else "text-rose-300")%string.
Proof.
  unfold devColor, ltb, Math_abs.
  destruct (Rlt_dec (Rabs c) 5); [reflexivity|].
  destruct (Rlt_dec (Rabs c) 15); reflexivity.
Qed.

(** X11: none of the six [console.assert] calls that [App] runs at start-up
    fails: the pure fifth is within 0.8 of 701.955 cents, 386.3 cents project
    to exactly 400 in equal temperament, [signedDelta 1190 10] is exactly 20
    and the three colour bands are as tested. *)
Theorem app_assertions_hold :
  Forall (fun b => b = true) app_assertions /\
  signedDelta 1190 10 = 20 /\ 701.954 < toCents (3 / 2) < 701.961.
Proof.
  assert (H5 : toCents (3 / 2) = 1200 * (L3 - 1)) by apply pureFifth_eq.
  pose proof L3_bounds as HL.
  assert (Hd : signedDelta 1190 10 = 20)
    by (rewrite (signedDelta_eq 1190 10 (-1)); lra).
  split; [|split; [exact Hd | lra]].
  unfold app_assertions. cbn zeta.
  repeat match goal with |- Forall _ _ => constructor end.
  - apply approx_true. apply Rabs_le. lra.
  - unfold eqb_num, equalTempNearest. cbn [eq_cents].
    rewrite (Math_round_eq _ 4) by lra.
    destruct (Req_dec_T (IZR 4 * 100) 400) as [|Hn]; [reflexivity | lra].
  - apply approx_true. rewrite Hd. apply Rabs_le. lra.
  - rewrite devColor_bands. rewrite Rabs_R0.
    destruct (Rlt_dec 0 5); [reflexivity | lra].
  - rewrite devColor_bands. rewrite Rabs_pos_eq by lra.
    destruct (Rlt_dec 10 5); [lra|]. destruct (Rlt_dec 10 15); [reflexivity | lra].
  - rewrite devColor_bands. rewrite Rabs_pos_eq by lra.
    destruct (Rlt_dec 25 5); [lra|]. destruct (Rlt_dec 25 15); [lra | reflexivity].
Qed.

Lemma pow_lt_inv (x y : R) (n : nat) : 0 <= y -> x ^ n < y ^ n -> x < y.
Proof.
  intros Hy H. destruct (Rlt_dec x y) as [|Hn]; [assumption|]. exfalso.
  assert (y ^ n <= x ^ n) by (apply pow_incr; lra). lra.
Qed.

(** The tempered whole tone. *)
Lemma whole_tone_bounds : 1.122 < Rpower 2 (2 / 12) < 1.123.
Proof.
  set (y := Rpower 2 (2 / 12)).
  assert (Hy : 0 < y) by apply Rpower_pos.
  assert (H6 : y ^ 6 = 2).
  { unfold y. rewrite <- (Rpower_pow 6) by apply Rpower_pos.
    rewrite Rpower_mult. replace (2 / 12 * INR 6) with 1 by (simpl; lra).
    apply Rpower_1. lra. }
  split; apply (pow_lt_inv _ _ 6); try lra; rewrite H6; lra.
Qed.

(** X12: the [console.assert] call that [Comparador] runs at start-up does
    not fail: with C4 as the fundamental at 440 Hz the quotient of the
    reduced ratios of E4 and D4 is the tempered whole tone [2^(2/12)], which
    is between 0.010 and 0.012 above 10/9. *)
Theorem comparador_assertion_holds :
  comparador_assertion = Some true /\
  0.010 < Rpower 2 (2 / 12) - 10 / 9 < 0.012.
Proof.
  pose proof whole_tone_bounds as Hw. split; [|lra].
  unfold comparador_assertion.
  rewrite parse_C4, parse_E4, parse_D4. cbn [freq]. cbn zeta.
  rewrite !note_ratio by lra.
  change (-5 - -9)%Z with 4%Z. change (-7 - -9)%Z with 2%Z.
  destruct (reduce_pow2 (4 / 12)) as (-> & -> & _); [lra|].
  destruct (reduce_pow2 (2 / 12)) as (HfD & HrD & _); [lra|].
  rewrite HfD, HrD.
  assert (Hq : Rpower 2 (4 / 12) / Rpower 2 (2 / 12) = Rpower 2 (2 / 12)).
  { replace (4 / 12) with (2 / 12 + 2 / 12) by lra. rewrite Rpower_plus.
    field. lra. }
  rewrite Hq, HfD, HrD.
  apply f_equal, ltb_eq_true. unfold Math_abs. apply Rabs_def1; lra.
Qed.

(** ** The Werckmeister matcher on any list *)

(** The loop ends on an index of the list: either on the first position,
    whose plain distance no folded distance of a later position is below, or
    on a later position whose folded distance is below that plain distance
    and not above the folded distance of any other later position. *)
Lemma w3_best_elim t positions :
  positions <> [] ->
  exists i,
    (i < List.length positions)%nat /\
    wb_cents (w3_best t positions) = nth i positions 0 /\
    ((i = 0%nat /\
      forall k, (1 <= k < List.length positions)%nat ->
                Rabs (nth 0 positions 0 - t) <= w3_err t (nth k positions 0)) \/
     (w3_err t (nth i positions 0) < Rabs (nth 0 positions 0 - t) /\
      forall k, (1 <= k < List.length positions)%nat ->
                w3_err t (nth i positions 0) <= w3_err t (nth k positions 0))).
Proof.
  intros Hne.
  assert (Hlen : (1 <= List.length positions)%nat)
    by (destruct positions; [congruence | cbn; lia]).
  unfold w3_best. rewrite w3_best_fold.
  set (init := {| wb_idx := 0; wb_cents := nth 0 positions 0;
                  wb_err := Math_abs (nth 0 positions 0 - t) |}).
  destruct (first_min_elim (w3_mk t positions) (fun i => w3_err t (nth i positions 0))
              (fun b => Some (wb_err b)) (fun _ => eq_refl)
              (seq 1 (List.length positions - 1)) init)
    as [[Hr Hall] | (l1 & x & l2 & Hl & Hr & Hx & H1 & H2)].
  - exists 0%nat. rewrite Hr. split; [lia|]. split; [reflexivity|]. left.
    split; [reflexivity|]. intros k Hk.
    rewrite List.Forall_forall in Hall.
    specialize (Hall k). cbn [below wb_err init] in Hall.
    apply ltb_false. apply Hall. apply in_seq. lia.
  - assert (Hin : In x (seq 1 (List.length positions - 1)))
      by (rewrite Hl; apply in_or_app; right; left; reflexivity).
    apply in_seq in Hin.
    exists x. rewrite Hr. split; [lia|]. split; [reflexivity|]. right.
    cbn [below wb_err init] in Hx. apply ltb_true in Hx. split; [exact Hx|].
    intros k Hk.
    assert (Hk' : In k (l1 ++ x :: l2)) by (rewrite <- Hl; apply in_seq; lia).
    rewrite List.Forall_forall in H1, H2.
    apply in_app_or in Hk'. destruct Hk' as [Hk' | [<- | Hk']].
    + apply Rlt_le. apply H1. assumption.
    + lra.
    + apply H2. assumption.
Qed.

Lemma folded_range t p : folded t p <= Rabs (t - p).
Proof.
  unfold folded. destruct (Rlt_dec 600 (Rabs (t - p))); lra.
Qed.

(** X13: on any non-empty list whose first position is within 600 cents of
    the target, the Werckmeister search returns a position of the list of
    least folded distance to the target, with the ratio of its cents. *)
Theorem w3_search_nearest (t : R) (positions : list R) :
  positions <> [] ->
  Rabs (t - nth 0 positions 0) <= 600 ->
  let res := w3_search t positions in
  In (w3_cents res) positions /\
  Forall (fun p => folded t (w3_cents res) <= folded t p) positions /\
  w3_ratio res = fromCents (w3_cents res).
Proof.
  intros Hne H0. cbn zeta. unfold w3_search. cbn [w3_cents w3_ratio].
  destruct (w3_best_elim t positions Hne) as (i & Hi & -> & Hcase).
  split; [apply nth_In; assumption|]. split; [|reflexivity].
  assert (Hf0 : folded t (nth 0 positions 0) = Rabs (nth 0 positions 0 - t)).
  { unfold folded. rewrite (Rabs_minus_sym (nth 0 positions 0) t).
    destruct (Rlt_dec 600 (Rabs (t - nth 0 positions 0))); lra. }
  apply List.Forall_forall. intros p Hp.
  destruct (In_nth _ _ 0 Hp) as (k & Hk & <-).
  rewrite <- !w3_err_folded.
  destruct Hcase as [[-> Hall] | [Hlt Hall]].
  - destruct k as [|k]; [lra|].
    rewrite w3_err_folded at 1. rewrite Hf0. apply Hall. lia.
  - destruct k as [|k]; [|apply Hall; lia].
    rewrite (w3_err_folded t (nth 0 positions 0)), Hf0. lra.
Qed.

Lemma w3_search_nearest_witness :
  let res := w3_search 100 werckmeisterIIIPositions in
  In (w3_cents res) werckmeisterIIIPositions /\
  Forall (fun p => folded 100 (w3_cents res) <= folded 100 p) werckmeisterIIIPositions /\
  w3_ratio res = fromCents (w3_cents res).
Proof.
  apply (w3_search_nearest 100 werckmeisterIIIPositions).
  - rewrite w3_positions_table. discriminate.
  - rewrite w3_positions_table. cbn [nth w3_table].
    rewrite Rminus_0_r, Rabs_pos_eq; lra.
Defined.

(** ** The caches *)

Lemma memo_again {V : Type} (search search' : R -> V) t t' (cache : gmap Z V) :
  Math_round (t' * 1000) = Math_round (t * 1000) ->
  memo search' t' (snd (memo search t cache)) = memo search t cache.
Proof.
  intros Hk. rewrite (memo_hit search' t' _ (fst (memo search t cache))).
  - destruct (memo search t cache); reflexivity.
  - rewrite Hk. apply memo_binds.
Qed.

(** X14: a call of a memoised matcher whose target rounds, in thousandths
    of a cent, to the same integer as the target of the call before it
    returns what that call returned and leaves the cache as it is; for the
    Werckmeister matcher this holds whatever list the second call passes. *)
Theorem matchers_repeat_call (t t' : R) (positions positions' : list R)
    (cp : gmap Z PythResult) (cw : gmap Z W3Result) (cj : gmap Z JustResult) :
  Math_round (t' * 1000) = Math_round (t * 1000) ->
  nearestPythagorean t' (snd (nearestPythagorean t cp)) = nearestPythagorean t cp /\
  nearestJust t' (snd (nearestJust t cj)) = nearestJust t cj /\
  nearestWerckmeister t' positions' (snd (nearestWerckmeister t positions cw)) =
  nearestWerckmeister t positions cw.
Proof.
  intros Hk. rewrite nearestPythagorean_memo, nearestJust_memo, !nearestWerckmeister_memo.
  split; [|split]; apply memo_again; assumption.
Qed.

Lemma matchers_repeat_call_witness :
  nearestPythagorean 702.0001 (snd (nearestPythagorean 702 ∅)) = nearestPythagorean 702 ∅ /\
  nearestJust 702.0001 (snd (nearestJust 702 ∅)) = nearestJust 702 ∅ /\
  nearestWerckmeister 702.0001 [] (snd (nearestWerckmeister 702 werckmeisterIIIPositions ∅)) =
  nearestWerckmeister 702 werckmeisterIIIPositions ∅.
Proof.
  apply (matchers_repeat_call 702 702.0001 werckmeisterIIIPositions [] ∅ ∅ ∅).
  rewrite (Math_round_eq (702.0001 * 1000) 702000) by lra.
  rewrite (Math_round_eq (702 * 1000) 702000) by lra. reflexivity.
Defined.

(** ** Octave reduction *)




(** ** Invariants of the comparator rows *)

Lemma fundamental_positive fund a4 : 0 < a4 -> gt_zero (fundamental fund a4) = true.
Proof.
  intros Ha. unfold fundamental.
  destruct (freq (parseNoteOrHz fund a4)) as [v|] eqn:Hf.
  - apply (parseNoteOrHz_positive fund a4 v Ha Hf).
  - cbn [gt_zero]. apply ltb_eq_true. lra.
Qed.


Section RowFields.

Variables (a4 fFund : R) (sys : System) (w3Positions : list R)
          (realOct : bool) (distMode : DistMode).

Local Abbreviation step := (rows_step a4 fFund sys w3Positions realOct distMode).
Local Abbreviation loop := (rows_loop a4 fFund sys w3Positions realOct distMode).

(** The reference of the distance column before a target is processed. *)
Local Abbreviation reference st :=
  (match distMode with Previous => prevSysRatio st | First => firstSysRatio st end).

Lemma distance_none pr refFrac : distance pr None refFrac = (None, None).
Proof. reflexivity. Qed.

Lemma distance_some pr rr refFrac :
  exists s c, distance pr (Some rr) refFrac = (Some s, Some c).
Proof.
  unfold distance. destruct (p_pair pr) as [[n d]|]; [destruct refFrac as [[rfn rfd]|]|].
  - destruct (reduceFraction (n * rfd) (d * rfn)) as [rn rd]. eexists; eexists; reflexivity.
  - eexists; eexists; reflexivity.
  - eexists; eexists; reflexivity.
Qed.

(** What one iteration appends for a target that yields a row. *)
Lemma rows_step_fields st t f :
  row_freq a4 t = Some f ->
  exists st' row,
    step st t = Some st' /\
    out st' = out st ++ [row] /\
    hzTarget row = f /\
    ratioRed row = f / fFund / Math_pow 2 (IZR (Math_floor (log2 (f / fFund)))) /\
    centsEI row = toCents (ratioRed row) /\
    dev row = signedDelta (sysCents row) (centsEI row) /\
    sysCents row = p_cents (fst (project sys w3Positions (ratioRed row) (centsEI row)
                                         (caches st))) /\
    (distFrac row, distCents row) =
    distance (fst (project sys w3Positions (ratioRed row) (centsEI row) (caches st)))
             (reference st)
             (match distMode with Previous => prevFrac st | First => firstFrac st end) /\
    (exists x, firstSysRatio st' = Some x) /\
    (exists x, prevSysRatio st' = Some x) /\
    (forall x, firstSysRatio st = Some x -> firstSysRatio st' = Some x).
Proof.
  unfold rows_step, row_freq. cbv zeta.
  destruct (freq (parseNoteOrHz t a4)) as [[f'| | |]|]; try discriminate.
  cbn [falsy]. destruct (Req_dec_T f' 0); [discriminate|]. intros [= ->].
  destruct (project _ _ _ _ _) as [pr c'] eqn:Hpr.
  destruct distMode; destruct (distance pr _ _) as [df dc] eqn:Hd;
    destruct (firstSysRatio st) eqn:Hfs;
    (eexists; eexists; split; [reflexivity|];
     cbn [out hzTarget ratioRed centsEI dev sysCents distFrac distCents
          firstSysRatio prevSysRatio];
     split; [reflexivity|];
     cbn [hzTarget ratioRed centsEI dev sysCents distFrac distCents];
     rewrite Hpr; cbn [fst]; rewrite ?Hd;
     repeat (split; [reflexivity|]);
     split; [eexists; reflexivity|]; split; [eexists; reflexivity|];
     intros x Hx; congruence).
Qed.

(** The loop from a state: every target is either skipped or adds a row. *)
Lemma rows_loop_inv (P : CmpState -> Prop) l :
  Forall (finite_target a4) l ->
  Forall (fun t => forall st st' f,
            P st -> row_freq a4 t = Some f -> step st t = Some st' -> P st') l ->
  forall st, P st -> exists st', loop l st = Some st' /\ P st'.
Proof.
  intros Hfin Hstep. induction Hfin as [|t l Ht _ IH]; intros st Hst; cbn [rows_loop].
  - exists st. split; [reflexivity | assumption].
  - apply Forall_cons in Hstep as [Hs Hstep].
    destruct (row_freq a4 t) as [f|] eqn:Hf.
    + destruct (rows_step_row a4 fFund sys w3Positions realOct distMode st t f Hf)
        as (row & st1 & Hs1 & _).
      rewrite Hs1. apply (IH Hstep). exact (Hs st st1 f Hst eq_refl Hs1).
    + rewrite rows_step_skip by (apply row_freq_falsy; assumption).
      apply (IH Hstep). assumption.
Qed.


Lemma rows_step_distances st st' t f :
  distances_from_second st ->
  row_freq a4 t = Some f -> step st t = Some st' ->
  distances_from_second st'.
Proof.
  intros Hst Ht Hs.
  destruct (rows_step_fields st t f Ht)
    as (st1 & row & Hs1 & Hout & _ & _ & _ & _ & _ & Hd & (x1 & H1) & (x2 & H2) & Hkeep).
  rewrite Hs in Hs1. injection Hs1 as <-.
  unfold distances_from_second in *. rewrite Hout, H1, H2.
  destruct (out st) as [|r rs] eqn:Ho.
  - destruct Hst as [Hf Hp]. cbn [app].
    assert (Href : reference st = None) by (destruct distMode; assumption).
    rewrite Href, distance_none in Hd. injection Hd as -> ->.
    split; [split; reflexivity|]. split; [constructor|]. split; eexists; reflexivity.
  - destruct Hst as (Hr & Hrs & [y1 Hy1] & [y2 Hy2]). cbn [app].
    split; [assumption|]. split; [|split; eexists; reflexivity].
    apply Forall_app. split; [assumption|]. constructor; [|constructor].
    assert (Href : exists rr, reference st = Some rr)
      by (destruct distMode; eexists; eassumption).
    destruct Href as [rr Href]. rewrite Href in Hd.
    destruct (distance_some (fst (project sys w3Positions (ratioRed row) (centsEI row)
                                    (caches st))) rr
                (match distMode with Previous => prevFrac st | First => firstFrac st end))
      as (s & c & Hsc).
    rewrite Hsc in Hd. injection Hd as -> ->. split; eexists; reflexivity.
Qed.

End RowFields.




(** X16: whatever the system, the distance mode and the caches, and
    whatever the targets other than the literal of the infinity, the first
    row of the comparator has no distance and every later row has both a
    distance fraction and distance cents. *)
Theorem comparador_distance_from_second
    (a4 fFund : R) (sys : System) (w3Positions : list R) (realOct : bool)
    (distMode : DistMode) (targets : list string) (c : Caches) :
  no_infinity targets ->
  exists rs c',
    rows a4 fFund sys w3Positions realOct distMode targets c = Some (rs, c') /\
    match rs with
    | [] => True
    | r :: rs' =>
        distFrac r = None /\ distCents r = None /\
        Forall (fun r' => is_Some (distFrac r') /\ is_Some (distCents r')) rs'
    end.
Proof.
  intros Hinf. unfold rows.
  destruct (rows_loop_inv a4 fFund sys w3Positions realOct distMode
              distances_from_second targets
              (no_infinity_finite a4 _ Hinf)) with (st := rows_init c)
    as (st' & -> & H).
  - apply Forall_forall. intros t _ st st' f Hst Hrf Hs.
    apply (rows_step_distances a4 fFund sys w3Positions realOct distMode st st' t f);
      assumption.
  - split; reflexivity.
  - exists (out st'), (caches st'). split; [reflexivity|].
    unfold distances_from_second in H.
    destruct (out st') as [|r rs]; [exact I|].
    destruct H as ((H1 & H2) & H3 & _).
    split; [assumption|]. split; assumption.
Qed.

Lemma comparador_distance_from_second_witness :
  exists rs c',
    rows 440 261.63 SysW3 werckmeisterIIIPositions false First
         ["E4"; "x"; "D4"; "330,5"]%string no_caches = Some (rs, c') /\
    match rs with
    | [] => True
    | r :: rs' =>
        distFrac r = None /\ distCents r = None /\
        Forall (fun r' => is_Some (distFrac r') /\ is_Some (distCents r')) rs'
    end.
Proof.
  apply comparador_distance_from_second.
  repeat constructor; intros H; vm_compute in H; discriminate.
Defined.

(** ** The shape of a parse *)

Lemma double_rem_mod (m : Z) : Z.rem (Z.rem m 12 + 12) 12 = (m mod 12)%Z.
Proof.
  pose proof (Z.rem_bound_abs m 12). pose proof (Z.quot_rem' m 12).
  pose proof (Z.quot_rem' (Z.rem m 12 + 12) 12).
  pose proof (Z.rem_bound_abs (Z.rem m 12 + 12) 12).
  pose proof (Z.rem_sign_nz (Z.rem m 12 + 12) 12).
  pose proof (Z.mod_pos_bound m 12). pose proof (Z.div_mod m 12).
  assert (Hr : (0 <= Z.rem (Z.rem m 12 + 12) 12)%Z).
  { apply Z.rem_nonneg; lia. }
  lia.
Qed.


(** ** The harmonics: the reduced fraction of [n / 2^k] *)

Lemma floor_log2_Z (n : Z) :
  (1 <= n)%Z -> Math_floor (Math_log2 (IZR n)) = Z.log2 n.
Proof.
  intros Hn. change (Math_log2 (IZR n)) with (log2 (IZR n)). unfold Math_floor.
  destruct (Z.log2_spec n) as [Hlo Hhi]; [lia|].
  pose proof (Z.log2_nonneg n) as Hk.
  assert (Hp : forall k, (0 <= k)%Z -> log2 (IZR (2 ^ k)) = IZR k).
  { intros k Hk'. rewrite <- Rpower_IZR_nonneg by lia. apply log2_pow2. }
  assert (H0 : 0 < IZR (2 ^ Z.log2 n)) by (apply IZR_lt; lia).
  apply Zfloor_eq. split.
  - rewrite <- (Hp (Z.log2 n)) by assumption.
    apply log2_le; [assumption | apply IZR_le; assumption].
  - replace (IZR (Z.log2 n) + 1) with (IZR (Z.succ (Z.log2 n)))
      by (rewrite succ_IZR; reflexivity).
    rewrite <- (Hp (Z.succ (Z.log2 n))) by lia.
    apply log2_lt; [apply IZR_lt; lia | apply IZR_lt; assumption].
Qed.

Lemma harmonic_fraction_eq (n : Z) :
  (1 <= n)%Z -> harmonic_fraction n = reduceFraction n (2 ^ Z.log2 n).
Proof.
  intros Hn. unfold harmonic_fraction. rewrite floor_log2_Z by assumption.
  unfold Math_pow. change 2 with (IZR 2) at 1.
  rewrite Rpower_IZR_nonneg by (try lia; apply Z.log2_nonneg).
  rewrite Math_round_IZR. reflexivity.
Qed.

Lemma reduceFraction_gcd (n d : Z) :
  Z.gcd n d <> 0%Z -> reduceFraction n d = ((n / Z.gcd n d)%Z, (d / Z.gcd n d)%Z).
Proof.
  intros Hg. unfold reduceFraction. rewrite gcdInt_gcd.
  destruct (Z.gcd n d =? 0)%Z eqn:E; [apply Z.eqb_eq in E; contradiction | reflexivity].
Qed.

(** A positive divisor of a power of two is a power of two. *)
Lemma divide_pow2 (k g : Z) :
  (0 <= k)%Z -> (0 < g)%Z -> (g | 2 ^ k)%Z -> exists j, (0 <= j <= k)%Z /\ g = (2 ^ j)%Z.
Proof.
  intros Hk. revert g. pattern k. apply natlike_ind; [| |assumption].
  - intros g Hg Hd. exists 0%Z. split; [lia|].
    change (2 ^ 0)%Z with 1%Z in *. apply Z.divide_1_r_nonneg in Hd; lia.
  - intros x Hx IH g Hg Hd. rewrite Z.pow_succ_r in Hd by assumption.
    destruct (Z.even g) eqn:Ev.
    + apply Z.even_spec in Ev. destruct Ev as [g' ->].
      destruct (IH g') as (j & Hj & ->); [lia | |].
      * apply (Z.mul_divide_cancel_l _ _ 2); [lia | assumption].
      * exists (Z.succ j). split; [lia|]. rewrite Z.pow_succ_r by lia. reflexivity.
    + destruct (IH g) as (j & Hj & ->); [assumption | |].
      * apply (Z.gauss _ 2); [assumption|].
        rewrite <- Z.negb_odd in Ev. apply negb_false_iff in Ev.
        apply Z.odd_spec in Ev. destruct Ev as [m ->].
        replace (2 * m + 1)%Z with (1 + m * 2)%Z by lia.
        rewrite Z.gcd_comm, Z.gcd_add_mult_diag_r. reflexivity.
      * exists j. split; [lia | reflexivity].
Qed.

(** The reduced fraction of harmonic [n]: an odd numerator over a power of
    two, equal to [n / 2^k] for [k = floor(log2 n)]. *)
Lemma harmonic_fraction_facts (n : Z) :
  (1 <= n)%Z ->
  exists rn j,
    harmonic_fraction n = (rn, 2 ^ j)%Z /\
    (0 <= j <= Z.log2 n)%Z /\ Z.odd rn = true /\ (0 < rn)%Z /\
    n = (rn * 2 ^ (Z.log2 n - j))%Z /\
    (2 ^ j <= rn < 2 ^ (j + 1))%Z.
Proof.
  intros Hn. rewrite harmonic_fraction_eq by assumption.
  set (k := Z.log2 n).
  assert (Hk : (0 <= k)%Z) by apply Z.log2_nonneg.
  destruct (Z.log2_spec n) as [Hlo Hhi]; [lia|]. fold k in Hlo, Hhi.
  set (g := Z.gcd n (2 ^ k)).
  assert (Hg0 : (0 < g)%Z).
  { pose proof (Z.gcd_nonneg n (2 ^ k)).
    assert (g <> 0)%Z; [|unfold g in *; lia].
    unfold g. intros E. apply Z.gcd_eq_0_l in E. lia. }
  destruct (divide_pow2 k g Hk Hg0 (Z.gcd_divide_r n (2 ^ k))) as (i & Hi & Hgi).
  rewrite reduceFraction_gcd by (fold g; lia). fold g.
  assert (Hrd : (2 ^ k / g = 2 ^ (k - i))%Z).
  { rewrite Hgi. replace k with ((k - i) + i)%Z at 1 by lia.
    rewrite Z.pow_add_r by lia. apply Z.div_mul. lia. }
  destruct (Z.gcd_divide_l n (2 ^ k)) as [rn Hrn]. fold g in Hrn.
  assert (Hq : (n / g = rn)%Z) by (rewrite Hrn; apply Z.div_mul; lia).
  assert (Hco : Z.gcd rn (2 ^ (k - i)) = 1%Z).
  { rewrite <- Hq, <- Hrd. apply Z.gcd_div_gcd; [lia | reflexivity]. }
  assert (Hpos : (0 < rn)%Z) by nia.
  exists rn, (k - i)%Z. rewrite Hq, Hrd.
  split; [reflexivity|]. split; [lia|].
  replace (k - (k - i))%Z with i by lia. rewrite <- Hgi.
  assert (Hbounds : (2 ^ (k - i) <= rn < 2 ^ (k - i + 1))%Z).
  { assert (Hki : (2 ^ k = 2 ^ (k - i) * g)%Z).
    { rewrite Hgi, <- Z.pow_add_r by lia. f_equal. lia. }
    assert (Hki1 : (2 ^ Z.succ k = 2 ^ (k - i + 1) * g)%Z).
    { rewrite Hgi, <- Z.pow_add_r by lia. f_equal. lia. }
    split; nia. }
  split; [|split; [assumption|]; split; assumption].
  destruct (Z.eq_dec (k - i) 0)%Z as [E|E].
  - rewrite E in Hbounds. change (2 ^ 0)%Z with 1%Z in Hbounds.
    change (2 ^ (0 + 1))%Z with 2%Z in Hbounds.
    assert (Hr1 : rn = 1%Z) by lia. rewrite Hr1. reflexivity.
  - destruct (Z.odd rn) eqn:Od; [reflexivity|]. exfalso.
    rewrite <- Z.negb_even in Od. apply negb_false_iff in Od.
    apply Z.even_spec in Od. destruct Od as [m Hm].
    assert (H2 : (2 | Z.gcd rn (2 ^ (k - i)))%Z).
    { apply Z.gcd_greatest; [exists m; lia|].
      exists (2 ^ (k - i - 1))%Z.
      replace (k - i)%Z with (Z.succ (k - i - 1)) at 1 by lia.
      rewrite Z.pow_succ_r by lia. lia. }
    rewrite Hco in H2. apply Z.divide_1_r_nonneg in H2; lia.
Qed.

Lemma harmonic_ratio_eq (n : Z) :
  (1 <= n)%Z ->
  harmonic_ratio n = IZR n / IZR (2 ^ Z.log2 n) /\
  1 <= harmonic_ratio n < 2 /\
  0 <= toCents (harmonic_ratio n) < 1200.
Proof.
  intros Hn. unfold harmonic_ratio.
  destruct (harmonic_fraction_facts n Hn) as (rn & j & -> & Hj & _ & Hpos & Hfac & Hlo & Hhi).
  cbn [fst snd].
  assert (Hpj : 0 < IZR (2 ^ j)) by (apply IZR_lt; lia).
  assert (Hpd : 0 < IZR (2 ^ (Z.log2 n - j))) by (apply IZR_lt; lia).
  assert (Hk : (2 ^ Z.log2 n = 2 ^ j * 2 ^ (Z.log2 n - j))%Z).
  { rewrite <- Z.pow_add_r by lia. f_equal. lia. }
  assert (Hr : IZR rn / IZR (2 ^ j) = IZR n / IZR (2 ^ Z.log2 n)).
  { rewrite Hk, Hfac at 1. rewrite !mult_IZR. field. lra. }
  assert (H12 : 1 <= IZR rn / IZR (2 ^ j) < 2).
  { apply IZR_le in Hlo. apply IZR_lt in Hhi.
    rewrite Z.pow_add_r, mult_IZR in Hhi by lia. change (IZR (2 ^ 1)) with 2 in Hhi.
    split.
    - apply Rmult_le_reg_r with (IZR (2 ^ j)); [assumption|].
      unfold Rdiv. rewrite Rmult_assoc, Rinv_l by lra. lra.
    - apply Rmult_lt_reg_r with (IZR (2 ^ j)); [assumption|].
      unfold Rdiv. rewrite Rmult_assoc, Rinv_l by lra. lra. }
  split; [assumption|]. split; [assumption|].
  rewrite toCents_log2.
  assert (0 <= log2 (IZR rn / IZR (2 ^ j)) < 1); [|lra].
  split.
  - rewrite <- log2_1. apply log2_le; lra.
  - rewrite <- log2_2. apply log2_lt; lra.
Qed.

(** Harmonic [2 n] reduces to the same fraction as harmonic [n]. *)
Lemma harmonic_fraction_double (n : Z) :
  (1 <= n)%Z -> harmonic_fraction (2 * n) = harmonic_fraction n.
Proof.
  intros Hn. rewrite !harmonic_fraction_eq by lia.
  rewrite Z.log2_double by lia. rewrite Z.pow_succ_r by apply Z.log2_nonneg.
  assert (Hg : Z.gcd n (2 ^ Z.log2 n) <> 0%Z).
  { intros E. apply Z.gcd_eq_0_l in E. lia. }
  pose proof (Z.gcd_nonneg n (2 ^ Z.log2 n)).
  rewrite !reduceFraction_gcd; rewrite ?Z.gcd_mul_mono_l_nonneg by lia; [|lia|lia].
  rewrite !Z.div_mul_cancel_l by lia. reflexivity.
Qed.

(** ** The table of harmonics *)

Section Harmonics.

Variables (baseFreq : R) (w3Positions : list R).

Local Abbreviation hstep := (harmonic_step baseFreq w3Positions).

(** One iteration appends one row; its columns that do not go through a
    cache, the calls that give the others, and the caches afterwards. *)
Lemma harmonic_step_row rows c n :
  exists r,
    hstep (rows, c) n =
    (rows ++ [r],
     {| pythCache := snd (nearestPythagorean (hj_cents (h_just r)) (pythCache c));
        w3Cache := snd (nearestWerckmeister (hj_cents (h_just r)) w3Positions (w3Cache c));
        justCache := justCache c |}) /\
    h_n r = n /\ harmonicHz r = baseFreq * IZR n /\
    h_just r = harmonic_just n /\ h_equal r = harmonic_equal baseFreq n /\
    pyth_of_row r = fst (nearestPythagorean (hj_cents (h_just r)) (pythCache c)) /\
    w3_of_row r = fst (nearestWerckmeister (hj_cents (h_just r)) w3Positions (w3Cache c)) /\
    hp_freqBase (h_pyth r) = baseFreq * hp_ratioVal (h_pyth r) /\
    hp_delta (h_pyth r) = signedDelta (hj_cents (h_just r)) (hp_cents (h_pyth r)) /\
    hw_freqBase (h_w3 r) = baseFreq * hw_ratioVal (h_w3 r) /\
    hw_delta (h_w3 r) = signedDelta (hj_cents (h_just r)) (hw_cents (h_w3 r)).
Proof.
  unfold harmonic_step, harmonic_just, harmonic_equal, harmonic_ratio, harmonic_fraction.
  cbv zeta.
  destruct (reduceFraction n _) as [rn rd]. cbn [fst snd].
  destruct (nearestPythagorean _ (pythCache c)) as [p pcache] eqn:Hp.
  destruct (nearestWerckmeister _ w3Positions (w3Cache c)) as [w wcache] eqn:Hw.
  match goal with |- exists r, (_ ++ [?R], _) = _ /\ _ => exists R end.
  split; [|cbn [h_n harmonicHz h_just h_equal h_pyth h_w3 hj_cents];
                    rewrite Hp, Hw; cbn [fst snd]; unfold pyth_of_row, w3_of_row;
                    cbn [h_pyth h_w3 hp_cents hp_ratioVal hp_fraction hp_freqBase hp_delta
                         hw_cents hw_ratioVal hw_freqBase hw_delta];
                    destruct p, w; repeat (split; [reflexivity|]); reflexivity].
  cbn [h_just hj_cents]. rewrite Hp, Hw. reflexivity.
Qed.

Lemma harmonics_fold l st :
  exists new,
    fst (fold_left hstep l st) = fst st ++ new /\
    Forall2 (fun r n => h_n r = n /\ harmonicHz r = baseFreq * IZR n /\
                        h_just r = harmonic_just n /\
                        h_equal r = harmonic_equal baseFreq n) new l /\
    justCache (snd (fold_left hstep l st)) = justCache (snd st).
Proof.
  revert st. induction l as [|n l IH]; intros st; cbn [fold_left].
  - exists []. rewrite app_nil_r. split; [reflexivity|]. split; [constructor | reflexivity].
  - destruct st as [rows c].
    destruct (harmonic_step_row rows c n) as (r & -> & Hn & Hhz & Hj & He & _).
    destruct (IH (rows ++ [r],
                  {| pythCache := snd (nearestPythagorean (hj_cents (h_just r)) (pythCache c));
                     w3Cache := snd (nearestWerckmeister (hj_cents (h_just r)) w3Positions
                                       (w3Cache c));
                     justCache := justCache c |}))
      as (new & -> & Hall & Hjc).
    exists (r :: new). cbn [fst snd] in *. rewrite <- app_assoc. cbn [app].
    split; [reflexivity|]. split; [|exact Hjc].
    constructor; [|exact Hall]. auto.
Qed.

Lemma harmonics_fold_cached l st :
  rows_cached baseFreq st -> rows_repeat (fst st) ->
  Forall (fun r => Forall (fun n => (h_n r < n)%Z) l) (fst st) ->
  StronglySorted Z.lt l ->
  rows_cached baseFreq (fold_left hstep l st) /\ rows_repeat (fst (fold_left hstep l st)).
Proof.
  revert st. induction l as [|n l IH]; intros st Hc Hrep Hlt Hs; cbn [fold_left].
  - split; assumption.
  - destruct st as [rows c]. cbn [fst snd] in *.
    destruct (harmonic_step_row rows c n)
      as (r & Hst & Hn & _ & _ & _ & Hp & Hw & Hpf & Hpd & Hwf & Hwd).
    rewrite Hst. apply StronglySorted_inv in Hs as [Hs Hnl].
    rewrite nearestPythagorean_memo in *. rewrite nearestWerckmeister_memo in *.
    apply IH; cbn [fst snd].
    + unfold rows_cached in *. cbn [fst snd pythCache w3Cache] in *.
      apply Forall_app. split.
      * eapply Forall_impl; [exact Hc|]. cbn beta.
        intros r0 (H1 & H2 & H3). split; [|split; [|exact H3]].
        -- apply memo_keeps. exact H1.
        -- apply memo_keeps. exact H2.
      * constructor; [|constructor]. unfold cents_key. rewrite Hp, Hw.
        split; [apply memo_binds|]. split; [apply memo_binds|]. auto.
    + intros r1 r2 H1 H2 Hlt12 Hcents.
      apply in_app_or in H1. apply in_app_or in H2.
      assert (Hold : forall r0, In r0 rows -> (h_n r0 < n)%Z).
      { intros r0 H0. rewrite List.Forall_forall in Hlt. specialize (Hlt r0 H0).
        apply Forall_inv in Hlt. exact Hlt. }
      destruct H1 as [H1 | [<- | []]]; destruct H2 as [H2 | [<- | []]].
      * apply Hrep; assumption.
      * unfold rows_cached in Hc. cbn [fst snd] in Hc.
        rewrite List.Forall_forall in Hc.
        destruct (Hc r1 H1) as (Hc1 & Hc2 & Hf1 & Hd1 & Hf2 & Hd2).
        unfold cents_key in Hc1, Hc2. rewrite <- Hcents in Hc1, Hc2.
        rewrite (memo_hit _ _ _ _ Hc1) in Hp. rewrite (memo_hit _ _ _ _ Hc2) in Hw.
        cbn [fst] in Hp, Hw. unfold pyth_of_row in Hp. unfold w3_of_row in Hw.
        injection Hp as Hp1 Hp2 Hp3. injection Hw as Hw1 Hw2.
        rewrite Hcents, Hp1, Hp2 in *. rewrite Hw1, Hw2 in *.
        rewrite <- Hf1 in Hpf. rewrite <- Hd1 in Hpd.
        rewrite <- Hf2 in Hwf. rewrite <- Hd2 in Hwd.
        clear - Hp1 Hp2 Hp3 Hw1 Hw2 Hpf Hpd Hwf Hwd.
        destruct (h_pyth r1), (h_pyth r), (h_w3 r1), (h_w3 r). cbn in *.
        subst. split; reflexivity.
      * specialize (Hold r2 H2). lia.
      * lia.
    + apply Forall_app. split.
      * eapply Forall_impl; [exact Hlt|]. cbn beta. intros r0 H0.
        apply Forall_inv_tail in H0. exact H0.
      * constructor; [|constructor]. rewrite Hn. exact Hnl.
    + exact Hs.
Qed.

End Harmonics.

Lemma Forall2_numbered {A : Type} (num : A -> Z) (Q : A -> Z -> Prop) new l :
  Forall2 (fun r n => num r = n /\ Q r n) new l ->
  map num new = l /\ Forall (fun r => In (num r) l /\ Q r (num r)) new.
Proof.
  induction 1 as [|r n new l [Hn HQ] _ [IH1 IH2]]; [split; constructor|].
  cbn [map]. subst n. rewrite IH1. split; [reflexivity|].
  constructor; [split; [left; reflexivity | assumption]|].
  eapply Forall_impl; [exact IH2|]. cbn beta. intros r0 [H1 H2].
  split; [right; assumption | assumption].
Qed.

(** The rows are numbered from 1 to [max(1, count)], and the columns of row
    [n] that do not go through a cache are those of [n]. *)
Lemma harmonics_rows baseFreq count w3Positions c :
  map h_n (fst (harmonics baseFreq count w3Positions c)) = seqZ 1 (Z.max 1 count) /\
  Forall (fun r => (1 <= h_n r <= Z.max 1 count)%Z /\
                   harmonicHz r = baseFreq * IZR (h_n r) /\
                   h_just r = harmonic_just (h_n r) /\
                   h_equal r = harmonic_equal baseFreq (h_n r))
         (fst (harmonics baseFreq count w3Positions c)) /\
  justCache (snd (harmonics baseFreq count w3Positions c)) = justCache c.
Proof.
  unfold harmonics.
  destruct (harmonics_fold baseFreq w3Positions (seqZ 1 (Z.max 1 count)) ([], c))
    as (new & -> & Hall & Hjc).
  cbn [fst snd app] in *.
  apply (Forall2_numbered h_n
           (fun r n => harmonicHz r = baseFreq * IZR n /\
                       h_just r = harmonic_just n /\
                       h_equal r = harmonic_equal baseFreq n)) in Hall.
  destruct Hall as [Hm Hall]. split; [assumption|]. split; [|assumption].
  eapply Forall_impl; [exact Hall|]. cbn beta. intros r [Hin H].
  split; [|exact H]. apply list_elem_of_In, elem_of_seqZ in Hin. lia.
Qed.

(** X18: the table of harmonics has [max(1, count)] rows, so at least one
    whatever the count; they are numbered 1, 2, ... in order, the frequency
    of row [n] is [n] times the base frequency, and building the table
    leaves the cache of the Just matcher as it is. *)
Theorem harmonics_numbered (baseFreq : R) (count : Z) (w3Positions : list R) (c : Caches) :
  let rows := fst (harmonics baseFreq count w3Positions c) in
  map h_n rows = seqZ 1 (Z.max 1 count) /\
  List.length rows = Z.to_nat (Z.max 1 count) /\
  (1 <= List.length rows)%nat /\
  Forall (fun r => harmonicHz r = baseFreq * IZR (h_n r)) rows /\
  justCache (snd (harmonics baseFreq count w3Positions c)) = justCache c.
Proof.
  cbn zeta. destruct (harmonics_rows baseFreq count w3Positions c) as (Hm & Hall & Hjc).
  assert (Hlen : List.length (fst (harmonics baseFreq count w3Positions c))
                 = Z.to_nat (Z.max 1 count)).
  { rewrite <- (length_map h_n), Hm. apply length_seqZ. }
  split; [assumption|]. split; [assumption|]. split; [lia|]. split; [|assumption].
  eapply Forall_impl; [exact Hall|]. cbn beta. intros r (_ & H & _). exact H.
Qed.

(** X19: in every row of the table of harmonics the Just column holds the
    fraction of [n / 2^k], [k = floor(log2 n)], in lowest terms: an odd
    numerator over a power of two, with [n] the numerator times a power of
    two; its value lies in [1, 2), its cents in [0, 1200), and the frequency
    of the harmonic is the base frequency times that value times [2^k]. *)
Theorem harmonics_just_column (baseFreq : R) (count : Z) (w3Positions : list R)
    (c : Caches) :
  Forall (fun r =>
            exists rn j : Z,
              hj_ratio (h_just r) = (string_of_Z rn ++ "/" ++ string_of_Z (2 ^ j))%string /\
              Z.odd rn = true /\ (0 <= j <= Z.log2 (h_n r))%Z /\
              h_n r = (rn * 2 ^ (Z.log2 (h_n r) - j))%Z /\
              hj_ratioVal (h_just r) = IZR rn / IZR (2 ^ j) /\
              1 <= hj_ratioVal (h_just r) < 2 /\
              hj_cents (h_just r) = toCents (hj_ratioVal (h_just r)) /\
              0 <= hj_cents (h_just r) < 1200 /\
              harmonicHz r = baseFreq * hj_ratioVal (h_just r) * IZR (2 ^ Z.log2 (h_n r)))
         (fst (harmonics baseFreq count w3Positions c)).
Proof.
  destruct (harmonics_rows baseFreq count w3Positions c) as (_ & Hall & _).
  eapply Forall_impl; [exact Hall|]. cbn beta. intros r (Hn & Hhz & Hj & _).
  assert (H1 : (1 <= h_n r)%Z) by lia.
  destruct (harmonic_fraction_facts (h_n r) H1) as (rn & j & Hf & Hjk & Hodd & _ & Hfac & _).
  destruct (harmonic_ratio_eq (h_n r) H1) as (Hr & H12 & Hc).
  exists rn, j. rewrite Hj, Hhz. unfold harmonic_just. cbn [hj_ratio hj_ratioVal hj_cents].
  rewrite formatRatio_eq. unfold harmonic_ratio in *. rewrite Hf in *. cbn [fst snd] in *.
  split; [reflexivity|]. split; [assumption|]. split; [assumption|]. split; [assumption|].
  split; [reflexivity|]. split; [assumption|]. split; [reflexivity|]. split; [assumption|].
  rewrite Hr. assert (0 < IZR (2 ^ Z.log2 (h_n r))) by (apply IZR_lt; lia).
  field. lra.
Qed.

(** The equal-tempered projection of cents in [0, 1200). *)
Lemma equal_steps_range cents :
  0 <= cents < 1200 -> (0 <= Math_round (cents / 100) <= 12)%Z.
Proof.
  intros Hc. pose proof (Math_round_bound (cents / 100)) as Hb.
  split.
  - apply le_IZR. destruct (Rle_dec 0 (IZR (Math_round (cents / 100)))) as [|Hn];
      [assumption|]. exfalso.
    assert (Hlt : (Math_round (cents / 100) < 0)%Z) by (apply lt_IZR; lra).
    assert (Hle : (Math_round (cents / 100) <= -1)%Z) by lia.
    apply IZR_le in Hle. lra.
  - apply Z.lt_succ_r. apply lt_IZR. rewrite succ_IZR. lra.
Qed.

Lemma log2_63 : 149 / 25 < log2 63 < 6.
Proof.
  split.
  - apply (log2_lower 63 149 25); [lia | lia | lia | reflexivity].
  - replace 6 with (6 / 1) by lra.
    apply (log2_upper 63 6 1); [lia | lia | lia | reflexivity].
Qed.

Lemma harmonic_63_equal baseFreq :
  he_cents (harmonic_equal baseFreq 63) = 1200 /\
  he_ratioVal (harmonic_equal baseFreq 63) = 2.
Proof.
  destruct (harmonic_ratio_eq 63) as (Hr & _ & _); [lia|].
  change (Z.log2 63) with 5%Z in Hr. change (2 ^ 5)%Z with 32%Z in Hr.
  assert (Hc : toCents (harmonic_ratio 63) = 1200 * (log2 63 - 5)).
  { rewrite Hr, toCents_log2, log2_div by lra.
    change 32 with (IZR (2 ^ 5)). rewrite <- (Rpower_IZR_nonneg 2 5) by lia.
    change (IZR 2) with 2. rewrite log2_pow2. reflexivity. }
  pose proof log2_63 as H63.
  unfold harmonic_equal, equalTempNearest. cbn [he_cents he_ratioVal eq_cents eq_ratio].
  rewrite Hc, (Math_round_eq _ 12) by lra.
  split; [lra|]. unfold fromCents, Math_pow.
  replace (IZR 12 * 100 / 1200) with 1 by lra. apply Rpower_1. lra.
Qed.

(** X20: in every row of the table of harmonics the equal-tempered column
    is a whole number of semitones from 0 to 12 with the ratio
    [2^(steps/12)], its deviation is the plain difference to the Just cents
    and lies in (-50, 50], and its base frequency is the base frequency
    times the ratio.  Twelve semitones are reached: from 63 rows on, row 63
    holds 1200 cents with the ratio 2, outside the base octave. *)
Theorem harmonics_equal_column (baseFreq : R) (count : Z) (w3Positions : list R)
    (c : Caches) :
  let rows := fst (harmonics baseFreq count w3Positions c) in
  Forall (fun r =>
            let e := h_equal r in
            he_delta e = he_cents e - hj_cents (h_just r) /\
            -50 < he_delta e <= 50 /\
            he_freqBase e = baseFreq * he_ratioVal e /\
            exists steps : Z,
              (0 <= steps <= 12)%Z /\ he_cents e = 100 * IZR steps /\
              he_ratioVal e = Rpower 2 (IZR steps / 12)) rows /\
  ((63 <= count)%Z ->
   exists r, In r rows /\ h_n r = 63%Z /\
             he_cents (h_equal r) = 1200 /\ he_ratioVal (h_equal r) = 2).
Proof.
  cbn zeta. destruct (harmonics_rows baseFreq count w3Positions c) as (Hm & Hall & _).
  split.
  - eapply Forall_impl; [exact Hall|]. cbn beta. intros r (Hn & _ & Hj & He).
    assert (H1 : (1 <= h_n r)%Z) by lia.
    destruct (harmonic_ratio_eq (h_n r) H1) as (_ & _ & Hc).
    rewrite He, Hj. unfold harmonic_equal, harmonic_just.
    cbn [he_delta he_cents he_ratioVal he_freqBase hj_cents].
    set (cj := toCents (harmonic_ratio (h_n r))) in *.
    destruct (equalTempNearest_deviation_aux cj) as (Hd & Hr).
    unfold equalTempNearest in *. cbn [eq_cents eq_ratio] in *.
    pose proof (equal_steps_range cj Hc) as Hs.
    split; [rewrite (signedDelta_eq cj _ 0); lra|].
    split; [rewrite (signedDelta_eq cj _ 0); lra|].
    split; [reflexivity|].
    exists (Math_round (cj / 100)). split; [assumption|]. split; [lra|]. exact Hr.
  - intros Hc.
    assert (Hin : In 63%Z (map h_n (fst (harmonics baseFreq count w3Positions c)))).
    { rewrite Hm. apply list_elem_of_In, elem_of_seqZ. lia. }
    apply in_map_iff in Hin. destruct Hin as (r & Hn & Hin).
    rewrite List.Forall_forall in Hall. destruct (Hall r Hin) as (_ & _ & _ & He).
    exists r. split; [assumption|]. split; [assumption|].
    rewrite He, Hn. apply harmonic_63_equal.
Qed.

Lemma harmonics_equal_column_witness :
  exists r, In r (fst (harmonics 440 63 werckmeisterIIIPositions no_caches)) /\
            h_n r = 63%Z /\
            he_cents (h_equal r) = 1200 /\ he_ratioVal (h_equal r) = 2.
Proof.
  apply (harmonics_equal_column 440 63 werckmeisterIIIPositions no_caches). lia.
Defined.

Lemma seqZ_sorted (m n : Z) : StronglySorted Z.lt (seqZ m n).
Proof.
  destruct (Z.le_gt_cases 0 n) as [Hn|Hn].
  - revert m. pattern n. apply natlike_ind; [| |assumption].
    + intros m. constructor.
    + intros x Hx IH m. rewrite seqZ_cons by lia.
      replace (Z.pred (Z.succ x)) with x by lia.
      constructor; [apply IH|].
      apply List.Forall_forall. intros y Hy.
      apply list_elem_of_In, elem_of_seqZ in Hy. lia.
  - unfold seqZ. replace (Z.to_nat n) with 0%nat by lia. constructor.
Qed.

Lemma harmonic_just_double (n : Z) :
  (1 <= n)%Z -> harmonic_just (2 * n) = harmonic_just n.
Proof.
  intros Hn. unfold harmonic_just, harmonic_ratio.
  rewrite harmonic_fraction_double by assumption. reflexivity.
Qed.

Lemma harmonic_equal_double baseFreq (n : Z) :
  (1 <= n)%Z -> harmonic_equal baseFreq (2 * n) = harmonic_equal baseFreq n.
Proof.
  intros Hn. unfold harmonic_equal, harmonic_ratio.
  rewrite harmonic_fraction_double by assumption. reflexivity.
Qed.

(** X21: in one table of harmonics the row of harmonic [2 n] repeats every
    column of the row of harmonic [n] but the number and the frequency, which
    doubles: the same fraction, cents and equal-tempered projection, and,
    whatever the caches held before, the same Pythagorean and Werckmeister
    columns, which the second row takes from the cache. *)
Theorem harmonics_octave_rows (baseFreq : R) (count : Z) (w3Positions : list R)
    (c : Caches) (r r' : Harmonic) :
  In r (fst (harmonics baseFreq count w3Positions c)) ->
  In r' (fst (harmonics baseFreq count w3Positions c)) ->
  h_n r' = (2 * h_n r)%Z ->
  harmonicHz r' = 2 * harmonicHz r /\
  h_just r' = h_just r /\ h_equal r' = h_equal r /\
  h_pyth r' = h_pyth r /\ h_w3 r' = h_w3 r.
Proof.
  intros Hr Hr' Hn.
  destruct (harmonics_rows baseFreq count w3Positions c) as (_ & Hall & _).
  rewrite List.Forall_forall in Hall.
  destruct (Hall r Hr) as (H1 & Hhz & Hj & He).
  destruct (Hall r' Hr') as (_ & Hhz' & Hj' & He').
  assert (Hjj : h_just r' = h_just r)
    by (rewrite Hj', Hj, Hn; apply harmonic_just_double; lia).
  split; [rewrite Hhz', Hhz, Hn, mult_IZR; lra|].
  split; [assumption|].
  split; [rewrite He', He, Hn; apply harmonic_equal_double; lia|].
  destruct (harmonics_fold_cached baseFreq w3Positions (seqZ 1 (Z.max 1 count)) ([], c))
    as [_ Hrep].
  - constructor.
  - intros ? ? [].
  - constructor.
  - apply seqZ_sorted.
  - apply (Hrep r r' Hr Hr'); [lia|]. rewrite Hjj. reflexivity.
Qed.

Lemma harmonics_octave_rows_witness :
  exists r r',
    In r (fst (harmonics 440 2 werckmeisterIIIPositions no_caches)) /\
    In r' (fst (harmonics 440 2 werckmeisterIIIPositions no_caches)) /\
    h_n r = 1%Z /\ h_n r' = 2%Z /\
    harmonicHz r' = 2 * harmonicHz r /\
    h_just r' = h_just r /\ h_equal r' = h_equal r /\
    h_pyth r' = h_pyth r /\ h_w3 r' = h_w3 r.
Proof.
  destruct (harmonics_rows 440 2 werckmeisterIIIPositions no_caches) as (Hm & _ & _).
  destruct (fst (harmonics 440 2 werckmeisterIIIPositions no_caches))
    as [|r [|r' [|r'' rows]]] eqn:E; try discriminate Hm.
  injection Hm as H1 H2.
  exists r, r'. split; [left; reflexivity|]. split; [right; left; reflexivity|].
  split; [assumption|]. split; [assumption|].
  apply (harmonics_octave_rows 440 2 werckmeisterIIIPositions no_caches r r').
  - rewrite E. left. reflexivity.
  - rewrite E. right. left. reflexivity.
  - rewrite H1, H2. reflexivity.
Defined.

(** ** The base frequency and the note column *)

(** X22: for a positive [a4] the base frequency of the table is positive:
    it is the parsed frequency when the input parses, and the fallback
    261.625565 Hz otherwise, which is within 0.0001 Hz of what the input C4
    gives at 440 Hz. *)
Theorem baseFreq_fallback (input : string) (a4 : R) :
  0 < a4 ->
  gt_zero (baseFreq input a4) = true /\
  (forall v, freq (parseNoteOrHz input a4) = Some v -> baseFreq input a4 = v) /\
  (freq (parseNoteOrHz input a4) = None -> baseFreq input a4 = Num 261.625565) /\
  exists c4, baseFreq "C4" 440 = Num c4 /\ Rabs (261.625565 - c4) < 0.0001.
Proof.
  intros Ha.
  assert (Hsome : forall s a v, 0 < a -> freq (parseNoteOrHz s a) = Some v ->
                                baseFreq s a = v /\ gt_zero v = true).
  { intros s a v Hpos Hf. pose proof (parseNoteOrHz_positive s a v Hpos Hf) as Hp.
    unfold baseFreq. cbv zeta. rewrite Hf. split; [|assumption].
    destruct v as [x| | |]; cbn [gt_zero falsy] in *; try discriminate; try reflexivity.
    apply ltb_true in Hp. destruct (Req_dec_T x 0); [lra | reflexivity]. }
  split; [|split; [|split]].
  - destruct (freq (parseNoteOrHz input a4)) as [v|] eqn:Hf.
    + destruct (Hsome input a4 v Ha Hf) as [-> Hp]. assumption.
    + unfold baseFreq. cbv zeta. rewrite Hf. cbn [gt_zero]. apply ltb_eq_true. lra.
  - intros v Hf. apply (Hsome input a4 v Ha Hf).
  - intros Hf. unfold baseFreq. cbv zeta. rewrite Hf. reflexivity.
  - pose proof C4_value as Hv.
    exists (440 * Math_pow 2 (IZR (-9) / 12)). split.
    + apply (Hsome "C4"%string 440); [lra | rewrite parse_C4; reflexivity].
    + apply Rabs_def1; lra.
Qed.

Lemma baseFreq_fallback_witness :
  gt_zero (baseFreq "nota" 440) = true /\ baseFreq "nota" 440 = Num 261.625565.
Proof.
  destruct (baseFreq_fallback "nota" 440) as (Hp & _ & Hn & _); [lra|].
  split; [exact Hp|]. apply Hn. apply parseNoteOrHz_none. split.
  - intros (v & H & _). vm_compute in H. discriminate.
  - intros (L & acc & o & idx & H & _). vm_compute in H. discriminate.
Defined.

(** X23: the note column of the export is always defined: for every base
    pitch class and every row the index [(pc + 12) % 12] is the residue of
    [basePc + steps] modulo 12 in 0..11, also when the sum is negative, and
    the name is the entry of [PC_NAMES] at that index. *)
Theorem harmonic_note_defined (basePcLocal : Z) (row : Harmonic) :
  let steps := Math_round (hj_cents (h_just row) / 100) in
  let i := ((basePcLocal + steps) mod 12)%Z in
  Z.rem (Z.rem (basePcLocal + steps) 12 + 12) 12 = i /\
  (0 <= i < 12)%Z /\
  exists name, harmonic_note basePcLocal row = Some name /\
               nth_error PC_NAMES (Z.to_nat i) = Some name.
Proof.
  cbn zeta. unfold harmonic_note. cbv zeta. rewrite double_rem_mod.
  set (i := ((basePcLocal + Math_round (hj_cents (h_just row) / 100)) mod 12)%Z).
  assert (Hi : (0 <= i < 12)%Z) by (apply Z.mod_pos_bound; lia).
  split; [reflexivity|]. split; [assumption|].
  unfold array_get. destruct (i <? 0)%Z eqn:E; [apply Z.ltb_lt in E; lia|].
  destruct (nth_error PC_NAMES (Z.to_nat i)) as [name|] eqn:Hn.
  - exists name. split; reflexivity.
  - apply nth_error_None in Hn. cbn [List.length PC_NAMES] in Hn. lia.
Qed.

(** ** The exported frequencies *)

Lemma toCents_fromCents c : toCents (fromCents c) = c.
Proof. unfold fromCents, Math_pow. rewrite toCents_log2, log2_pow2. lra. Qed.

Lemma fromCents_minus a b : fromCents (a - b) = fromCents a / fromCents b.
Proof.
  unfold fromCents, Math_pow.
  replace ((a - b) / 1200) with (a / 1200 + - (b / 1200)) by lra.
  rewrite Rpower_plus, Rpower_Ropp. reflexivity.
Qed.

(** X24: for a positive base frequency and every row of the table, the
    exported Just and equal-tempered frequencies in real-octave mode are the
    base-octave ones times [2^k], [k = floor(log2 n)]; the Pythagorean and
    Werckmeister frequencies in real-octave mode lie within half an octave of
    the harmonic, from 600 cents below up to less than 600 above. *)
Theorem export_hz_real_octave (baseFreq : R) (count : Z) (w3Positions : list R)
    (c : Caches) :
  0 < baseFreq ->
  Forall (fun r =>
            let '(jHz, eqHz, pHz, wHz) := export_hz true baseFreq r in
            let '(jB, eqB, _, _) := export_hz false baseFreq r in
            jHz = jB * IZR (2 ^ Z.log2 (h_n r)) /\
            eqHz = eqB * IZR (2 ^ Z.log2 (h_n r)) /\
            -600 <= toCents (pHz / harmonicHz r) < 600 /\
            -600 <= toCents (wHz / harmonicHz r) < 600)
         (fst (harmonics baseFreq count w3Positions c)).
Proof.
  intros Hb.
  destruct (harmonics_rows baseFreq count w3Positions c) as (_ & Hall & _).
  assert (Hc : rows_cached baseFreq (fold_left (harmonic_step baseFreq w3Positions)
                                       (seqZ 1 (Z.max 1 count)) ([], c))).
  { apply harmonics_fold_cached; [constructor | intros ? ? [] | constructor | apply seqZ_sorted]. }
  unfold rows_cached in Hc. fold (harmonics baseFreq count w3Positions c) in Hc.
  assert (H := proj2 (Forall_and _ _) (conj Hall Hc)). clear Hall Hc.
  eapply Forall_impl; [exact H|]. cbn beta.
  intros r [(Hn & Hhz & Hj & He) (_ & _ & _ & Hpd & _ & Hwd)].
  assert (H1 : (1 <= h_n r)%Z) by lia.
  destruct (harmonic_ratio_eq (h_n r) H1) as (Hr & H12 & Hcents).
  assert (H2k : 0 < IZR (2 ^ Z.log2 (h_n r)))
    by (apply IZR_lt, Z.pow_pos_nonneg; [lia | apply Z.log2_nonneg]).
  assert (Hnpos : 0 < IZR (h_n r)) by (apply IZR_lt; lia).
  assert (Hhpos : 0 < harmonicHz r) by (rewrite Hhz; apply Rmult_lt_0_compat; assumption).
  unfold export_hz. cbv zeta. cbv iota beta.
  rewrite Hpd, Hwd, He, Hj, Hhz.
  unfold harmonic_equal, harmonic_just. cbn [he_delta he_freqBase hj_cents hj_ratioVal].
  set (cj := toCents (harmonic_ratio (h_n r))) in *.
  destruct (equalTempNearest_deviation_aux cj) as (Hd & _).
  rewrite (signedDelta_eq cj _ 0) by lra.
  replace (eq_cents (equalTempNearest cj) - cj - 1200 * 0)
    with (eq_cents (equalTempNearest cj) - cj) by lra.
  rewrite fromCents_minus.
  assert (Hfc : fromCents cj = harmonic_ratio (h_n r))
    by (apply fromCents_toCents; lra).
  rewrite Hfc.
  assert (Heq : eq_ratio (equalTempNearest cj) = fromCents (eq_cents (equalTempNearest cj)))
    by reflexivity.
  rewrite Heq. set (fe := fromCents (eq_cents (equalTempNearest cj))).
  split; [rewrite Hr; field; lra|].
  split; [rewrite Hr; field; split; [lra|]; apply Rgt_not_eq; lra|].
  assert (Hq : forall d, baseFreq * IZR (h_n r) * fromCents d / (baseFreq * IZR (h_n r))
                         = fromCents d)
    by (intros d; field; split; lra).
  rewrite !Hq, !toCents_fromCents.
  split; apply signedDelta_range.
Qed.

Lemma export_hz_real_octave_witness :
  Forall (fun r =>
            let '(jHz, eqHz, pHz, wHz) := export_hz true 440 r in
            let '(jB, eqB, _, _) := export_hz false 440 r in
            jHz = jB * IZR (2 ^ Z.log2 (h_n r)) /\
            eqHz = eqB * IZR (2 ^ Z.log2 (h_n r)) /\
            -600 <= toCents (pHz / harmonicHz r) < 600 /\
            -600 <= toCents (wHz / harmonicHz r) < 600)
         (fst (harmonics 440 20 werckmeisterIIIPositions no_caches)).
Proof. apply (export_hz_real_octave 440 20 werckmeisterIIIPositions no_caches). lra. Defined.

(** ** How far a matcher can be from its target *)

(** The circular distance is the least distance over the octave offsets. *)
Lemma circ_le t c (j : Z) : circ t c <= Rabs (c - t - 1200 * IZR j).
Proof.
  destruct (signedDelta_floor t c) as (k & Hs & Hr).
  unfold circ. rewrite Hs. set (d := c - t - 1200 * IZR k) in *.
  replace (c - t - 1200 * IZR j) with (d + 1200 * IZR (k - j))
    by (unfold d; rewrite minus_IZR; lra).
  destruct (Z.eq_dec k j) as [->|Hne].
  - rewrite Z.sub_diag. right. f_equal. lra.
  - assert (Hm : (k - j <= -1)%Z \/ (1 <= k - j)%Z) by lia.
    destruct Hm as [Hm|Hm]; apply IZR_le in Hm;
      unfold Rabs; repeat destruct (Rcase_abs _); lra.
Qed.

(** Moving the target moves the circular distance by no more. *)
Lemma circ_shift t t0 c : circ t c <= circ t0 c + Rabs (t - t0).
Proof.
  destruct (signedDelta_floor t0 c) as (k & Hs & Hr).
  eapply Rle_trans; [apply (circ_le t c k)|].
  unfold circ. rewrite Hs.
  replace (c - t - 1200 * IZR k) with ((c - t0 - 1200 * IZR k) + - (t - t0)) by lra.
  eapply Rle_trans; [apply Rabs_triang|]. rewrite Rabs_Ropp. lra.
Qed.

Lemma same_key_close t t0 :
  Math_round (t0 * 1000) = Math_round (t * 1000) -> Rabs (t - t0) <= 0.001.
Proof.
  intros Hk. pose proof (key_bucket t _ eq_refl). pose proof (key_bucket t0 _ Hk).
  apply Rabs_le. lra.
Qed.

(** The residue of a target in [0, 1200) and the distance through it. *)
Lemma circ_residue t :
  exists u, 0 <= u < 1200 /\
            (forall c e, Rabs (c - u) <= e -> circ t c <= e) /\
            (forall c e, Rabs (c + 1200 - u) <= e -> circ t c <= e).
Proof.
  pose proof (Zfloor_bound (t / 1200)) as Hk. set (k := Zfloor (t / 1200)) in *.
  exists (t - 1200 * IZR k). split; [lra|]. split; intros c e He.
  - eapply Rle_trans; [apply (circ_le t c (- k))|]. rewrite opp_IZR.
    replace (c - t - 1200 * - IZR k) with (c - (t - 1200 * IZR k)) by lra. exact He.
  - eapply Rle_trans; [apply (circ_le t c (- k - 1))|]. rewrite minus_IZR, opp_IZR.
    replace (c - t - 1200 * (- IZR k - 1)) with (c + 1200 - (t - 1200 * IZR k)) by lra.
    exact He.
Qed.

Ltac in_table := repeat first [left; reflexivity | right].

Ltac pick_just j :=
  exists j; split; [unfold JUST_SET; cbn [In]; in_table|];
  match goal with H : forall c e, Rabs (c - _) <= e -> _ |- _ => apply H end;
  autorewrite with just_table; apply Rabs_le; lra.

(** Every target is within 56 cents of an entry of the Just table. *)
Lemma just_cover t : exists j, In j JUST_SET /\ circ t (just_cents j) <= 56.
Proof.
  pose proof L3_bounds. pose proof L5_bounds.
  destruct (circ_residue t) as (u & Hu & Hc & Hw).
  destruct (Rle_dec u 56); [pick_just (mkJust "1/1 (unísono)" (1, 1)%Z)|].
  destruct (Rle_dec u 167); [pick_just (mkJust "16/15 (2m)" (16, 15)%Z)|].
  destruct (Rle_dec u 259.8); [pick_just (mkJust "9/8 (2M)" (9, 8)%Z)|].
  destruct (Rle_dec u 371); [pick_just (mkJust "6/5 (3m)" (6, 5)%Z)|].
  destruct (Rle_dec u 442.2); [pick_just (mkJust "5/4 (3M)" (5, 4)%Z)|].
  destruct (Rle_dec u 554); [pick_just (mkJust "4/3 (4J)" (4, 3)%Z)|].
  destruct (Rle_dec u 646.1); [pick_just (mkJust "45/32 (TT)" (45, 32)%Z)|].
  destruct (Rle_dec u 757.8); [pick_just (mkJust "3/2 (5J)" (3, 2)%Z)|].
  destruct (Rle_dec u 869); [pick_just (mkJust "8/5 (6m)" (8, 5)%Z)|].
  destruct (Rle_dec u 940.2); [pick_just (mkJust "5/3 (6M)" (5, 3)%Z)|].
  destruct (Rle_dec u 1052); [pick_just (mkJust "16/9 (7m)" (16, 9)%Z)|].
  destruct (Rle_dec u 1144.1); [pick_just (mkJust "15/8 (7M)" (15, 8)%Z)|].
  exists (mkJust "1/1 (unísono)" (1, 1)%Z). split; [left; reflexivity|].
  apply Hw. rewrite jc_1_1. apply Rabs_le. lra.
Qed.

Lemma just_search_within t :
  (exists j, In j JUST_SET /\ just_search t = just_result j) /\
  circ t (j_cents (just_search t)) <= 56.
Proof.
  destruct (just_search_elim t) as (j & (l1 & l2 & Hl & H1 & H2) & ->).
  assert (Hin : In j JUST_SET) by (rewrite Hl; apply in_or_app; right; left; reflexivity).
  split; [exists j; split; [assumption | reflexivity]|].
  destruct (just_cover t) as (y & Hy & Hle). cbn [just_result j_cents].
  eapply Rle_trans; [|exact Hle].
  rewrite Hl in Hy. apply in_app_or in Hy.
  rewrite List.Forall_forall in H1, H2.
  destruct Hy as [Hy | [<- | Hy]].
  - apply Rlt_le. apply H1. assumption.
  - lra.
  - apply H2. assumption.
Qed.

(** X25: with a cache that only calls of [nearestJust] have filled, the
    entry that [nearestJust] returns is an entry of the table and lies within
    56.001 cents of the target in circular distance, and within 56 cents
    when the key of the target is not in the cache. *)
Theorem nearestJust_within_56 (t : R) (c : gmap Z JustResult) :
  just_reachable c ->
  let res := fst (nearestJust t c) in
  (exists j, In j JUST_SET /\ res = just_result j) /\
  circ t (j_cents res) <= 56.001 /\
  (c !! Math_round (t * 1000) = None -> circ t (j_cents res) <= 56).
Proof.
  intros Hc. cbn zeta.
  destruct (nearestJust_some_target t c Hc) as (t0 & Hk & Hres).
  destruct (just_search_within t0) as (Hin & H56).
  split; [rewrite Hres; exact Hin|]. split.
  - rewrite Hres. pose proof (circ_shift t t0 (j_cents (just_search t0))).
    pose proof (same_key_close t t0 Hk). lra.
  - intros Hmiss. rewrite nearestJust_memo, (memo_miss _ _ _ Hmiss). cbn [fst].
    apply just_search_within.
Qed.

Lemma nearestJust_within_56_witness :
  circ 150 (j_cents (fst (nearestJust 150 ∅))) <= 56.
Proof.
  destruct (nearestJust_within_56 150 ∅ jr_empty) as (_ & _ & H).
  apply H. apply lookup_empty.
Defined.

Ltac pick_pyth b :=
  exists b; split; [lia|];
  match goal with H : forall c e, Rabs (c - _) <= e -> _ |- _ => apply H end;
  let k := eval vm_compute in ((b * 1584963) / 1000000)%Z in
  rewrite (pyth_cents_eq b k) by lra;
  apply Rabs_le; lra.

(** Every target is within 45.2 cents of a candidate of the Pythagorean
    search. *)
Lemma pyth_cover t :
  exists b, (-11 <= b <= 11)%Z /\ circ t (pyth_cents b) <= 45.2.
Proof.
  pose proof L3_bounds.
  destruct (circ_residue t) as (u & Hu & Hc & Hw).
  destruct (Rle_dec u 45.11); [pick_pyth 0%Z|].
  destruct (Rle_dec u 135.34); [pick_pyth (-5)%Z|].
  destruct (Rle_dec u 192); [pick_pyth (-10)%Z|].
  destruct (Rle_dec u 249.02); [pick_pyth 2%Z|].
  destruct (Rle_dec u 339.25); [pick_pyth (-3)%Z|].
  destruct (Rle_dec u 396); [pick_pyth (-8)%Z|].
  destruct (Rle_dec u 452.93); [pick_pyth 4%Z|].
  destruct (Rle_dec u 543.16); [pick_pyth (-1)%Z|].
  destruct (Rle_dec u 633.38); [pick_pyth (-6)%Z|].
  destruct (Rle_dec u 690); [pick_pyth (-11)%Z|].
  destruct (Rle_dec u 747.07); [pick_pyth 1%Z|].
  destruct (Rle_dec u 837.29); [pick_pyth (-4)%Z|].
  destruct (Rle_dec u 894); [pick_pyth (-9)%Z|].
  destruct (Rle_dec u 950.98); [pick_pyth 3%Z|].
  destruct (Rle_dec u 1041.2); [pick_pyth (-2)%Z|].
  destruct (Rle_dec u 1098); [pick_pyth (-7)%Z|].
  destruct (Rle_dec u 1154.89); [pick_pyth 5%Z|].
  exists 0%Z. split; [lia|]. apply Hw.
  rewrite (pyth_cents_eq 0 0) by lra. apply Rabs_le. lra.
Qed.

Lemma pyth_search_within t :
  circ t (py_cents (pyth_search t)) <= 45.2 /\
  0 <= py_cents (pyth_search t) < 1200 /\ 1 <= py_ratio (pyth_search t) < 2.
Proof.
  destruct (pyth_search_nearest t) as (b & Hb & Hr & H12 & Hc & Hmin & _).
  destruct (pyth_cover t) as (b' & Hb' & Hle).
  split; [eapply Rle_trans; [apply (Hmin b' Hb') | exact Hle]|].
  split; [|assumption].
  rewrite Hc, Hr. apply pyth_cents_range.
Qed.

(** X26: with a cache that only calls of [nearestPythagorean] have filled,
    the result of [nearestPythagorean] lies within 45.201 cents of the
    target in circular distance, and within 45.2 cents when the key of the
    target is not in the cache; its cents are in [0, 1200) and its ratio in
    [1, 2). *)
Theorem nearestPythagorean_within_45 (t : R) (c : gmap Z PythResult) :
  pyth_reachable c ->
  let res := fst (nearestPythagorean t c) in
  circ t (py_cents res) <= 45.201 /\
  (c !! Math_round (t * 1000) = None -> circ t (py_cents res) <= 45.2) /\
  0 <= py_cents res < 1200 /\ 1 <= py_ratio res < 2.
Proof.
  intros Hc. cbn zeta.
  destruct (nearestPythagorean_some_target t c Hc) as (t0 & Hk & Hres).
  destruct (pyth_search_within t0) as (H45 & Hcents & Hratio).
  split; [|split].
  - rewrite Hres. pose proof (circ_shift t t0 (py_cents (pyth_search t0))).
    pose proof (same_key_close t t0 Hk). lra.
  - intros Hmiss. rewrite nearestPythagorean_memo, (memo_miss _ _ _ Hmiss). cbn [fst].
    apply pyth_search_within.
  - rewrite Hres. split; assumption.
Qed.

Lemma nearestPythagorean_within_45_witness :
  circ 150 (py_cents (fst (nearestPythagorean 150 ∅))) <= 45.201.
Proof. apply (nearestPythagorean_within_45 150 ∅ pr_empty). Defined.

(** ** The list of targets *)

Lemma list_ascii_app (u v : string) :
  list_ascii_of_string (u ++ v) = list_ascii_of_string u ++ list_ascii_of_string v.
Proof.
  induction u as [|c u IH]; [reflexivity|].
  change (String c u ++ v)%string with (String c (u ++ v)).
  cbn [list_ascii_of_string app]. rewrite IH. reflexivity.
Qed.

Lemma split_runs_plain sep s b :
  Forall (fun c => sep c = false) s -> s <> [] -> split_runs sep s b = [s].
Proof.
  intros Hs. revert b. induction Hs as [|c s Hc Hs IH]; intros b Hne; [congruence|].
  cbn [split_runs]. rewrite Hc. destruct s as [|c' s'].
  - reflexivity.
  - rewrite IH by discriminate. reflexivity.
Qed.

Lemma split_runs_piece sep u c v :
  Forall (fun c => sep c = false) u -> sep c = true ->
  split_runs sep (u ++ c :: v) false = u :: split_runs sep v true.
Proof.
  intros Hu Hc. induction Hu as [|a u Ha Hu IH]; cbn [app split_runs].
  - rewrite Hc. reflexivity.
  - rewrite Ha, IH. reflexivity.
Qed.

Lemma omap_length_le {A B : Type} (f : A -> option B) l :
  (List.length (omap f l) <= List.length l)%nat.
Proof.
  induction l as [|a l IH]; [reflexivity|].
  change (omap f (a :: l)) with (match f a with
                                | Some y => y :: omap f l
                                | None => omap f l
                                end).
  destruct (f a); cbn [List.length]; lia.
Qed.

(** X27: the pattern of the target list separates at commas (and at
    backslashes and at the letter s) but not at white space: two pieces
    without such characters joined by a comma are two targets, joined by a
    blank they are one target, and the comparator then shows at most one
    row for them. *)
Theorem split_targets_blank (u v : string) :
  no_separator u -> no_separator v -> u <> ""%string -> v <> ""%string ->
  split_targets (u ++ "," ++ v) = [u; v] /\
  split_targets (u ++ " " ++ v) = [(u ++ " " ++ v)%string] /\
  forall a4 fund sys realOct distMode c,
    match comparador_rows a4 fund (u ++ " " ++ v) sys realOct distMode c with
    | Some (rs, _) => (List.length rs <= 1)%nat
    | None => True
    end.
Proof.
  intros Hu Hv Hue Hve. unfold no_separator in *.
  assert (Hne : forall s : string, s <> ""%string -> list_ascii_of_string s <> [])
    by (intros [|a s] H; [congruence | discriminate]).
  assert (Hblank : split_targets (u ++ " " ++ v) = [(u ++ " " ++ v)%string]).
  { unfold split_targets. rewrite split_runs_plain.
    - cbn [List.filter]. destruct (list_ascii_of_string (u ++ " " ++ v)) eqn:E.
      + exfalso. rewrite list_ascii_app in E. apply app_eq_nil in E as [E _].
        apply (Hne u Hue E).
      + cbn [nonempty map]. rewrite <- E, string_of_list_ascii_of_string. reflexivity.
    - rewrite !list_ascii_app. apply Forall_app. split; [assumption|].
      apply Forall_app. split; [|assumption]. constructor; [reflexivity | constructor].
    - rewrite list_ascii_app. intros E. apply app_eq_nil in E as [E _].
      apply (Hne u Hue E). }
  split; [|split; [exact Hblank|]].
  - unfold split_targets. rewrite !list_ascii_app. cbn [list_ascii_of_string app].
    rewrite split_runs_piece by (assumption || reflexivity).
    rewrite split_runs_plain by (try assumption; apply Hne; assumption).
    cbn [List.filter].
    destruct (list_ascii_of_string u) eqn:Eu; [exfalso; apply (Hne u Hue Eu)|].
    destruct (list_ascii_of_string v) eqn:Ev; [exfalso; apply (Hne v Hve Ev)|].
    cbn [nonempty map]. rewrite <- Eu, <- Ev, !string_of_list_ascii_of_string. reflexivity.
  - intros a4 fund sys realOct distMode c. unfold comparador_rows. cbv zeta.
    rewrite Hblank. destruct (fundamental fund a4) as [fFund| | |]; try exact I.
    destruct (rows a4 fFund sys werckmeisterIIIPositions realOct distMode
                   [(u ++ " " ++ v)%string] c) as [[rs c']|] eqn:Hr; [|exact I].
    pose proof (rows_finite _ _ _ _ _ _ _ _ _ _ Hr) as Hfin.
    destruct (rows_freqs a4 fFund sys werckmeisterIIIPositions realOct distMode _ c Hfin)
      as (rs' & c'' & Hr' & Hm).
    rewrite Hr in Hr'. injection Hr' as <- <-.
    rewrite <- (length_map hzTarget), Hm.
    apply (omap_length_le (row_freq a4) [(u ++ " " ++ v)%string]).
Qed.

Lemma split_targets_blank_witness :
  split_targets "D4,E4" = ["D4"; "E4"]%string /\
  split_targets "D4 E4" = ["D4 E4"%string] /\
  forall a4 fund sys realOct distMode c,
    match comparador_rows a4 fund "D4 E4" sys realOct distMode c with
    | Some (rs, _) => (List.length rs <= 1)%nat
    | None => True
    end.
Proof.
  apply (split_targets_blank "D4" "E4").
  - repeat constructor.
  - repeat constructor.
  - discriminate.
  - discriminate.
Defined.

(** ** The comparator under equal temperament *)



Section EqualRows.

Variables (a4 fFund : R) (w3Positions : list R) (realOct : bool) (distMode : DistMode).

Local Abbreviation estep := (rows_step a4 fFund SysEqual w3Positions realOct distMode).



End EqualRows.



(** ** Printing and reading back a positive integer *)

Lemma uint_chars_digits (d : Decimal.uint) :
  Forall (fun c => is_digit c = true) (list_ascii_of_string (NilEmpty.string_of_uint d)).
Proof.
  induction d; cbn [NilEmpty.string_of_uint list_ascii_of_string];
    constructor; solve [reflexivity | assumption].
Qed.

Ltac digit_value :=
  match goal with
  | |- context [digit_val ?c] =>
      let v := eval vm_compute in (digit_val c) in change (digit_val c) with v
  end.

Lemma uint_chars_acc (d : Decimal.uint) (acc : positive) :
  fold_left (fun a c => (a * 10 + digit_val c)%Z)
            (list_ascii_of_string (NilEmpty.string_of_uint d)) (Z.pos acc)
  = Z.pos (Pos.of_uint_acc d acc).
Proof.
  revert acc.
  induction d as [|d IH|d IH|d IH|d IH|d IH|d IH|d IH|d IH|d IH|d IH]; intros acc;
    cbn [NilEmpty.string_of_uint list_ascii_of_string fold_left Pos.of_uint_acc];
    [reflexivity|..];
    match goal with
    | |- fold_left _ _ ?a = Z.pos (Pos.of_uint_acc _ ?b) =>
        replace a with (Z.pos b) by (digit_value; lia)
    end; apply IH.
Qed.

Lemma uint_chars_val (d : Decimal.uint) :
  digits_val (list_ascii_of_string (NilEmpty.string_of_uint d)) = Z.of_N (Pos.of_uint d).
Proof.
  unfold digits_val.
  induction d as [|d IH|d IH|d IH|d IH|d IH|d IH|d IH|d IH|d IH|d IH];
    cbn [NilEmpty.string_of_uint list_ascii_of_string fold_left Pos.of_uint];
    [reflexivity | exact IH |..];
    match goal with
    | |- fold_left _ _ ?a = Z.of_N (N.pos (Pos.of_uint_acc _ ?b)) =>
        replace a with (Z.pos b) by (digit_value; lia)
    end; apply uint_chars_acc.
Qed.

Lemma string_of_Z_pos (p : positive) :
  string_of_Z (Z.pos p) = NilEmpty.string_of_uint (Pos.to_uint p).
Proof.
  unfold string_of_Z. cbn [Z.to_int NilZero.string_of_int].
  pose proof (DecimalPos.Unsigned.to_uint_nonnil p) as Hn.
  destruct (Pos.to_uint p); [congruence | reflexivity..].
Qed.

(** The decimal digits of a positive integer: digits only, at least one,
    and [parseInt] reads the integer back. *)
Lemma parseInt_string_of_Z (z : Z) :
  (0 < z)%Z ->
  let ds := list_ascii_of_string (string_of_Z z) in
  Forall (fun c => is_digit c = true) ds /\ ds <> [] /\ parseInt ds = Some z.
Proof.
  intros Hz. destruct z as [|p|p]; try lia. cbn zeta. rewrite string_of_Z_pos.
  pose proof (uint_chars_digits (Pos.to_uint p)) as Hd.
  pose proof (uint_chars_val (Pos.to_uint p)) as Hv.
  rewrite DecimalPos.Unsigned.of_to in Hv. cbn [Z.of_N] in Hv.
  destruct (list_ascii_of_string (NilEmpty.string_of_uint (Pos.to_uint p)))
    as [|c ds]; [discriminate Hv|].
  split; [assumption|]. split; [discriminate|].
  pose proof (Forall_inv Hd) as Hc.
  destruct (digit_not_special c Hc) as (Hsp & Hm & Hp).
  unfold parseInt. cbn [trim_left]. rewrite Hsp. cbn [take_sign]. rewrite Hm, Hp.
  rewrite (span_digits_digits _ Hd). rewrite Hv. reflexivity.
Qed.

Lemma digit_not_slash c : is_digit c = true -> Ascii.eqb c "/" = false.
Proof. intros Hc. apply Ascii.eqb_neq. intros ->. discriminate. Qed.

Lemma split_slash_digits ds :
  Forall (fun c => is_digit c = true) ds -> split_slash ds = [ds].
Proof.
  induction 1 as [|c ds Hc _ IH]; [reflexivity|].
  cbn [split_slash]. rewrite (digit_not_slash c Hc), IH. reflexivity.
Qed.

Lemma split_slash_pair ds1 ds2 :
  Forall (fun c => is_digit c = true) ds1 -> Forall (fun c => is_digit c = true) ds2 ->
  split_slash (ds1 ++ "/"%char :: ds2) = [ds1; ds2].
Proof.
  intros H1 H2. induction H1 as [|c ds Hc _ IH]; cbn [app split_slash].
  - change (Ascii.eqb "/" "/") with true. cbv iota. rewrite split_slash_digits by assumption.
    reflexivity.
  - rewrite (digit_not_slash c Hc), IH. reflexivity.
Qed.

(** X29: with a cache that only calls of [nearestPythagorean] have filled,
    the Pythagorean projection of the comparator always carries its exact
    fraction: the pair read back from the printed fraction is the numerator
    and denominator in lowest terms, both positive, their quotient is the
    ratio of the projection, which lies in [1, 2), and the cents are those of
    that ratio; the cache stays one that only such calls have filled and the
    other two caches are as before. *)
Theorem project_pyth_exact (w3Positions : list R) (ratioRed centsEI : R) (c : Caches) :
  pyth_reachable (pythCache c) ->
  let pr := fst (project SysPyth w3Positions ratioRed centsEI c) in
  let c' := snd (project SysPyth w3Positions ratioRed centsEI c) in
  (exists n d : Z,
      p_pair pr = Some (n, d) /\ (0 < n)%Z /\ (0 < d)%Z /\ Z.gcd n d = 1%Z /\
      p_frac pr = [Chars (string_of_Z n ++ "/" ++ string_of_Z d)] /\
      p_ratio pr = IZR n / IZR d) /\
  1 <= p_ratio pr < 2 /\ p_cents pr = toCents (p_ratio pr) /\
  pyth_reachable (pythCache c') /\
  w3Cache c' = w3Cache c /\ justCache c' = justCache c.
Proof.
  intros Hc. cbn zeta. unfold project.
  pose proof (pr_call centsEI (pythCache c) Hc) as Hc'.
  destruct (nearestPythagorean_some_target centsEI (pythCache c) Hc) as (t0 & _ & Hres).
  destruct (nearestPythagorean centsEI (pythCache c)) as [p pc]. cbn [fst snd] in *.
  subst p.
  destruct (pyth_search_nearest t0) as (b & _ & _ & H12 & Hcents & _ & n & d & Hf & Hn & Hd & Hg & Hq).
  cbn [p_pair p_frac p_ratio p_cents pythCache w3Cache justCache].
  split; [|auto].
  exists n, d. rewrite Hf.
  destruct (parseInt_string_of_Z n Hn) as (Hdn & _ & Hpn).
  destruct (parseInt_string_of_Z d Hd) as (Hdd & _ & Hpd).
  rewrite !list_ascii_app. cbn [list_ascii_of_string app].
  rewrite (split_slash_pair _ _ Hdn Hdd), Hpn, Hpd.
  split; [reflexivity|]. split; [assumption|]. split; [assumption|]. split; [assumption|].
  split; [reflexivity|]. symmetry. assumption.
Qed.

Lemma project_pyth_exact_witness :
  1 <= p_ratio (fst (project SysPyth werckmeisterIIIPositions (3 / 2) 702 no_caches)) < 2.
Proof.
  apply (project_pyth_exact werckmeisterIIIPositions (3 / 2) 702 no_caches). apply pr_empty.
Defined.

(** ** The exported file *)

Lemma csv_read_body x rest cell row rows :
  csv_read (escape_quotes x ++ dquote :: rest) CsvInside cell row rows =
  csv_read rest CsvQuote (cell ++ x) row rows.
Proof.
  revert cell. induction x as [|c x IH]; intros cell; cbn [escape_quotes app csv_read].
  - rewrite Ascii.eqb_refl, app_nil_r. reflexivity.
  - destruct (Ascii.eqb c dquote) eqn:E.
    + apply Ascii.eqb_eq in E. subst c. cbn [app csv_read]. rewrite !Ascii.eqb_refl.
      rewrite IH, <- app_assoc. reflexivity.
    + cbn [app csv_read]. rewrite E, IH, <- app_assoc. reflexivity.
Qed.

Lemma csv_read_cell x rest row rows :
  csv_read (csv_cell x ++ rest) CsvStart [] row rows = csv_read rest CsvQuote x row rows.
Proof.
  unfold csv_cell. cbn [app csv_read]. rewrite Ascii.eqb_refl, <- app_assoc.
  cbn [app]. apply csv_read_body.
Qed.

Lemma csv_read_line x xs rest row rows :
  csv_read (join [","%char] (map csv_cell (x :: xs)) ++ rest) CsvStart [] row rows =
  csv_read rest CsvQuote (List.last (x :: xs) []) (row ++ List.removelast (x :: xs)) rows.
Proof.
  revert x row. induction xs as [|y xs IH]; intros x row.
  - cbn [map join List.last List.removelast]. rewrite app_nil_r. apply csv_read_cell.
  - change (join [","%char] (map csv_cell (x :: y :: xs)))
      with (csv_cell x ++ [","%char] ++ join [","%char] (map csv_cell (y :: xs))).
    rewrite <- !app_assoc, csv_read_cell. cbn [app csv_read].
    change (Ascii.eqb "," dquote) with false. change (Ascii.eqb "," ",") with true.
    cbv iota. rewrite IH.
    change (List.last (x :: y :: xs) []) with (List.last (y :: xs) []).
    change (List.removelast (x :: y :: xs)) with (x :: List.removelast (y :: xs)).
    rewrite <- app_assoc. reflexivity.
Qed.

Lemma csv_read_table r rs rows :
  r <> [] -> Forall (fun r' => r' <> []) rs ->
  csv_read (csv (r :: rs)) CsvStart [] [] rows = Some (rows ++ r :: rs).
Proof.
  intros Hr Hrs. revert r rows Hr.
  induction Hrs as [|r' rs Hr' _ IH]; intros r rows Hr;
    destruct r as [|x xs]; try congruence.
  - change (csv [x :: xs]) with (join [","%char] (map csv_cell (x :: xs))).
    rewrite <- (app_nil_r (join _ _)), csv_read_line. cbn [csv_read app].
    rewrite <- app_removelast_last by discriminate. reflexivity.
  - change (csv ((x :: xs) :: r' :: rs))
      with (join [","%char] (map csv_cell (x :: xs)) ++ [newline] ++ csv (r' :: rs)).
    rewrite csv_read_line. cbn [app csv_read].
    change (Ascii.eqb newline dquote) with false. change (Ascii.eqb newline ",") with false.
    rewrite Ascii.eqb_refl. cbv iota.
    rewrite <- app_removelast_last by discriminate.
    rewrite IH by assumption. rewrite <- app_assoc. reflexivity.
Qed.

(** X30: the text that [downloadCSV] writes loses nothing: for a table with
    at least one row and at least one cell in every row, whatever characters
    the cells hold (quotes, commas and line feeds included), reading the text
    as quoted CSV gives the table back; so two such tables with the same text
    are the same table. *)
Theorem csv_lossless (rows : list (list (list ascii))) :
  rows <> [] -> Forall (fun r => r <> []) rows ->
  csv_read (csv rows) CsvStart [] [] [] = Some rows /\
  forall rows', rows' <> [] -> Forall (fun r => r <> []) rows' ->
                csv rows' = csv rows -> rows' = rows.
Proof.
  assert (Hread : forall t, t <> [] -> Forall (fun r => r <> []) t ->
                            csv_read (csv t) CsvStart [] [] [] = Some t).
  { intros [|r rs] Hne Hall; [congruence|].
    apply Forall_cons in Hall as [Hr Hrs]. apply (csv_read_table r rs [] Hr Hrs). }
  intros Hne Hall. split; [apply Hread; assumption|].
  intros rows' Hne' Hall' Heq.
  pose proof (Hread rows' Hne' Hall') as H'. rewrite Heq, (Hread rows Hne Hall) in H'.
  congruence.
Qed.

Lemma csv_lossless_witness :
  csv_read (csv [[[","%char; dquote]; []]; [[newline]]]) CsvStart [] [] []
  = Some [[[","%char; dquote]; []]; [[newline]]].
Proof.
  apply (csv_lossless [[[","%char; dquote]; []]; [[newline]]]).
  - discriminate.
  - repeat constructor; discriminate.
Defined.
